(** * deep-diff-esm: structural diff, apply and revert

    A shallow embedding of [src/deepDiff.js] (the recursive walk [deepDiff],
    [observableDiff] and [diff]), of the apply/revert engine that follows it
    in the same source bundle ([applyArrayChange], [revertArrayChange],
    [applyChange], [revertChange]) and of [utils.js] ([hashThisString],
    [arrayRemove], [realTypeOf], [getOrderIndependentHash]).

    Conventions of the embedding.
    - JavaScript values are finite trees ([value]).  An in-place mutation of
      an object reached from a root is rendered as the rebuilt root (explicit
      state passing); a deep copy of a tree is the tree itself.
    - Finite numbers are represented by integers; [NaN] is kept apart because
      the walk treats it specially.  Strings are strings of 8-bit code units.
    - Only own properties are modelled: nothing is inherited from a prototype.
    - An operation that leaves this fragment (an expando property on an
      array, say) is reported as [Err OutOfModel]; a JavaScript [TypeError]
      as [Err TypeError]. *)

From Stdlib Require Import List String Ascii ZArith Lia Bool Arith PeanoNat.
From Stdlib Require Import DecimalString Permutation.
Import ListNotations.

Local Open Scope string_scope.
Local Open Scope list_scope.

Set Warnings "-register-all".

(** ** Values *)

(** A JavaScript number: [NaN] or a finite number. *)
Inductive number : Type :=
| NaN
| Num (z : Z).

(** A property key as it occurs in a path: a string, an array index (a
    number) or a symbol. *)
Inductive key : Type :=
| KStr (s : string)
| KNum (n : nat)
| KSym (id : nat).

(** The values the classifier [realTypeOf] tells apart.  An array is its list
    of slots, [None] being a hole; an object is its own enumerable
    properties in enumeration order.  [VDate t] is a Date with time value
    [t]; [VRegExp text] is a RegExp whose [toString()] is [text]. *)
Inductive value : Type :=
| VUndefined
| VNull
| VBool (b : bool)
| VNumber (n : number)
| VString (s : string)
| VDate (t : number)
| VRegExp (text : string)
| VArray (items : list (option value))
| VObject (props : list (key * value)).

Definition number_eqb (a b : number) : bool :=
  match a, b with
  | NaN, NaN => true
  | Num x, Num y => Z.eqb x y
  | _, _ => false
  end.

Definition key_eqb (a b : key) : bool :=
  match a, b with
  | KStr s, KStr t => String.eqb s t
  | KNum n, KNum m => Nat.eqb n m
  | KSym i, KSym j => Nat.eqb i j
  | _, _ => false
  end.

(** Induction over values that reaches the elements of arrays and the
    property values of objects. *)
Section ValueInduction.
Variable P : value -> Prop.
Hypothesis Hundefined : P VUndefined.
Hypothesis Hnull : P VNull.
Hypothesis Hbool : forall b, P (VBool b).
Hypothesis Hnumber : forall n, P (VNumber n).
Hypothesis Hstring : forall s, P (VString s).
Hypothesis Hdate : forall t, P (VDate t).
Hypothesis Hregexp : forall s, P (VRegExp s).
Hypothesis Harray :
  forall items, Forall (fun o => forall v, o = Some v -> P v) items ->
                P (VArray items).
Hypothesis Hobject :
  forall props, Forall (fun kv => P (snd kv)) props -> P (VObject props).

Fixpoint value_nested_ind (v : value) : P v :=
  match v with
  | VUndefined => Hundefined
  | VNull => Hnull
  | VBool b => Hbool b
  | VNumber n => Hnumber n
  | VString s => Hstring s
  | VDate t => Hdate t
  | VRegExp s => Hregexp s
  | VArray items =>
      Harray items
        ((fix items_ind (l : list (option value)) :
            Forall (fun o => forall v, o = Some v -> P v) l :=
            match l with
            | [] => Forall_nil _
            | o :: tl =>
                Forall_cons o
                  (match o as o0 return forall v, o0 = Some v -> P v with
                   | Some w => fun v E =>
                       match E in _ = s return
                             match s with Some u => P u | None => True end
                       with eq_refl => value_nested_ind w end
                   | None => fun v E =>
                       match E in _ = s return
                             match s with Some u => P u | None => True end
                       with eq_refl => I end
                   end)
                  (items_ind tl)
            end) items)
  | VObject props =>
      Hobject props
        ((fix props_ind (l : list (key * value)) :
            Forall (fun kv => P (snd kv)) l :=
            match l with
            | [] => Forall_nil _
            | kv :: tl => Forall_cons kv (value_nested_ind (snd kv)) (props_ind tl)
            end) props)
  end.
End ValueInduction.

(** ** Outcomes of operations that may throw *)

Inductive error : Type :=
| TypeError
| RangeError
| OutOfModel.

Inductive result (A : Type) : Type :=
| Ok (a : A)
| Err (e : error).

Arguments Ok {A} a.
Arguments Err {A} e.

Definition bind {A B : Type} (m : result A) (f : A -> result B) : result B :=
  match m with
  | Ok a => f a
  | Err e => Err e
  end.

Notation "x <- m ;; k" := (bind m (fun x => k))
  (at level 61, m at next level, right associativity).

(** ** The language primitives the engine relies on *)

(** [typeof v]. *)
Definition typeof (v : value) : string :=
  match v with
  | VUndefined => "undefined"
  | VBool _ => "boolean"
  | VNumber _ => "number"
  | VString _ => "string"
  | VNull | VDate _ | VRegExp _ | VArray _ | VObject _ => "object"
  end.

(** Truthiness, as tested by [if (v)] and [v && ...]. *)
Definition truthy (v : value) : bool :=
  match v with
  | VUndefined | VNull => false
  | VBool b => b
  | VNumber NaN => false
  | VNumber (Num z) => negb (Z.eqb z 0)
  | VString s => negb (String.eqb s "")
  | VDate _ | VRegExp _ | VArray _ | VObject _ => true
  end.

(** [a === b] on primitives.  Two objects are identical only when they are
    the same object, which a tree does not record: the engine compares
    objects with [!==] only behind its cycle guard. *)
Definition strictEq (a b : value) : bool :=
  match a, b with
  | VUndefined, VUndefined => true
  | VNull, VNull => true
  | VBool x, VBool y => Bool.eqb x y
  | VNumber (Num x), VNumber (Num y) => Z.eqb x y
  | VString x, VString y => String.eqb x y
  | _, _ => false
  end.

(** [isNaN(v)] on the values the walk passes to it (numbers). *)
Definition isNaN (v : value) : bool :=
  match v with
  | VNumber NaN => true
  | _ => false
  end.

(** [Array.isArray(v)]. *)
Definition isArray (v : value) : bool :=
  match v with
  | VArray _ => true
  | _ => false
  end.

(** Decimal rendering of an integer, as [String(n)] gives it. *)
Definition numToString (z : Z) : string :=
  NilZero.string_of_int (Z.to_int z).

Definition natToString (n : nat) : string :=
  NilZero.string_of_uint (Nat.to_uint n).

(** The property key a path element denotes: [o[3]] is [o["3"]]. *)
Definition propKey (k : key) : key :=
  match k with
  | KNum n => KStr (natToString n)
  | _ => k
  end.

(** *** Property lists of objects *)

Fixpoint lookupProp (k : key) (ps : list (key * value)) : option value :=
  match ps with
  | [] => None
  | (k', v) :: tl => if key_eqb k k' then Some v else lookupProp k tl
  end.

(** Assignment keeps the position of an existing key and appends a new one. *)
Fixpoint insertProp (k : key) (v : value) (ps : list (key * value))
  : list (key * value) :=
  match ps with
  | [] => [(k, v)]
  | (k', v') :: tl =>
      if key_eqb k k' then (k', v) :: tl else (k', v') :: insertProp k v tl
  end.

Fixpoint removeProp (k : key) (ps : list (key * value)) : list (key * value) :=
  match ps with
  | [] => []
  | (k', v') :: tl =>
      if key_eqb k k' then removeProp k tl else (k', v') :: removeProp k tl
  end.

(** *** Slots of arrays *)

(** [arr[n]]: a hole and an index past the end both read as [undefined]. *)
Definition nthSlot (items : list (option value)) (n : nat) : value :=
  match nth_error items n with
  | Some (Some v) => v
  | _ => VUndefined
  end.

(** [arr[n] = v]: past the end the array grows, leaving holes. *)
Fixpoint setSlot (n : nat) (v : value) (items : list (option value))
  : list (option value) :=
  match n, items with
  | O, [] => [Some v]
  | O, _ :: tl => Some v :: tl
  | S n', [] => None :: setSlot n' v []
  | S n', x :: tl => x :: setSlot n' v tl
  end.

(** [delete arr[n]]: the slot becomes a hole, the length stays. *)
Fixpoint clearSlot (n : nat) (items : list (option value))
  : list (option value) :=
  match n, items with
  | _, [] => []
  | O, _ :: tl => None :: tl
  | S n', x :: tl => x :: clearSlot n' tl
  end.

(** *** Reading, writing and deleting [it[k]] *)

(** [it[k]]. *)
Definition getProp (it : value) (k : key) : result value :=
  match it with
  | VUndefined | VNull => Err TypeError
  | VArray items =>
      match k with
      | KNum n => Ok (nthSlot items n)
      | _ => Err OutOfModel
      end
  | VObject ps =>
      match lookupProp (propKey k) ps with
      | Some v => Ok v
      | None => Ok VUndefined
      end
  | VString _ => Err OutOfModel
  | VBool _ | VNumber _ | VDate _ | VRegExp _ => Ok VUndefined
  end.

(** [it[k] = v], in strict mode (the sources are ES modules): assigning to a
    property of a primitive throws. *)
Definition setProp (it : value) (k : key) (v : value) : result value :=
  match it with
  | VUndefined | VNull | VBool _ | VNumber _ | VString _ => Err TypeError
  | VArray items =>
      match k with
      | KNum n => Ok (VArray (setSlot n v items))
      | _ => Err OutOfModel
      end
  | VObject ps => Ok (VObject (insertProp (propKey k) v ps))
  | VDate _ | VRegExp _ => Err OutOfModel
  end.

(** [delete it[k]]. *)
Definition deleteProp (it : value) (k : key) : result value :=
  match it with
  | VUndefined | VNull => Err TypeError
  | VArray items =>
      match k with
      | KNum n => Ok (VArray (clearSlot n items))
      | _ => Err OutOfModel
      end
  | VObject ps => Ok (VObject (removeProp (propKey k) ps))
  | VString _ => Err OutOfModel
  | VBool _ | VNumber _ | VDate _ | VRegExp _ => Ok it
  end.

(** The state of [it] after the object it holds at [k] was mutated in place
    into [child]: the slot is replaced where it exists, nothing is created. *)
Definition mutatedAt (it : value) (k : key) (child : value) : value :=
  match it with
  | VArray items =>
      match k with
      | KNum n =>
          match nth_error items n with
          | Some (Some _) => VArray (setSlot n child items)
          | _ => it
          end
      | _ => it
      end
  | VObject ps =>
      match lookupProp (propKey k) ps with
      | Some _ => VObject (insertProp (propKey k) child ps)
      | None => it
      end
  | _ => it
  end.

(** [Object.getOwnPropertyDescriptor(o, k)] as a truth value. *)
Definition hasOwnProperty (o : value) (k : key) : bool :=
  match o with
  | VArray items =>
      match k with
      | KNum n =>
          match nth_error items n with
          | Some (Some _) => true
          | _ => false
          end
      | _ => false
      end
  | VObject ps =>
      match lookupProp (propKey k) ps with
      | Some _ => true
      | None => false
      end
  | _ => false
  end.

Definition isStringKey (k : key) : bool :=
  match k with
  | KStr _ => true
  | _ => false
  end.

Definition isSymbolKey (k : key) : bool :=
  match k with
  | KSym _ => true
  | _ => false
  end.

(** [o[k]] for a key [k] that [Object.keys] or
    [Object.getOwnPropertySymbols] listed. *)
Definition ownValue (o : value) (k : key) : value :=
  match o with
  | VObject ps =>
      match lookupProp k ps with
      | Some v => v
      | None => VUndefined
      end
  | _ => VUndefined
  end.

(** [Object.keys(o)]: the own enumerable string keys. *)
Definition objectKeys (o : value) : list key :=
  match o with
  | VObject ps => filter isStringKey (map fst ps)
  | _ => []
  end.

(** [Object.getOwnPropertySymbols(o)]. *)
Definition getOwnPropertySymbols (o : value) : list key :=
  match o with
  | VObject ps => filter isSymbolKey (map fst ps)
  | _ => []
  end.

(** ** utils.js *)

(** [ToInt32]: the wrap of the bitwise operators. *)
Definition toInt32 (z : Z) : Z := ((z + 2 ^ 31) mod 2 ^ 32 - 2 ^ 31)%Z.

Definition charCode (c : ascii) : Z := Z.of_N (N_of_ascii c).

(** The loop of [hashThisString], from a running [hash]:
    [hash = (hash << 5) - hash + char; hash = hash & hash]. *)
Fixpoint hashLoop (hash : Z) (s : string) : Z :=
  match s with
  | EmptyString => hash
  | String c rest =>
      let hash1 := (toInt32 (Z.shiftl (toInt32 hash) 5) - hash + charCode c)%Z in
      hashLoop (toInt32 hash1) rest
  end.

Definition hashThisString (s : string) : Z := hashLoop 0 s.

(** [arr.slice(from)] followed by [push(...rest)]: spreading reads a hole
    as [undefined]. *)
Definition spread (items : list (option value)) : list (option value) :=
  map (fun o => match o with
                | Some v => Some v
                | None => Some VUndefined
                end) items.

(** [arr.length = n]: truncates, or grows the array with holes. *)
Definition setLength (n : nat) (items : list (option value))
  : list (option value) :=
  firstn n items ++ repeat None (n - List.length items).

(** [arrayRemove(arr, from)], called without [to].  With an index [from],
    [(to || from) + 1] is [from + 1]; with [from] undefined the new length
    is not a number.  A receiver without [slice], or with a read-only
    [length], throws. *)
Definition arrayRemove (arr : value) (from : option nat) : result value :=
  match arr with
  | VArray items =>
      match from with
      | Some n =>
          let rest := skipn (n + 1) items in
          Ok (VArray (setLength n items ++ spread rest))
      | None => Err RangeError
      end
  | _ => Err TypeError
  end.

(** [realTypeOf].  The [Math] namespace object is not among the values. *)
Definition realTypeOf (subject : value) : string :=
  let type := typeof subject in
  if negb (String.eqb type "object") then type
  else match subject with
       | VNull => "null"
       | VArray _ => "array"
       | VDate _ => "date"
       | VRegExp _ => "regexp"
       | _ => "object"
       end.

Section Hashing.

(** [Date.prototype.toString] depends on the host's time zone and locale;
    it is a parameter of the development. *)
Variable dateToString : number -> string.

(** The text a template literal gives for a value that is neither an array
    nor a plain object. *)
Definition toStringValue (v : value) : string :=
  match v with
  | VUndefined => "undefined"
  | VNull => "null"
  | VBool true => "true"
  | VBool false => "false"
  | VNumber NaN => "NaN"
  | VNumber (Num z) => numToString z
  | VString s => s
  | VDate t => dateToString t
  | VRegExp text => text
  | VArray _ | VObject _ => ""
  end.

(** [getOrderIndependentHash].  [forEach] skips holes; [for ... in] with
    [hasOwnProperty] visits the own string keys. *)
Fixpoint getOrderIndependentHash (object : value) : Z :=
  match object with
  | VArray items =>
      let accum :=
        fold_left
          (fun accum item =>
             match item with
             | Some v => (accum + getOrderIndependentHash v)%Z
             | None => accum
             end) items 0%Z in
      let arrayString :=
        ("[type: array, hash: " ++ numToString accum ++ "]")%string in
      (accum + hashThisString arrayString)%Z
  | VObject props =>
      fold_left
        (fun accum kv =>
           match fst kv with
           | KStr k =>
               let keyValueString :=
                 ("[ type: object, key: " ++ k ++ ", value hash: "
                  ++ numToString (getOrderIndependentHash (snd kv)) ++ " ]")%string in
               (accum + hashThisString keyValueString)%Z
           | _ => accum
           end) props 0%Z
  | _ =>
      let stringToHash :=
        ("[ type: " ++ realTypeOf object ++ " ; value: "
         ++ toStringValue object ++ " ]")%string in
      (0 + hashThisString stringToHash)%Z
  end.

(** [arr.sort((a, b) => hash(a) - hash(b))]: a stable sort of the present
    elements by ascending hash; [undefined] elements follow, holes come
    last.  [val] reads the value of an element. *)
Fixpoint insertByHash {X : Type} (val : X -> value) (x : X) (l : list X)
  : list X :=
  match l with
  | [] => [x]
  | y :: tl =>
      if (getOrderIndependentHash (val x) <=? getOrderIndependentHash (val y))%Z
      then x :: y :: tl
      else y :: insertByHash val x tl
  end.

Definition isUndefined (v : value) : bool :=
  match v with
  | VUndefined => true
  | _ => false
  end.

Definition sortByHash {X : Type} (val : X -> value) (items : list (option X))
  : list (option X) :=
  let present :=
    flat_map (fun o => match o with
                       | Some x => if isUndefined (val x) then [] else [x]
                       | None => []
                       end) items in
  let undefineds :=
    filter (fun o => match o with
                     | Some x => isUndefined (val x)
                     | None => false
                     end) items in
  let holes :=
    filter (fun o => match o with
                     | Some _ => false
                     | None => true
                     end) items in
  map Some (fold_right (insertByHash val) [] present) ++ undefineds ++ holes.

End Hashing.

(** ** diffs.js: change records *)

(** A change record as the engine reads it: any field may be absent.  An
    absent [lhs] or [rhs] reads as [undefined]. *)
Inductive change : Type := Change {
  kind : option string;
  path : option (list key);
  lhs : value;
  rhs : value;
  index : option nat;
  item : option change }.

Section Diffs.

(** Modelled from the spec: [diffs.js], which defines the four record
    constructors, is not among the sources.  The spec gives a record its
    kind, its path and the fields of its variant.  Whether the constructor
    stores an empty path or leaves the field out is not told apart by the
    spec; both readings are covered by [keepEmptyPath]. *)
Variable keepEmptyPath : bool.

Definition storedPath (path : option (list key)) : option (list key) :=
  match path with
  | Some [] => if keepEmptyPath then Some [] else None
  | _ => path
  end.

Definition DiffEdit (path : option (list key)) (origin value : value) : change :=
  Change (Some "E") (storedPath path) origin value None None.

Definition DiffNew (path : option (list key)) (value : value) : change :=
  Change (Some "N") (storedPath path) VUndefined value None None.

Definition DiffDeleted (path : option (list key)) (value : value) : change :=
  Change (Some "D") (storedPath path) value VUndefined None None.

Definition DiffArray (path : option (list key)) (index : nat) (item : change)
  : change :=
  Change (Some "A") (storedPath path) VUndefined VUndefined (Some index) (Some item).

End Diffs.

(** ** deepDiff.js: the recursive walk *)

(** A frame [{ lhs, rhs }] of the traversal stack. *)
Definition frame : Type := (value * value)%type.

(** What one call of the walk leaves behind: the records it pushed, in
    emission order, and the state of [lhs] and of [rhs] afterwards (the walk
    sorts arrays in place when asked to be order independent). *)
Definition walked : Type := (list change * value * value)%type.

(** The call [deepDiff(lhs, rhs, changes, prefilter, path, key, stack,
    orderIndependent)] for a fixed [lhs], [prefilter] and
    [orderIndependent]. *)
Definition walk : Type :=
  value -> list key -> option key -> list frame -> walked.

(** The [prefilter] option: a function, or an object holding one.  The
    [normalize] hook of the object form is not embedded. *)
Inductive prefilterOption : Type :=
| PrefilterFunction (f : list key -> key -> bool)
| PrefilterObject (prefilter : option (list key -> key -> bool)).

(** The children of [lhs], each with the walk that descends into it. *)
Inductive children : Type :=
| NoChildren
| Items (kids : list (option (value * walk)))
| Props (kids : list (key * (value * walk))).

(** [pkeys.indexOf(k)]. *)
Fixpoint indexOf (k : key) (pkeys : list (option key)) : option nat :=
  match pkeys with
  | [] => None
  | o :: tl =>
      match o with
      | Some k' => if key_eqb k k' then Some O else option_map S (indexOf k tl)
      | None => option_map S (indexOf k tl)
      end
  end.

(** [pkeys[n] = null]. *)
Fixpoint nullAt (n : nat) (pkeys : list (option key)) : list (option key) :=
  match n, pkeys with
  | _, [] => []
  | O, _ :: tl => None :: tl
  | S n', o :: tl => o :: nullAt n' tl
  end.

(** [if (k)] on an entry of [pkeys]: [null] and the empty string are falsy. *)
Definition truthyKey (o : option key) : bool :=
  match o with
  | None => false
  | Some (KStr s) => negb (String.eqb s "")
  | Some _ => true
  end.

(** [lhs - rhs !== 0] on the time values of two dates. *)
Definition timesDiffer (a b : value) : bool :=
  match a, b with
  | VDate (Num x), VDate (Num y) => negb (Z.eqb (x - y) 0)
  | _, _ => true
  end.

Definition itemsOf (v : value) : list (option value) :=
  match v with
  | VArray items => items
  | _ => []
  end.

Definition isNumberKey (k : key) : bool :=
  match k with
  | KNum _ => true
  | _ => false
  end.

Section DeepDiff.

Variable dateToString : number -> string.
Variable keepEmptyPath : bool.

Variable prefilter : option prefilterOption.
Variable orderIndependent : bool.

Local Abbreviation DiffEdit := (DiffEdit keepEmptyPath).
Local Abbreviation DiffNew := (DiffNew keepEmptyPath).
Local Abbreviation DiffDeleted := (DiffDeleted keepEmptyPath).
Local Abbreviation DiffArray := (DiffArray keepEmptyPath).

(** Lines 22-43: the prefilter test, asked with the path before [key] is
    pushed onto it. *)
Definition filteredOut (currentPath : list key) (key : option key) : bool :=
  match key, prefilter with
  | Some k, Some (PrefilterFunction f) => f currentPath k
  | Some k, Some (PrefilterObject (Some f)) => f currentPath k
  | _, _ => false
  end.

(** Lines 55-67: a side is defined when it is not [undefined] or when the
    parent on top of the stack owns [key]. *)
Definition definedAt (type : string) (parent : option value) (key : option key)
  : bool :=
  negb (String.eqb type "undefined")
  || match parent with
     | Some p =>
         truthy p
         && hasOwnProperty p (match key with
                              | Some k => k
                              | None => KStr "null"
                              end)
     | None => false
     end.

(** Lines 94-107, for arrays already sorted where that was asked.  [kids]
    holds the elements of [lhs1] with their walks. *)
Definition arrayWalk (unit_walk : walk)
           (kids : list (option (value * walk))) (lhs1 rhs1 : value)
           (currentPath : list key) (stack : list frame) : walked :=
  let i := List.length (itemsOf rhs1) in
  let j := List.length kids in
  let news :=
    map (fun i => DiffArray (Some currentPath) i
                    (DiffNew None (nthSlot (itemsOf rhs1) i)))
        (rev (seq j (i - j))) in
  let deleteds :=
    map (fun j => DiffArray (Some currentPath) j
                    (DiffDeleted None (nthSlot (itemsOf lhs1) j)))
        (rev (seq i (j - i))) in
  fold_left
    (fun (acc : walked) (i : nat) =>
       let '(changes, lhs2, rhs2) := acc in
       let descend :=
         match nth_error kids i with
         | Some (Some (_, w)) => w
         | _ => unit_walk
         end in
       let '(pushed, l, r) :=
         descend (nthSlot (itemsOf rhs2) i) currentPath (Some (KNum i)) stack in
       (changes ++ pushed, mutatedAt lhs2 (KNum i) l, mutatedAt rhs2 (KNum i) r))
    (rev (seq 0 (Nat.min i j)))
    (news ++ deleteds, lhs1, rhs1).

(** Lines 109-131: the two loops over the keys of a mapping. *)
Definition mappingWalk (unit_walk : walk)
           (kids : list (key * (value * walk))) (lhs rhs : value)
           (currentPath : list key) (stack : list frame) : walked :=
  let akeys :=
    filter (fun kid => isStringKey (fst kid)) kids
    ++ filter (fun kid => isSymbolKey (fst kid)) kids in
  let pkeys := map Some (objectKeys rhs ++ getOwnPropertySymbols rhs) in
  let '(acc, pkeys1) :=
    fold_left
      (fun (st : walked * list (option key)) (kid : key * (value * walk)) =>
         let '((changes, lhs2, rhs2), pkeys) := st in
         let k := fst kid in
         let w := snd (snd kid) in
         match indexOf k pkeys with
         | Some other =>
             let '(pushed, l, r) :=
               w (ownValue rhs2 k) currentPath (Some k) stack in
             ((changes ++ pushed, mutatedAt lhs2 k l, mutatedAt rhs2 k r),
              nullAt other pkeys)
         | None =>
             let '(pushed, l, _) := w VUndefined currentPath (Some k) stack in
             ((changes ++ pushed, mutatedAt lhs2 k l, rhs2), pkeys)
         end)
      akeys (([], lhs, rhs), pkeys) in
  fold_left
    (fun (acc : walked) (o : option key) =>
       let '(changes, lhs2, rhs2) := acc in
       if truthyKey o then
         match o with
         | Some k =>
             let '(pushed, _, r) :=
               unit_walk (ownValue rhs2 k) currentPath (Some k) stack in
             (changes ++ pushed, lhs2, mutatedAt rhs2 k r)
         | None => acc
         end
       else acc)
    pkeys1 acc.

(** The body of [deepDiff] (lines 15-143).  [kids] are the children of
    [lhs] with the walks into them; [unit_walk] is the walk whose [lhs] is
    [undefined].  The scan of the stack for [lhs] itself (lines 78-83)
    never finds it: a value of the tree model is not one of its own
    ancestors, so [other] stays unset and the descent of lines 86-134 is
    always taken. *)
Definition deepDiffBody (unit_walk : walk) (kids : children)
           (lhs rhs : value) (path : list key) (key : option key)
           (stack : list frame) : walked :=
  if filteredOut path key then ([], lhs, rhs)
  else
    let currentPath :=
      match key with
      | Some k => path ++ [k]
      | None => path
      end in
    let bothRegexp :=
      String.eqb (realTypeOf lhs) "regexp" && String.eqb (realTypeOf rhs) "regexp" in
    let lhs0 := if bothRegexp then VString (toStringValue dateToString lhs) else lhs in
    let rhs0 := if bothRegexp then VString (toStringValue dateToString rhs) else rhs in
    let ltype := typeof lhs0 in
    let rtype := typeof rhs0 in
    let ldefined := definedAt ltype (option_map fst (hd_error stack)) key in
    let rdefined := definedAt rtype (option_map snd (hd_error stack)) key in
    if negb ldefined && rdefined then
      ([DiffNew (Some currentPath) rhs0], lhs, rhs)
    else if negb rdefined && ldefined then
      ([DiffDeleted (Some currentPath) lhs0], lhs, rhs)
    else if negb (String.eqb (realTypeOf lhs0) (realTypeOf rhs0)) then
      ([DiffEdit (Some currentPath) lhs0 rhs0], lhs, rhs)
    else if String.eqb (realTypeOf lhs0) "date" && timesDiffer lhs0 rhs0 then
      ([DiffEdit (Some currentPath) lhs0 rhs0], lhs, rhs)
    else if String.eqb ltype "object"
            && negb (strictEq lhs0 VNull) && negb (strictEq rhs0 VNull) then
      if isArray lhs0 then
        let kids0 := match kids with
                     | Items ks => ks
                     | _ => []
                     end in
        let kids1 := if orderIndependent
                     then sortByHash dateToString fst kids0 else kids0 in
        let lhs1 := if orderIndependent
                    then VArray (map (option_map fst) kids1) else lhs0 in
        let rhs1 := if orderIndependent
                    then VArray (sortByHash dateToString (fun v => v) (itemsOf rhs0))
                    else rhs0 in
        arrayWalk unit_walk kids1 lhs1 rhs1 currentPath ((lhs1, rhs1) :: stack)
      else
        let kids0 := match kids with
                     | Props ks => ks
                     | _ => []
                     end in
        mappingWalk unit_walk kids0 lhs0 rhs0 currentPath ((lhs0, rhs0) :: stack)
    else if negb (strictEq lhs0 rhs0) then
      if negb (String.eqb ltype "number" && isNaN lhs0 && isNaN rhs0) then
        ([DiffEdit (Some currentPath) lhs0 rhs0], lhs, rhs)
      else ([], lhs, rhs)
    else ([], lhs, rhs).

(** A walk that is never entered: the body reaches for children only when
    [lhs] is an object, and [undefined] has none. *)
Definition noWalk : walk := fun rhs _ _ _ => ([], VUndefined, rhs).

(** [deepDiff(undefined, rhs, ...)]. *)
Definition deepDiffUndefined : walk :=
  deepDiffBody noWalk NoChildren VUndefined.

(** [deepDiff]. *)
Fixpoint deepDiff (lhs : value) : walk :=
  deepDiffBody deepDiffUndefined
    (match lhs with
     | VArray items =>
         Items (map (option_map (fun v => (v, deepDiff v))) items)
     | VObject props =>
         Props (map (fun kv => (fst kv, (snd kv, deepDiff (snd kv)))) props)
     | _ => NoChildren
     end) lhs.

End DeepDiff.

(** ** deepDiff.js: the entry points *)

Section Entry.

Variable dateToString : number -> string.
Variable keepEmptyPath : bool.

(** What a call of [observableDiff] leaves behind: the returned changes,
    the state the observer reached, and the two inputs afterwards. *)
Record observed (S : Type) : Type := Observed {
  changes : list change;
  observerState : S;
  lhsAfter : value;
  rhsAfter : value }.

Arguments Observed {S}.
Arguments changes {S}.
Arguments observerState {S}.
Arguments lhsAfter {S}.
Arguments rhsAfter {S}.

(** [observableDiff(lhs, rhs, observer, { prefilter, orderIndependent })].
    The observer is a callback acting on a state of its own. *)
Definition observableDiff {S : Type} (lhs rhs : value)
           (observer : option (change -> S -> S)) (state : S)
           (prefilter : option prefilterOption) (orderIndependent : bool)
  : observed S :=
  let '(changes, lhs1, rhs1) :=
    deepDiff dateToString keepEmptyPath prefilter orderIndependent
             lhs rhs [] None [] in
  let state1 :=
    match observer with
    | Some f => fold_left (fun st c => f c st) changes state
    | None => state
    end in
  Observed changes state1 lhs1 rhs1.

(** A value of the [options] object of [diff]. *)
Inductive optionValue : Type :=
| OptPrefilter (p : prefilterOption)
| OptAccumulator (contents : list change)
| OptFlag (b : bool).

(** The [options] object: its keys with their values. *)
Definition options : Type := list (string * optionValue).

Fixpoint optionNamed (name : string) (opts : options) : option optionValue :=
  match opts with
  | [] => None
  | (n, v) :: tl => if String.eqb name n then Some v else optionNamed name tl
  end.

(** What [diff] returns. *)
Inductive diffReturn : Type :=
| ReturnsAccumulator (contents : list change)
| ReturnsChanges (changes : list change)
| ReturnsUndefined.

(** [diff(lhs, rhs, options)], with the inputs afterwards.  The
    destructuring of line 181 reads the keys [prefilter], [accummulator]
    and [orderIndependent].  An option that holds a value of another kind
    than the one its key is documented with is read as absent (as set, for
    the flag). *)
Definition diff (lhs rhs : value) (opts : options)
  : diffReturn * value * value :=
  let prefilter :=
    match optionNamed "prefilter" opts with
    | Some (OptPrefilter p) => Some p
    | _ => None
    end in
  let accummulator :=
    match optionNamed "accummulator" opts with
    | Some (OptAccumulator contents) => Some contents
    | _ => None
    end in
  let orderIndependent :=
    match optionNamed "orderIndependent" opts with
    | Some (OptFlag b) => b
    | Some _ => true
    | None => false
    end in
  let observer :=
    match accummulator with
    | Some _ => Some (fun (difference : change) (acc : list change) =>
                        acc ++ [difference])
    | None => None
    end in
  let o :=
    observableDiff lhs rhs observer
      (match accummulator with
       | Some contents => contents
       | None => []
       end) prefilter orderIndependent in
  (match accummulator with
   | Some _ => ReturnsAccumulator (observerState o)
   | None =>
       match changes o with
       | [] => ReturnsUndefined
       | _ => ReturnsChanges (changes o)
       end
   end, lhsAfter o, rhsAfter o).

End Entry.

Arguments Observed {S}.
Arguments changes {S}.
Arguments observerState {S}.
Arguments lhsAfter {S}.
Arguments rhsAfter {S}.

(** ** The apply/revert engine *)

(** [arr[index]] reads the property an absent index names. *)
Definition indexKey (index : option nat) : key :=
  match index with
  | Some n => KNum n
  | None => KStr "undefined"
  end.

(** The loop [for (let i = 0; i < u; i++) it = it[change.path[i]]] of the
    array helpers followed by the switch on the last key: [path] is not
    empty, [terminal it k] is the switch at [it] with [k = change.path[u]].
    The result is [it] after the mutation below it. *)
Fixpoint descend (it : value) (path : list key)
         (terminal : value -> key -> result value) : result value :=
  match path with
  | [] => Ok it
  | k :: rest =>
      match rest with
      | [] => terminal it k
      | _ :: _ =>
          child <- getProp it k ;;
          child' <- descend child rest terminal ;;
          Ok (mutatedAt it k child')
      end
  end.

Definition kindIs (c : change) (k : string) : bool :=
  match kind c with
  | Some s => String.eqb s k
  | None => false
  end.

Definition pathLength (c : change) : nat :=
  match path c with
  | Some p => List.length p
  | None => 0
  end.

(** [applyArrayChange(arr, index, change)], its [index] named [at_index]
    here; the result is [arr] afterwards.  An absent [change] has no [path]
    to read. *)
Fixpoint applyArrayChange (arr : value) (at_index : option nat) (c : change)
  : result value :=
  let nested (sub : value) : result value :=
    match item c with
    | Some c' => applyArrayChange sub (index c) c'
    | None => Err TypeError
    end in
  match path c with
  | Some (k :: rest) =>
      it <- getProp arr (indexKey at_index) ;;
      it' <- descend it (k :: rest)
               (fun it key =>
                  if kindIs c "A" then
                    sub <- getProp it key ;;
                    sub' <- nested sub ;;
                    Ok (mutatedAt it key sub')
                  else if kindIs c "D" then deleteProp it key
                  else if kindIs c "E" || kindIs c "N" then setProp it key (rhs c)
                  else Ok it) ;;
      Ok (mutatedAt arr (indexKey at_index) it')
  | _ =>
      if kindIs c "A" then
        sub <- getProp arr (indexKey at_index) ;;
        sub' <- nested sub ;;
        Ok (mutatedAt arr (indexKey at_index) sub')
      else if kindIs c "D" then arrayRemove arr at_index
      else if kindIs c "E" || kindIs c "N" then
        setProp arr (indexKey at_index) (rhs c)
      else Ok arr
  end.

(** [revertArrayChange(arr, index, change)]. *)
Fixpoint revertArrayChange (arr : value) (at_index : option nat) (c : change)
  : result value :=
  let nested (sub : value) : result value :=
    match item c with
    | Some c' => revertArrayChange sub (index c) c'
    | None => Err TypeError
    end in
  match path c with
  | Some (k :: rest) =>
      it <- getProp arr (indexKey at_index) ;;
      it' <- descend it (k :: rest)
               (fun it key =>
                  if kindIs c "A" then
                    sub <- getProp it key ;;
                    sub' <- nested sub ;;
                    Ok (mutatedAt it key sub')
                  else if kindIs c "D" then setProp it key (lhs c)
                  else if kindIs c "E" then setProp it key (lhs c)
                  else if kindIs c "N" then deleteProp it key
                  else Ok it) ;;
      Ok (mutatedAt arr (indexKey at_index) it')
  | _ =>
      if kindIs c "A" then
        sub <- getProp arr (indexKey at_index) ;;
        sub' <- nested sub ;;
        Ok (mutatedAt arr (indexKey at_index) sub')
      else if kindIs c "D" then setProp arr (indexKey at_index) (lhs c)
      else if kindIs c "E" then setProp arr (indexKey at_index) (lhs c)
      else if kindIs c "N" then arrayRemove arr at_index
      else Ok arr
  end.

(** An argument of [applyChange] or [revertChange] in the [source]
    position: nothing, a change record, or some other value. *)
Inductive argument : Type :=
| ArgUndefined
| ArgChange (c : change)
| ArgValue (v : value).

Definition truthyArgument (a : argument) : bool :=
  match a with
  | ArgUndefined => false
  | ArgChange _ => true
  | ArgValue v => truthy v
  end.

(** [validKinds.includes(kind)]. *)
Definition validKind (kind : option string) : bool :=
  match kind with
  | Some s => existsb (String.eqb s) ["N"; "E"; "A"; "D"]
  | None => false
  end.

(** [change.kind] as a truth value. *)
Definition truthyKind (kind : option string) : bool :=
  match kind with
  | Some s => negb (String.eqb s "")
  | None => false
  end.

(** [v.kind] of a value that is no change record. *)
Definition kindOfValue (v : value) : option string :=
  match v with
  | VObject ps =>
      match lookupProp (KStr "kind") ps with
      | Some (VString s) => Some s
      | _ => None
      end
  | _ => None
  end.

(** Lines 317-324 of [applyChange] followed by the switch: the walk creates
    the missing intermediates, an array when the next key is a number.
    [terminal it k] is the switch with [k = change.path[i]]; with an empty
    path that key is [undefined]. *)
Fixpoint applyWalk (it : value) (path : list key)
         (terminal : value -> key -> result value) : result value :=
  match path with
  | [] => terminal it (KStr "undefined")
  | k :: rest =>
      match rest with
      | [] => terminal it k
      | next :: _ =>
          cur <- getProp it k ;;
          it1 <- (if String.eqb (typeof cur) "undefined"
                  then setProp it k (if isNumberKey next then VArray [] else VObject [])
                  else Ok it) ;;
          child <- getProp it1 k ;;
          child' <- applyWalk child rest terminal ;;
          Ok (mutatedAt it1 k child')
      end
  end.

(** The switch of [applyChange] at [it] when the record has a path. *)
Definition applyTerminal (c : change) (it : value) (k : key) : result value :=
  if kindIs c "A" then
    cur <- getProp it k ;;
    it1 <- (if String.eqb (typeof cur) "undefined"
            then setProp it k (VArray []) else Ok it) ;;
    arr <- getProp it1 k ;;
    arr' <- match item c with
            | Some c' => applyArrayChange arr (index c) c'
            | None => Err TypeError
            end ;;
    Ok (mutatedAt it1 k arr')
  else if kindIs c "D" then deleteProp it k
  else if kindIs c "E" || kindIs c "N" then setProp it k (rhs c)
  else Ok it.

(** Lines 311-342 of [applyChange], for the record [c] that line 307-309
    settled on. *)
Definition applyRecord (target : value) (c : change) : result value :=
  if truthy target && truthyKind (kind c) then
    match path c with
    | Some p => applyWalk target p (applyTerminal c)
    | None =>
        if kindIs c "A" then
          match item c with
          | Some c' => applyArrayChange target (index c) c'
          | None => Err TypeError
          end
        else if kindIs c "D" || kindIs c "E" || kindIs c "N" then Err TypeError
        else Ok target
    end
  else Ok target.

(** [applyChange(target, source, change)]; the result is [target]
    afterwards.  A value in the [source] position that is no change record
    and yet carries a valid [kind] is taken for the record when [change] is
    undefined: replaying it is outside the model. *)
Definition applyChange (target : value) (source : argument)
           (change : option change) : result value :=
  match change with
  | Some c => applyRecord target c
  | None =>
      match source with
      | ArgChange c => if validKind (kind c) then applyRecord target c else Ok target
      | ArgValue v =>
          if truthy v && validKind (kindOfValue v) && truthy target
          then Err OutOfModel else Ok target
      | ArgUndefined => Ok target
      end
  end.

(** Lines 376-382 of [revertChange] followed by the switch: the walk creates
    missing intermediates as objects. *)
Fixpoint revertWalk (it : value) (path : list key)
         (terminal : value -> key -> result value) : result value :=
  match path with
  | [] => terminal it (KStr "undefined")
  | k :: rest =>
      match rest with
      | [] => terminal it k
      | _ :: _ =>
          cur <- getProp it k ;;
          it1 <- (if String.eqb (typeof cur) "undefined"
                  then setProp it k (VObject []) else Ok it) ;;
          child <- getProp it1 k ;;
          child' <- revertWalk child rest terminal ;;
          Ok (mutatedAt it1 k child')
      end
  end.

(** The switch of [revertChange] at [it]. *)
Definition revertTerminal (c : change) (it : value) (k : key) : result value :=
  if kindIs c "A" then
    arr <- getProp it k ;;
    arr' <- match item c with
            | Some c' => revertArrayChange arr (index c) c'
            | None => Err TypeError
            end ;;
    Ok (mutatedAt it k arr')
  else if kindIs c "D" then setProp it k (lhs c)
  else if kindIs c "E" then setProp it k (lhs c)
  else if kindIs c "N" then deleteProp it k
  else Ok it.

(** [revertChange(target, source, change)]; the result is [target]
    afterwards.  [change.path.length] throws when the record has no path. *)
Definition revertChange (target : value) (source : argument)
           (change : option change) : result value :=
  match change with
  | Some c =>
      if truthy target && truthyArgument source && truthyKind (kind c) then
        match path c with
        | Some p => revertWalk target p (revertTerminal c)
        | None => Err TypeError
        end
      else Ok target
  | None => Ok target
  end.

(** Applying, and reverting, a list of records in order against one target,
    as a caller of the engine replays them. *)
Definition applyChanges (source : argument) (target : value) (cs : list change)
  : result value :=
  fold_left (fun t c => t' <- t ;; applyChange t' source (Some c)) cs (Ok target).

Definition revertChanges (source : argument) (target : value) (cs : list change)
  : result value :=
  fold_left (fun t c => t' <- t ;; revertChange t' source (Some c)) cs (Ok target).

(** ** applyDiff, and arrayRemove with all its arguments *)

(** [arr.slice(start)]: a negative [start] counts from the end. *)
Definition sliceFrom (start : Z) (items : list (option value))
  : list (option value) :=
  let len := Z.of_nat (List.length items) in
  let k := if (start <? 0)%Z then Z.max (len + start) 0 else Z.min start len in
  skipn (Z.to_nat k) items.

(** [arrayRemove(arr, from, to)] in full, for integers [from] and [to].
    [to || from] reads an absent [to], and a [to] of 0, as [from];
    [(to || from) + 1 || arr.length] reads a sum of 0 as the length.  The
    assignment to [arr.length] throws a RangeError unless the new length is
    an array length, and so does [push] when the elements it appends take
    the length past the largest one. *)
Definition arrayRemoveRange (arr : value) (from : Z) (to : option Z)
  : result value :=
  match arr with
  | VArray items =>
      let len := Z.of_nat (List.length items) in
      let upto := match to with
                  | Some t => if (t =? 0)%Z then from else t
                  | None => from
                  end in
      let rest :=
        sliceFrom (if (upto + 1 =? 0)%Z then len else (upto + 1)%Z) items in
      let newLength := if (from <? 0)%Z then (len + from)%Z else from in
      if (newLength <? 0)%Z || (2 ^ 32 <=? newLength)%Z then Err RangeError
      else if (2 ^ 32 <=? newLength + Z.of_nat (List.length rest))%Z
           then Err RangeError
           else Ok (VArray (setLength (Z.to_nat newLength) items ++ spread rest))
  | _ => Err TypeError
  end.

(** [applyDiff(target, source, filter)]; the result is [target] afterwards.
    [observableDiff] collects the records of the walk from [target] to
    [source] and then hands them to [onChange] one by one: the filter sees
    [target] as the records before have left it.  The filter is a
    predicate; a record it turns down is skipped. *)
Definition applyDiff (dateToString : number -> string) (keepEmptyPath : bool)
           (target source : value)
           (filter : option (value -> value -> change -> bool)) : result value :=
  if truthy target && truthy source then
    observerState
      (observableDiff dateToString keepEmptyPath target source
         (Some (fun (change : change) (st : result value) =>
                  t <- st ;;
                  if match filter with
                     | Some f => f t source change
                     | None => true
                     end
                  then applyChange t (ArgValue source) (Some change)
                  else Ok t))
         (Ok target) None false)
  else Ok target.

(** * Vocabulary of the properties *)

(** The array of the numbers [zs]. *)
Definition numbers (zs : list Z) : value :=
  VArray (map (fun z => Some (VNumber (Num z))) zs).

(** The value a path leads to from [v]. *)
Fixpoint getPath (v : value) (p : list key) : result value :=
  match p with
  | [] => Ok v
  | k :: rest => child <- getProp v k ;; getPath child rest
  end.

(** One sequence or mapping with its siblings in another order. *)
Inductive reordered : value -> value -> Prop :=
| reordered_array (items items' : list (option value)) :
    Permutation items items' -> reordered (VArray items) (VArray items')
| reordered_object (props props' : list (key * value)) :
    Permutation props props' -> reordered (VObject props) (VObject props').

(** The keys of an object are distinct. *)
Fixpoint keysDistinct (ks : list key) : bool :=
  match ks with
  | [] => true
  | k :: tl => negb (existsb (key_eqb k) tl) && keysDistinct tl
  end.

(** The values JavaScript can build: the keys of an object are distinct
    strings and symbols (a number used as a key is its decimal string). *)
Fixpoint wellFormed (v : value) : bool :=
  match v with
  | VArray items =>
      forallb (fun o => match o with
                        | Some x => wellFormed x
                        | None => true
                        end) items
  | VObject props =>
      keysDistinct (map fst props)
      && forallb (fun kv => negb (isNumberKey (fst kv)) && wellFormed (snd kv)) props
  | _ => true
  end.

(** A walk that hands back [v] and its right-hand side untouched. *)
Definition pureWalk (v : value) (w : walk) : Prop :=
  forall rhs p k s, snd (fst (w rhs p k s)) = v /\ snd (w rhs p k s) = rhs.

(** No key of [pkeys] is a number. *)
Definition plainKeys (pkeys : list (option key)) : Prop :=
  Forall (fun o => forall k, o = Some k -> isNumberKey k = false) pkeys.

(** The walk into slot [i] of an array whose elements are walked by [W]. *)
Definition slotWalk (unit_walk : walk) (W : value -> walk)
           (items : list (option value)) (i : nat) : walk :=
  match nth_error items i with
  | Some (Some v) => W v
  | _ => unit_walk
  end.

(** [ks.indexOf(k) !== -1]. *)
Definition memKey (k : key) (ks : list key) : bool := existsb (key_eqb k) ks.

(** The keys of the right-hand side not yet paired with a key of the left:
    [pkeys] after the entries of [done] were set to [null]. *)
Definition maskKeys (done ks : list key) : list (option key) :=
  map (fun k => if memKey k done then None else Some k) ks.

(** Own keys in the order the walk enumerates them: strings, then symbols. *)
Definition enumerated {X : Type} (kids : list (key * X)) : list (key * X) :=
  filter (fun kid => isStringKey (fst kid)) kids
  ++ filter (fun kid => isSymbolKey (fst kid)) kids.

(** The keys the walk collects from an object, lines 109-110. *)
Definition ownKeys (v : value) : list key :=
  objectKeys v ++ getOwnPropertySymbols v.

(** A key of the right-hand side the second loop walks: truthy and not
    paired with a key of the left. *)
Definition unpaired (lkeys : list key) (k : key) : bool :=
  truthyKey (Some k) && negb (memKey k lkeys).

(** The records of a walk without prefilter and without sorting. *)
Definition changesOf (dateToString : number -> string) (keepEmptyPath : bool)
           (l r : value) (p : list key) (k : option key)
           (stack : list frame) : list change :=
  fst (fst (deepDiff dateToString keepEmptyPath None false l r p k stack)).

(** The records of the walk of line 130, whose left-hand side is
    [undefined]. *)
Definition changesOfUndefined (dateToString : number -> string)
           (keepEmptyPath : bool) (r : value) (p : list key) (k : option key)
           (stack : list frame) : list change :=
  fst (fst (deepDiffUndefined dateToString keepEmptyPath None false r p k stack)).

(** [currentPath] once the key, if there is one, is pushed (line 42). *)
Definition pathWith (p : list key) (k : option key) : list key :=
  match k with
  | Some k => p ++ [k]
  | None => p
  end.

(** Whether the walk reports an edit for two defined values that it does
    not descend into. *)
Definition edited (l r : value) : bool :=
  negb (String.eqb (realTypeOf l) (realTypeOf r))
  || (String.eqb (realTypeOf l) "date" && timesDiffer l r)
  || (negb (String.eqb (typeof l) "object" && negb (strictEq l VNull)
            && negb (strictEq r VNull))
      && negb (strictEq l r)
      && negb (String.eqb (typeof l) "number" && isNaN l && isNaN r)).

(** Mappings, and regular expressions. *)
Definition isObject (v : value) : bool :=
  match v with
  | VObject _ => true
  | _ => false
  end.

Definition isRegExp (v : value) : bool :=
  match v with
  | VRegExp _ => true
  | _ => false
  end.

(** Plain values: well formed, no hole in an array, no regular expression
    and no date whose time value is NaN. *)
Fixpoint plain (v : value) : bool :=
  match v with
  | VDate NaN => false
  | VRegExp _ => false
  | VArray items =>
      forallb (fun o => match o with
                        | Some x => plain x
                        | None => false
                        end) items
  | VObject props =>
      keysDistinct (map fst props)
      && forallb (fun kv => negb (isNumberKey (fst kv)) && plain (snd kv)) props
  | _ => true
  end.

(** [agree x y]: [x] is [y] as far as the walk can tell.  Arrays agree slot
    by slot; objects agree when every key of [x] is a key of [y] with
    agreeing values and every truthy key of [y] is a key of [x]; other
    values agree when they are equal. *)
Fixpoint agree (x y : value) : Prop :=
  match x with
  | VArray xs =>
      match y with
      | VArray ys =>
          (fix items (xs ys : list (option value)) {struct xs} : Prop :=
             match xs, ys with
             | [], [] => True
             | Some a :: xs', Some b :: ys' => agree a b /\ items xs' ys'
             | _, _ => False
             end) xs ys
      | _ => False
      end
  | VObject xps =>
      match y with
      | VObject yps =>
          NoDup (map fst xps)
          /\ (fix props (ps : list (key * value)) : Prop :=
                match ps with
                | [] => True
                | kv :: ps' =>
                    (isNumberKey (fst kv) = false
                     /\ exists b, lookupProp (fst kv) yps = Some b /\ agree (snd kv) b)
                    /\ props ps'
                end) xps
          /\ (forall k, truthyKey (Some k) = true -> isNumberKey k = false ->
                        lookupProp k yps <> None -> lookupProp k xps <> None)
      | _ => False
      end
  | VDate NaN => False
  | VRegExp _ => False
  | _ => x = y
  end.

(** [applyChange] and [revertChange] on a record with a path, entered at
    depth [n] of the path with [it] the object reached there. *)
Definition applyBelow (n : nat) (it : value) (c : change) : result value :=
  match path c with
  | Some p => applyWalk it (skipn n p) (applyTerminal c)
  | None => Err TypeError
  end.

(** The same for [revertChange]. *)
Definition revertBelow (n : nat) (it : value) (c : change) : result value :=
  match path c with
  | Some p => revertWalk it (skipn n p) (revertTerminal c)
  | None => Err TypeError
  end.

(** Replaying records in order with [op]. *)
Definition replay (op : value -> change -> result value) (it : value)
           (cs : list change) : result value :=
  fold_left (fun t c => t' <- t ;; op t' c) cs (Ok it).

(** The container [C] owns the slot [k] and holds [v] there. *)
Definition holds (C : value) (k : key) (v : value) : Prop :=
  match C with
  | VArray items =>
      match k with
      | KNum i => nth_error items i = Some (Some v)
      | _ => False
      end
  | VObject ps => isNumberKey k = false /\ lookupProp k ps = Some v
  | _ => False
  end.

(** Arrays and objects: the values a path can pass through. *)
Definition isContainer (v : value) : bool :=
  match v with
  | VArray _ | VObject _ => true
  | _ => false
  end.

(** Records whose paths pass through the slot [k] below the prefix [p]. *)
Definition below (p : list key) (k : key) (cs : list change) : Prop :=
  Forall (fun c => exists k' q, path c = Some (p ++ k :: k' :: q)) cs.

(** Every record of [cs] is of a valid kind and lies at or below the slot
    [k] under the prefix [p]. *)
Definition emitted (p : list key) (k : key) (cs : list change) : Prop :=
  Forall (fun c => validKind (kind c) = true
                   /\ exists q, path c = Some (p ++ k :: q)) cs.

(** The records [cs] take the slot [k], holding [l], to a value [t] that
    agrees with [r]; reverted in the same order they take [t] to a value
    [l'] that agrees with [l]. *)
Definition replays (cs : list change) (p : list key) (k : key)
           (l r t l' : value) : Prop :=
  agree t r /\ agree l' l
  /\ emitted p k cs
  /\ (forall C, holds C k l ->
                replay (applyBelow (List.length p)) C cs = Ok (mutatedAt C k t))
  /\ (forall C, holds C k t ->
                replay (revertBelow (List.length p)) C cs = Ok (mutatedAt C k l')).

(** The statement proved of every slot by induction on the value it holds. *)
Definition slotRoundTrips (dateToString : number -> string) (keepEmptyPath : bool)
           (x : value) : Prop :=
  forall r p k stack,
    plain r = true ->
    definedAt (typeof x) (option_map fst (hd_error stack)) (Some k)
    = definedAt (typeof r) (option_map snd (hd_error stack)) (Some k) ->
    exists t l',
      replays (changesOf dateToString keepEmptyPath x r p (Some k) stack)
              p k x r t l'.

(** A property written ([Some v]) or deleted ([None]). *)
Definition putProp (k : key) (o : option value) (ps : list (key * value))
  : list (key * value) :=
  match o with
  | Some v => insertProp k v ps
  | None => removeProp k ps
  end.

(** The properties [keys] written or deleted as the table [out] says. *)
Definition putProps (out : key -> option value) (keys : list key)
           (ps : list (key * value)) : list (key * value) :=
  fold_left (fun ps k => putProp k (out k) ps) keys ps.

(** The same on an object. *)
Definition putAt (out : key -> option value) (k : key) (A : value) : value :=
  match A with
  | VObject ps => VObject (putProp k (out k) ps)
  | _ => A
  end.

(** Equality of keys is decidable. *)
Definition key_eq_dec (a b : key) : {a = b} + {a <> b}.
Proof.
  decide equality; [apply string_dec | apply Nat.eq_dec | apply Nat.eq_dec].
Defined.

(** The records [cs], replayed on [l] itself below the prefix [cp], give a
    value [t] that agrees with [r]; reverted on [t] they give a value [l']
    that agrees with [l]. *)
Definition roundTripsAt (cs : list change) (cp : list key) (l r t l' : value) : Prop :=
  agree t r /\ agree l' l
  /\ Forall (fun c => validKind (kind c) = true
                      /\ exists k q, path c = Some (cp ++ k :: q)) cs
  /\ replay (applyBelow (List.length cp)) l cs = Ok t
  /\ replay (revertBelow (List.length cp)) t cs = Ok l'.

(** What the applied records leave at a key: [keys1] are the keys of the
    left-hand side, [keys2] those the right-hand side adds. *)
Definition applied (keys1 keys2 : list key) (rps : list (key * value))
           (F : key -> value * value) (k : key) : option value :=
  if memKey k keys1
  then match lookupProp k rps with
       | Some _ => Some (fst (F k))
       | None => None
       end
  else if memKey k keys2 then lookupProp k rps else None.

(** What the reverted records leave at a key. *)
Definition reverted (keys1 : list key) (lps rps : list (key * value))
           (F : key -> value * value) (k : key) : option value :=
  if memKey k keys1
  then match lookupProp k rps with
       | Some _ => Some (snd (F k))
       | None => lookupProp k lps
       end
  else None.

(** Records of valid kinds whose paths are not empty. *)
Definition rooted (cs : list change) : Prop :=
  Forall (fun c => validKind (kind c) = true
                   /\ exists k q, path c = Some (k :: q)) cs.

(** Two mappings, or two sequences of one length. *)
Definition sameShape (l r : value) : bool :=
  match l, r with
  | VObject _, VObject _ => true
  | VArray ls, VArray rs => Nat.eqb (List.length ls) (List.length rs)
  | _, _ => false
  end.

(** The round trip as a caller runs it: the records of [observableDiff]
    are applied in emission order to [lhs], and [diff] compares the outcome
    with [rhs]. *)
Definition roundTrip (dateToString : number -> string) (keepEmptyPath : bool)
           (source : argument) (lhs rhs : value) : result diffReturn :=
  target <- applyChanges source lhs
              (changes (observableDiff dateToString keepEmptyPath lhs rhs
                                       None tt None false)) ;;
  Ok (fst (fst (diff dateToString keepEmptyPath target rhs []))).

(** The same records applied to [lhs] and then reverted in the same order;
    [diff] compares the outcome with [lhs]. *)
Definition applyThenRevert (dateToString : number -> string) (keepEmptyPath : bool)
           (source source' : argument) (lhs rhs : value) : result diffReturn :=
  target <- applyChanges source lhs
              (changes (observableDiff dateToString keepEmptyPath lhs rhs
                                       None tt None false)) ;;
  restored <- revertChanges source' target
                (changes (observableDiff dateToString keepEmptyPath lhs rhs
                                         None tt None false)) ;;
  Ok (fst (fst (diff dateToString keepEmptyPath restored lhs []))).

(** The primitive values. *)
Definition isPrimitive (v : value) : bool :=
  match v with
  | VUndefined | VNull | VBool _ | VNumber _ | VString _ => true
  | _ => false
  end.

(** The one record of two values of different real types. *)
Definition typeRecord (keepEmptyPath : bool) (l r : value) : change :=
  if isUndefined l then DiffNew keepEmptyPath (Some []) r
  else if isUndefined r then DiffDeleted keepEmptyPath (Some []) l
  else DiffEdit keepEmptyPath (Some []) l r.

(** A primitive, or a date that has a time value. *)
Definition isLeaf (v : value) : bool :=
  match v with
  | VDate (Num _) => true
  | _ => isPrimitive v
  end.

(** The records of a walk. *)
Definition recordsOf (w : walked) : list change := fst (fst w).

(** The records of [w], called with the path [cp], all satisfy [R]. *)
Definition soundAt (R : change -> Prop) (cp : list key) (w : walk) : Prop :=
  forall rhs key stack, Forall R (recordsOf (w rhs cp key stack)).

(** Every record of the walk [w] is acceptable, wherever it is called. *)
Definition sound (Q : list key -> change -> Prop) (w : walk) : Prop :=
  forall rhs p key stack, Forall (Q p) (recordsOf (w rhs p key stack)).

(** The item of an array record as the walk builds it: a New or a Deleted
    record without path, index or item. *)
Definition tailItem (c : change) : bool :=
  (kindIs c "N" || kindIs c "D")
  && match path c, index c, item c with
     | None, None, None => true
     | _, _, _ => false
     end.

(** The shape of a record: one of the four kinds; an array record, and no
    other, carries an index and an item. *)
Definition wellShaped (c : change) : bool :=
  match index c, item c with
  | None, None => kindIs c "N" || kindIs c "E" || kindIs c "D"
  | Some _, Some c' => kindIs c "A" && tailItem c'
  | _, _ => false
  end.

(** The path [q] was let through by the prefilter, key by key. *)
Definition letThrough (prefilter : option prefilterOption) (q : list key) : Prop :=
  forall a k b, q = a ++ k :: b -> filteredOut prefilter a (Some k) = false.

(** A record of a call with path [p]: its path extends [p] by keys that
    were let through. *)
Definition below_path (keepEmptyPath : bool) (prefilter : option prefilterOption)
           (p : list key) (c : change) : Prop :=
  exists rest, path c = storedPath keepEmptyPath (Some (p ++ rest))
               /\ forall a k b, rest = a ++ k :: b ->
                                filteredOut prefilter (p ++ a) (Some k) = false.

(** Equal hashes mean equal values in [l]. *)
Definition collisionFree (dateToString : number -> string) (l : list value) : Prop :=
  forall x y, In x l -> In y l ->
              getOrderIndependentHash dateToString x
              = getOrderIndependentHash dateToString y ->
              x = y.

(** Equal hashes mean equal values among the elements of [items]. *)
Definition distinctHashes (dateToString : number -> string)
           (items : list (option value)) : Prop :=
  forall x y, In (Some x) items -> In (Some y) items ->
              getOrderIndependentHash dateToString x
              = getOrderIndependentHash dateToString y ->
              x = y.

(** No element of [items] is an array or a mapping. *)
Definition childless (items : list (option value)) : Prop :=
  Forall (fun o => forall v, o = Some v -> isContainer v = false) items.

(** The elements of [items] are all present and are leaves. *)
Definition leaves (items : list (option value)) : bool :=
  forallb (fun o => match o with
                    | Some v => isLeaf v
                    | None => false
                    end) items.

(** A slot that is not a hole. *)
Definition presentItem (o : option value) : bool :=
  match o with
  | Some _ => true
  | None => false
  end.

(** The container [applyChange] creates for a missing key of the path: an
    array when the next key is a number, a mapping otherwise. *)
Definition createdFor (next : key) (v : value) : value :=
  match next with
  | KNum i => VArray (repeat None i ++ [Some v])
  | _ => VObject [(next, v)]
  end.

(** * Properties *)

(** ** Equality of keys *)

Lemma key_eqb_spec (a b : key) : reflect (a = b) (key_eqb a b).
Proof.
  destruct a as [s|n|i], b as [t|m|j]; simpl; try (constructor; discriminate).
  - destruct (String.eqb_spec s t); constructor; congruence.
  - destruct (Nat.eqb_spec n m); constructor; congruence.
  - destruct (Nat.eqb_spec i j); constructor; congruence.
Qed.

Lemma key_eqb_refl (a : key) : key_eqb a a = true.
Proof. destruct (key_eqb_spec a a); congruence. Qed.

Lemma key_eqb_eq (a b : key) : key_eqb a b = true <-> a = b.
Proof. destruct (key_eqb_spec a b); split; congruence. Qed.

Lemma key_eqb_neq (a b : key) : key_eqb a b = false <-> a <> b.
Proof. destruct (key_eqb_spec a b); split; congruence. Qed.

(** ** The entry points *)

(** C6 (sequence tail policy): diffing [[1,2,3]] against [[1,2,3,4,5]]
    yields exactly two records, an array change wrapping a New at index 4
    and then one at index 3, and nothing for the indices 0 to 2; [diff]
    returns that list. *)
Theorem sequence_tail_policy :
  forall (dateToString : number -> string) (keepEmptyPath : bool),
    changes (observableDiff dateToString keepEmptyPath
               (numbers [1; 2; 3]%Z) (numbers [1; 2; 3; 4; 5]%Z)
               (@None (change -> unit -> unit)) tt None false)
    = [ DiffArray keepEmptyPath (Some []) 4
          (DiffNew keepEmptyPath None (VNumber (Num 5)));
        DiffArray keepEmptyPath (Some []) 3
          (DiffNew keepEmptyPath None (VNumber (Num 4))) ]
    /\ fst (fst (diff dateToString keepEmptyPath
                   (numbers [1; 2; 3]%Z) (numbers [1; 2; 3; 4; 5]%Z) []))
       = ReturnsChanges
           [ DiffArray keepEmptyPath (Some []) 4
               (DiffNew keepEmptyPath None (VNumber (Num 5)));
             DiffArray keepEmptyPath (Some []) 3
               (DiffNew keepEmptyPath None (VNumber (Num 4))) ].
Proof.
  intros dateToString keepEmptyPath.
  destruct keepEmptyPath; split; reflexivity.
Qed.

(** C3 (accumulator option): the options key [accumulator] is not the key
    [diff] reads (line 181 destructures [accummulator]).  An accumulator
    passed as [accumulator] changes nothing: [diff] answers as without
    options, so on equal inputs it returns [undefined], not the
    accumulator. *)
Theorem diff_ignores_accumulator_key :
  forall (dateToString : number -> string) (keepEmptyPath : bool),
    (forall lhs rhs contents,
        diff dateToString keepEmptyPath lhs rhs
             [("accumulator", OptAccumulator contents)]
        = diff dateToString keepEmptyPath lhs rhs [])
    /\ fst (fst (diff dateToString keepEmptyPath
                   (VNumber (Num 1)) (VNumber (Num 1))
                   [("accumulator", OptAccumulator [])]))
       = ReturnsUndefined
    /\ fst (fst (diff dateToString keepEmptyPath
                   (VNumber (Num 1)) (VNumber (Num 2))
                   [("accumulator", OptAccumulator [])]))
       = ReturnsChanges
           [DiffEdit keepEmptyPath (Some []) (VNumber (Num 1)) (VNumber (Num 2))].
Proof.
  intros dateToString keepEmptyPath.
  split; [| split].
  - intros lhs rhs contents. reflexivity.
  - destruct keepEmptyPath; reflexivity.
  - destruct keepEmptyPath; reflexivity.
Qed.

(** The key the code does read behaves as the documentation describes the
    accumulator: it is returned, also when nothing was pushed. *)
Lemma diff_returns_accummulator :
  forall dateToString keepEmptyPath lhs rhs contents,
    fst (fst (diff dateToString keepEmptyPath lhs rhs
                [("accummulator", OptAccumulator contents)]))
    = ReturnsAccumulator
        (contents
         ++ changes (observableDiff dateToString keepEmptyPath lhs rhs
                       (@None (change -> unit -> unit)) tt None false)).
Proof.
  intros dateToString keepEmptyPath lhs rhs contents.
  unfold diff, observableDiff. simpl.
  destruct (deepDiff dateToString keepEmptyPath None false lhs rhs [] None [])
    as [[cs l] r] eqn:E.
  simpl. f_equal. clear E.
  generalize contents. induction cs as [|c cs IH]; intros acc; simpl.
  - now rewrite app_nil_r.
  - rewrite IH. now rewrite <- app_assoc.
Qed.

(** C5 (no-op on equal inputs): a Date whose time value is NaN compared with
    itself is reported as edited: [lhs - rhs !== 0] holds of NaN.  [diff]
    returns a change where the claim promises [undefined]. *)
Theorem diff_invalid_date_with_itself :
  forall (dateToString : number -> string) (keepEmptyPath : bool),
    fst (fst (diff dateToString keepEmptyPath (VDate NaN) (VDate NaN) []))
    = ReturnsChanges
        [DiffEdit keepEmptyPath (Some []) (VDate NaN) (VDate NaN)].
Proof.
  intros dateToString keepEmptyPath. destruct keepEmptyPath; reflexivity.
Qed.

(** ** Property lists and slots *)

Lemma lookupProp_insertProp_same (k : key) (v : value) (ps : list (key * value)) :
  lookupProp k (insertProp k v ps) = Some v.
Proof.
  induction ps as [|[k' v'] tl IH]; simpl.
  - now rewrite key_eqb_refl.
  - destruct (key_eqb k k') eqn:E; simpl; rewrite E; auto.
Qed.

Lemma lookupProp_insertProp_other (k k' : key) (v : value) (ps : list (key * value)) :
  k <> k' -> lookupProp k' (insertProp k v ps) = lookupProp k' ps.
Proof.
  intros Hne. induction ps as [|[k0 v0] tl IH]; simpl.
  - destruct (key_eqb_spec k' k); congruence.
  - destruct (key_eqb_spec k k0) as [->|Hk]; simpl.
    + destruct (key_eqb_spec k' k0); congruence.
    + destruct (key_eqb_spec k' k0); auto.
Qed.

Lemma lookupProp_removeProp_same (k : key) (ps : list (key * value)) :
  lookupProp k (removeProp k ps) = None.
Proof.
  induction ps as [|[k' v'] tl IH]; simpl; auto.
  destruct (key_eqb k k') eqn:E; simpl; auto. now rewrite E.
Qed.

Lemma lookupProp_removeProp_other (k k' : key) (ps : list (key * value)) :
  k <> k' -> lookupProp k' (removeProp k ps) = lookupProp k' ps.
Proof.
  intros Hne. induction ps as [|[k0 v0] tl IH]; simpl; auto.
  destruct (key_eqb_spec k k0) as [->|Hk]; simpl.
  - destruct (key_eqb_spec k' k0); congruence.
  - destruct (key_eqb_spec k' k0); auto.
Qed.

Lemma nth_error_setSlot_same (n : nat) (v : value) (items : list (option value)) :
  nth_error (setSlot n v items) n = Some (Some v).
Proof.
  revert items. induction n as [|n IH]; intros [|x tl]; simpl; auto.
Qed.

Lemma nth_error_clearSlot_same (n : nat) (items : list (option value)) :
  nth_error (clearSlot n items) n = None
  \/ nth_error (clearSlot n items) n = Some None.
Proof.
  revert items. induction n as [|n IH]; intros [|x tl]; simpl; auto.
Qed.

Lemma nthSlot_setSlot_same (n : nat) (v : value) (items : list (option value)) :
  nthSlot (setSlot n v items) n = v.
Proof. unfold nthSlot. now rewrite nth_error_setSlot_same. Qed.

Lemma nthSlot_clearSlot_same (n : nat) (items : list (option value)) :
  nthSlot (clearSlot n items) n = VUndefined.
Proof.
  unfold nthSlot. destruct (nth_error_clearSlot_same n items) as [E|E]; now rewrite E.
Qed.

(** Reading back the slot that held a mutated object. *)
Lemma getProp_mutatedAt (it : value) (k : key) (child child' : value) :
  getProp it k = Ok child -> child <> VUndefined ->
  getProp (mutatedAt it k child') k = Ok child'.
Proof.
  destruct it as [| | | | | | |items|ps]; simpl; try discriminate;
    try (intros [= <-] Hne; congruence).
  - destruct k as [s|n|i]; try discriminate.
    unfold nthSlot. destruct (nth_error items n) as [[x|]|] eqn:E;
      intros [= <-] Hne; try congruence.
    simpl. now rewrite nthSlot_setSlot_same.
  - destruct (lookupProp (propKey k) ps) eqn:E; intros [= <-] Hne; try congruence.
    simpl. now rewrite lookupProp_insertProp_same.
Qed.

(** ** Missing inputs and the calling conventions *)

(** C7 (two-argument apply): for a record of kind N, D, E or A the call
    [applyChange(target, change)] does to [target] what
    [applyChange(target, source, change)] does, whatever [source]. *)
Theorem applyChange_two_arguments :
  forall (target : value) (c : change) (source : argument),
    validKind (kind c) = true ->
    applyChange target (ArgChange c) None = applyChange target source (Some c).
Proof.
  intros target c source Hkind. unfold applyChange. now rewrite Hkind.
Qed.

Lemma applyChange_two_arguments_witness :
  validKind (kind (Change (Some "E") (Some [KStr "a"])
                     (VNumber (Num 1)) (VNumber (Num 2)) None None)) = true
  /\ applyChange (VObject [(KStr "a", VNumber (Num 1))])
       (ArgChange (Change (Some "E") (Some [KStr "a"])
                     (VNumber (Num 1)) (VNumber (Num 2)) None None)) None
     = applyChange (VObject [(KStr "a", VNumber (Num 1))])
         (ArgValue (VObject [(KStr "a", VNumber (Num 2))]))
         (Some (Change (Some "E") (Some [KStr "a"])
                  (VNumber (Num 1)) (VNumber (Num 2)) None None)).
Proof.
  split; [reflexivity | apply applyChange_two_arguments; reflexivity].
Defined.

(** C9 (missing inputs): a call of [applyChange] or [revertChange] without
    a target, without a change record, or with a record that has no [kind]
    returns normally and leaves the target as it was. *)
Theorem missing_input_is_noop :
  forall (target : value) (source : argument) (change : option change),
    (truthy target = false
     \/ (change = None
         /\ (source = ArgUndefined
             \/ exists v, source = ArgValue v /\ validKind (kindOfValue v) = false))
     \/ (exists c, (change = Some c \/ (change = None /\ source = ArgChange c))
                   /\ kind c = None)) ->
    applyChange target source change = Ok target
    /\ revertChange target source change = Ok target.
Proof.
  intros target source change [Htarget | [[-> Hsource] | [c [Hc Hkind]]]].
  - unfold applyChange, revertChange, applyRecord. rewrite Htarget. simpl.
    destruct change as [c|]; [auto|].
    destruct source as [|c|v]; auto.
    + destruct (validKind (kind c)); auto.
    + now rewrite andb_false_r.
  - unfold applyChange, revertChange. split; [|reflexivity].
    destruct Hsource as [-> | [v [-> Hv]]]; [reflexivity|].
    rewrite Hv. now rewrite andb_false_r.
  - unfold applyChange, revertChange, applyRecord.
    destruct Hc as [-> | [-> ->]]; rewrite Hkind; simpl.
    + now rewrite !andb_false_r.
    + auto.
Qed.

Lemma missing_input_is_noop_witness :
  (truthy VUndefined = false
   \/ (Some (Change (Some "N") (Some [KStr "a"]) VUndefined VNull None None) = None
       /\ (ArgUndefined = ArgUndefined
           \/ exists v, ArgUndefined = ArgValue v
                        /\ validKind (kindOfValue v) = false))
   \/ (exists c,
          (Some (Change (Some "N") (Some [KStr "a"]) VUndefined VNull None None)
           = Some c
           \/ (Some (Change (Some "N") (Some [KStr "a"]) VUndefined VNull None None)
               = None /\ ArgUndefined = ArgChange c))
          /\ kind c = None))
  /\ applyChange VUndefined ArgUndefined
       (Some (Change (Some "N") (Some [KStr "a"]) VUndefined VNull None None))
     = Ok VUndefined
  /\ revertChange VUndefined ArgUndefined
       (Some (Change (Some "N") (Some [KStr "a"]) VUndefined VNull None None))
     = Ok VUndefined.
Proof.
  split; [left; reflexivity|].
  apply missing_input_is_noop. left. reflexivity.
Defined.

Lemma typeof_undefined (v : value) :
  String.eqb (typeof v) "undefined" = true <-> v = VUndefined.
Proof. destruct v; simpl; split; congruence. Qed.

Lemma kindIs_true (c : change) (k : string) :
  kindIs c k = true <-> kind c = Some k.
Proof.
  unfold kindIs. destruct (kind c) as [s|]; split; try discriminate.
  - intros E. apply String.eqb_eq in E. congruence.
  - intros [= ->]. apply String.eqb_refl.
Qed.

Lemma getProp_setProp_same (it : value) (k : key) (v it' : value) :
  setProp it k v = Ok it' -> getProp it' k = Ok v.
Proof.
  destruct it as [| | | | | | |items|ps]; simpl; try discriminate.
  - destruct k as [s|n|i]; try discriminate. intros [= <-]. simpl.
    now rewrite nthSlot_setSlot_same.
  - intros [= <-]. simpl. now rewrite lookupProp_insertProp_same.
Qed.

Lemma getProp_deleteProp_same (it : value) (k : key) (it' : value) :
  deleteProp it k = Ok it' -> getProp it' k = Ok VUndefined.
Proof.
  destruct it as [| | | | | | |items|ps]; simpl; try discriminate;
    try (intros [= <-]; reflexivity).
  - destruct k as [s|n|i]; try discriminate. intros [= <-]. simpl.
    now rewrite nthSlot_clearSlot_same.
  - intros [= <-]. simpl. now rewrite lookupProp_removeProp_same.
Qed.

(** After the walk of [revertChange] the path leads to whatever the switch
    left under the last key. *)
Lemma revertWalk_reads_back (x : value) (terminal : value -> key -> result value) :
  (forall it k it', terminal it k = Ok it' -> getProp it' k = Ok x) ->
  forall (p : list key) (it t' : value),
    p <> [] -> revertWalk it p terminal = Ok t' -> getPath t' p = Ok x.
Proof.
  intros Hterm p. induction p as [|k rest IH]; intros it t' Hp Hwalk; [congruence|].
  destruct rest as [|next rest].
  - simpl in *. now rewrite (Hterm _ _ _ Hwalk).
  - cbn [revertWalk] in Hwalk. cbn [getPath].
    destruct (getProp it k) as [cur|] eqn:Ecur; [|discriminate].
    cbn [bind] in Hwalk.
    assert (Hchild : exists it1 child,
               getProp it1 k = Ok child /\ child <> VUndefined
               /\ (child' <- revertWalk child (next :: rest) terminal ;;
                   Ok (mutatedAt it1 k child')) = Ok t').
    { destruct (String.eqb (typeof cur) "undefined") eqn:Etype.
      - destruct (setProp it k (VObject [])) as [it1|] eqn:Eset; [|discriminate].
        cbn [bind] in Hwalk. exists it1, (VObject []).
        rewrite (getProp_setProp_same _ _ _ _ Eset) in *.
        repeat split; [discriminate | exact Hwalk].
      - cbn [bind] in Hwalk. exists it, cur. rewrite Ecur in *.
        repeat split; [| exact Hwalk].
        intros ->. discriminate. }
    destruct Hchild as (it1 & child & Hget & Hne & Hrest).
    destruct (revertWalk child (next :: rest) terminal) as [child'|] eqn:Erec;
      [|discriminate].
    cbn [bind] in Hrest. injection Hrest as <-.
    rewrite (getProp_mutatedAt _ _ _ child' Hget Hne). cbn [bind].
    apply (IH child child'); [discriminate | exact Erec].
Qed.




(** ** The order-independent hash *)

(** A sum taken by [fold_left] does not depend on the order of the terms. *)
Lemma fold_left_permutation {A B : Type} (f : A -> B -> A) :
  (forall a x y, f (f a x) y = f (f a y) x) ->
  forall l l', Permutation l l' -> forall a, fold_left f l a = fold_left f l' a.
Proof.
  intros Hcomm l l' Hperm.
  induction Hperm as [|x l l' _ IH|x y l|l l' l'' _ IH1 _ IH2]; intros a; simpl.
  - reflexivity.
  - apply IH.
  - now rewrite Hcomm.
  - now rewrite IH1, IH2.
Qed.



(** The string hash is the multiply-by-31 hash wrapped to 32 bits. *)
Lemma toInt32_idempotent (z : Z) : toInt32 (toInt32 z) = toInt32 z.
Proof.
  unfold toInt32.
  replace ((z + 2 ^ 31) mod 2 ^ 32 - 2 ^ 31 + 2 ^ 31)%Z
    with ((z + 2 ^ 31) mod 2 ^ 32)%Z by lia.
  now rewrite Z.mod_mod by lia.
Qed.

Lemma toInt32_congruent (a b : Z) :
  ((a - b) mod 2 ^ 32 = 0)%Z -> toInt32 a = toInt32 b.
Proof.
  intros H. unfold toInt32. f_equal.
  apply Z.mod_divide in H; [|lia]. destruct H as [q Hq].
  replace (a + 2 ^ 31)%Z with (b + 2 ^ 31 + q * 2 ^ 32)%Z by lia.
  now rewrite Z.mod_add by lia.
Qed.

Lemma toInt32_residue (z : Z) : ((toInt32 z - z) mod 2 ^ 32 = 0)%Z.
Proof.
  unfold toInt32.
  pose proof (Z.div_mod (z + 2 ^ 31) (2 ^ 32) ltac:(lia)) as H.
  replace ((z + 2 ^ 31) mod 2 ^ 32 - 2 ^ 31 - z)%Z
    with (- ((z + 2 ^ 31) / 2 ^ 32) * 2 ^ 32)%Z by lia.
  apply Z.mod_mul; lia.
Qed.

(** One round of the loop of [hashThisString] multiplies the running hash
    by 31, adds the character code and wraps the sum to 32 bits. *)
Lemma hashLoop_step (hash : Z) (c : ascii) (rest : string) :
  hashLoop hash (String c rest)
  = hashLoop (toInt32 (hash * 31 + charCode c)) rest.
Proof.
  cbn [hashLoop]. f_equal. apply toInt32_congruent.
  rewrite Z.shiftl_mul_pow2 by lia.
  pose proof (toInt32_residue (toInt32 hash * 2 ^ 5)) as H1.
  pose proof (toInt32_residue hash) as H2.
  apply Z.mod_divide in H1; [|lia]. apply Z.mod_divide in H2; [|lia].
  destruct H1 as [q1 Hq1], H2 as [q2 Hq2].
  apply Z.mod_divide; [lia|].
  exists (q1 + 32 * q2)%Z. lia.
Qed.

(** ** The walk leaves its inputs alone unless asked to sort *)

Lemma setSlot_same (n : nat) (v : value) (items : list (option value)) :
  nth_error items n = Some (Some v) -> setSlot n v items = items.
Proof.
  revert items. induction n as [|n IH]; intros [|x tl]; simpl; try discriminate.
  - now intros [= ->].
  - intros H. now rewrite IH.
Qed.

Lemma insertProp_same (k : key) (v : value) (ps : list (key * value)) :
  lookupProp k ps = Some v -> insertProp k v ps = ps.
Proof.
  induction ps as [|[k' v'] tl IH]; simpl; try discriminate.
  destruct (key_eqb k k'); [now intros [= ->] | intros H; now rewrite IH].
Qed.

Lemma lookupProp_distinct (k : key) (v : value) (ps : list (key * value)) :
  keysDistinct (map fst ps) = true -> In (k, v) ps -> lookupProp k ps = Some v.
Proof.
  induction ps as [|[k' v'] tl IH]; simpl; [tauto|].
  intros Hd [[= -> ->] | Hin].
  - now rewrite key_eqb_refl.
  - apply andb_prop in Hd. destruct Hd as [Hnot Hd].
    destruct (key_eqb_spec k k') as [->|Hne]; [|auto].
    exfalso. apply negb_true_iff in Hnot.
    assert (existsb (key_eqb k') (map fst tl) = true); [|congruence].
    apply existsb_exists. exists k'. split; [|apply key_eqb_refl].
    apply in_map_iff. now exists (k', v).
Qed.

Lemma mutatedAt_own_item (items : list (option value)) (i : nat) :
  mutatedAt (VArray items) (KNum i) (nthSlot items i) = VArray items.
Proof.
  simpl. unfold nthSlot. destruct (nth_error items i) as [[x|]|] eqn:E; auto.
  now rewrite setSlot_same.
Qed.

Lemma mutatedAt_hole (items : list (option value)) (i : nat) (v : value) :
  (forall x, nth_error items i <> Some (Some x)) ->
  mutatedAt (VArray items) (KNum i) v = VArray items.
Proof.
  intros H. simpl. destruct (nth_error items i) as [[x|]|] eqn:E; auto.
  now destruct (H x).
Qed.

Lemma mutatedAt_own_prop (v : value) (k : key) :
  isNumberKey k = false -> mutatedAt v k (ownValue v k) = v.
Proof.
  intros Hk. destruct v as [| | | | | | |items|ps]; simpl; auto.
  - destruct k; simpl in *; congruence.
  - replace (propKey k) with k by (destruct k; simpl in *; congruence).
    destruct (lookupProp k ps) eqn:E; auto. now rewrite insertProp_same.
Qed.

Section Purity.

Variable dateToString : number -> string.
Variable keepEmptyPath : bool.
Variable prefilter : option prefilterOption.

Lemma arrayWalk_pure (unit_walk : walk) (W : value -> walk)
      (items rs : list (option value)) (cp : list key) (stack : list frame) :
  pureWalk VUndefined unit_walk ->
  Forall (fun o => forall v, o = Some v -> pureWalk v (W v)) items ->
  let kids := map (option_map (fun v => (v, W v))) items in
  snd (fst (arrayWalk keepEmptyPath unit_walk kids (VArray items) (VArray rs) cp stack))
  = VArray items
  /\ snd (arrayWalk keepEmptyPath unit_walk kids (VArray items) (VArray rs) cp stack)
     = VArray rs.
Proof.
  intros Hunit Hkids kids. unfold arrayWalk.
  generalize (rev (seq 0 (Nat.min (List.length (itemsOf (VArray rs))) (List.length kids)))).
  match goal with |- forall l, snd (fst (fold_left ?f l (?c, _, _))) = _ /\ _ =>
    generalize c; set (step := f) end.
  intros cs idxs. revert cs.
  induction idxs as [|i idxs IH]; intros cs; [split; reflexivity|].
  cbn [fold_left].
  assert (Hstep : exists cs', step (cs, VArray items, VArray rs) i = (cs', VArray items, VArray rs)).
  { unfold step.
    set (descend := match nth_error kids i with Some (Some (_, w)) => w | _ => unit_walk end).
    assert (Hd : snd (descend (nthSlot (itemsOf (VArray rs)) i) cp (Some (KNum i)) stack) = nthSlot rs i
                 /\ mutatedAt (VArray items) (KNum i)
                      (snd (fst (descend (nthSlot (itemsOf (VArray rs)) i) cp (Some (KNum i)) stack)))
                    = VArray items).
    { unfold descend, kids. rewrite nth_error_map.
      destruct (nth_error items i) as [[v|]|] eqn:Ei; cbn [option_map].
      - rewrite Forall_forall in Hkids.
        destruct (Hkids (Some v) (nth_error_In _ _ Ei) v eq_refl
                    (nthSlot (itemsOf (VArray rs)) i) cp (Some (KNum i)) stack) as [H1 H2].
        rewrite H1, H2. split; [reflexivity|].
        simpl. rewrite Ei. now rewrite setSlot_same.
      - destruct (Hunit (nthSlot (itemsOf (VArray rs)) i) cp (Some (KNum i)) stack) as [H1 H2].
        rewrite H2. split; [reflexivity|].
        apply mutatedAt_hole. intros x. congruence.
      - destruct (Hunit (nthSlot (itemsOf (VArray rs)) i) cp (Some (KNum i)) stack) as [H1 H2].
        rewrite H2. split; [reflexivity|].
        apply mutatedAt_hole. intros x. congruence. }
    destruct (descend (nthSlot (itemsOf (VArray rs)) i) cp (Some (KNum i)) stack)
      as [[pushed l] r] eqn:Ed.
    cbn [fst snd] in Hd. destruct Hd as [-> Hl]. rewrite Hl.
    rewrite mutatedAt_own_item. eauto. }
  destruct Hstep as [cs' ->]. apply IH.
Qed.

Lemma plainKeys_nullAt (n : nat) (pkeys : list (option key)) :
  plainKeys pkeys -> plainKeys (nullAt n pkeys).
Proof.
  unfold plainKeys. revert pkeys.
  induction n as [|n IH]; intros [|o tl] H; simpl; auto;
    inversion H; subst; constructor; auto; discriminate.
Qed.

Lemma plainKeys_of (rhs : value) :
  plainKeys (map Some (objectKeys rhs ++ getOwnPropertySymbols rhs)).
Proof.
  unfold plainKeys. apply Forall_forall. intros o Hin k ->.
  apply in_map_iff in Hin. destruct Hin as (k' & [= ->] & Hin).
  apply in_app_or in Hin.
  destruct rhs; simpl in Hin; try tauto.
  destruct Hin as [Hin|Hin]; apply filter_In in Hin; destruct Hin as [_ Hk];
    destruct k; simpl in *; congruence.
Qed.

Lemma mappingWalk_pure (unit_walk : walk) (kids : list (key * (value * walk)))
      (lhs rhs : value) (cp : list key) (stack : list frame) :
  pureWalk VUndefined unit_walk ->
  Forall (fun kid => pureWalk (fst (snd kid)) (snd (snd kid))
                     /\ mutatedAt lhs (fst kid) (fst (snd kid)) = lhs) kids ->
  snd (fst (mappingWalk unit_walk kids lhs rhs cp stack)) = lhs
  /\ snd (mappingWalk unit_walk kids lhs rhs cp stack) = rhs.
Proof.
  intros Hunit Hkids. unfold mappingWalk.
  set (akeys := filter (fun kid => isStringKey (fst kid)) kids
                ++ filter (fun kid => isSymbolKey (fst kid)) kids).
  assert (Hakeys : Forall (fun kid => isNumberKey (fst kid) = false
                                      /\ pureWalk (fst (snd kid)) (snd (snd kid))
                                      /\ mutatedAt lhs (fst kid) (fst (snd kid)) = lhs) akeys).
  { rewrite Forall_forall in *. intros kid Hin. unfold akeys in Hin.
    apply in_app_or in Hin.
    destruct Hin as [Hin|Hin]; apply filter_In in Hin; destruct Hin as [Hin Hk];
      (split; [destruct (fst kid); simpl in *; congruence | now apply Hkids]). }
  clearbody akeys.
  pose proof (plainKeys_of rhs) as Hpkeys. revert Hpkeys.
  generalize (map Some (objectKeys rhs ++ getOwnPropertySymbols rhs)).
  generalize (@nil change).
  induction akeys as [|kid akeys IH]; intros cs pkeys Hpkeys.
  - cbn [fold_left]. clear Hakeys.
    revert cs. induction pkeys as [|o pkeys IH]; intros cs; [split; reflexivity|].
    cbn [fold_left]. inversion Hpkeys as [|? ? Ho Htl]; subst.
    destruct (truthyKey o); [|now apply IH].
    destruct o as [k|]; [|now apply IH].
    match goal with |- context [unit_walk ?a ?b ?c ?d] =>
      destruct (Hunit a b c d) as [_ H2];
      destruct (unit_walk a b c d) as [[pushed l] r] end.
    cbn [snd] in H2. subst r.
    rewrite mutatedAt_own_prop by (now apply Ho). now apply IH.
  - cbn [fold_left]. inversion Hakeys as [|? ? (Hk & Hw & Hm) Htl]; subst.
    destruct (indexOf (fst kid) pkeys) as [other|].
    + match goal with |- context [snd (snd kid) ?a ?b ?c ?d] =>
        destruct (Hw a b c d) as [H1 H2];
        destruct (snd (snd kid) a b c d) as [[pushed l] r] end.
      cbn [fst snd] in H1, H2. subst l r.
      rewrite Hm. rewrite mutatedAt_own_prop by exact Hk.
      apply IH; [exact Htl | now apply plainKeys_nullAt].
    + match goal with |- context [snd (snd kid) ?a ?b ?c ?d] =>
        destruct (Hw a b c d) as [H1 H2];
        destruct (snd (snd kid) a b c d) as [[pushed l] r] end.
      cbn [fst snd] in H1. subst l. rewrite Hm.
      apply IH; [exact Htl | exact Hpkeys].
Qed.

Lemma realTypeOf_array (v : value) :
  realTypeOf v = "array" -> exists items, v = VArray items.
Proof. destruct v; try discriminate. eauto. Qed.

Lemma deepDiffBody_pure (unit_walk : walk) (kids : children)
      (lhs rhs : value) (p : list key) (k : option key) (s : list frame) :
  pureWalk VUndefined unit_walk ->
  (forall items, lhs = VArray items ->
     exists W, kids = Items (map (option_map (fun v => (v, W v))) items)
               /\ Forall (fun o => forall v, o = Some v -> pureWalk v (W v)) items) ->
  (forall ks, kids = Props ks ->
     Forall (fun kid => pureWalk (fst (snd kid)) (snd (snd kid))
                        /\ mutatedAt lhs (fst kid) (fst (snd kid)) = lhs) ks) ->
  snd (fst (deepDiffBody dateToString keepEmptyPath prefilter false
              unit_walk kids lhs rhs p k s)) = lhs
  /\ snd (deepDiffBody dateToString keepEmptyPath prefilter false
            unit_walk kids lhs rhs p k s) = rhs.
Proof.
  intros Hunit Hitems Hprops. unfold deepDiffBody.
  destruct (filteredOut prefilter p k); [split; reflexivity|].
  cbv zeta.
  set (bothRegexp := String.eqb (realTypeOf lhs) "regexp" && String.eqb (realTypeOf rhs) "regexp").
  set (lhs0 := if bothRegexp then _ else lhs).
  set (rhs0 := if bothRegexp then _ else rhs).
  repeat match goal with
         | |- context [if ?c then (_, lhs, rhs) else _] =>
             destruct c eqn:?; [split; reflexivity|]
         end.
  match goal with
  | |- context [if ?c then _ else _] => destruct c eqn:Hobj
  end.
  2:{ repeat match goal with
             | |- context [if ?c then _ else _] => destruct c eqn:?
             end; split; reflexivity. }
  assert (Hboth : bothRegexp = false).
  { destruct bothRegexp; [|reflexivity]. subst lhs0. simpl in Hobj. discriminate. }
  subst lhs0 rhs0. rewrite Hboth in *.
  destruct (isArray lhs) eqn:Harr.
  - destruct lhs as [| | | | | | |items|ps]; try discriminate.
    destruct (Hitems items eq_refl) as (W & -> & HW).
    assert (Hrhs : exists rs, rhs = VArray rs).
    { apply realTypeOf_array.
      match goal with H : negb (String.eqb _ _) = false |- _ =>
        apply negb_false_iff in H; apply String.eqb_eq in H; now rewrite <- H end. }
    destruct Hrhs as [rs ->].
    now apply arrayWalk_pure.
  - apply mappingWalk_pure; [exact Hunit|].
    destruct kids as [|ks|ks]; [constructor | constructor | now apply Hprops].
Qed.

Lemma deepDiffUndefined_pure :
  pureWalk VUndefined (deepDiffUndefined dateToString keepEmptyPath prefilter false).
Proof.
  intros rhs p k s. unfold deepDiffUndefined.
  apply deepDiffBody_pure.
  - intros r' p' k' s'. split; reflexivity.
  - discriminate.
  - discriminate.
Qed.

Lemma deepDiff_pure (lhs : value) :
  wellFormed lhs = true ->
  pureWalk lhs (deepDiff dateToString keepEmptyPath prefilter false lhs).
Proof.
  induction lhs as [| | | | | | |items IH|props IH] using value_nested_ind;
    intros Hwf rhs0 p0 k0 s0;
    try (apply deepDiffBody_pure;
         [apply deepDiffUndefined_pure | discriminate | discriminate]).
  - cbn [deepDiff]. apply deepDiffBody_pure.
    + apply deepDiffUndefined_pure.
    + intros items' [= <-].
      exists (deepDiff dateToString keepEmptyPath prefilter false). split; [reflexivity|].
      simpl in Hwf. rewrite forallb_forall in Hwf.
      rewrite Forall_forall in *. intros o Hin v ->.
      apply (IH _ Hin v eq_refl). now apply (Hwf _ Hin).
    + discriminate.
  - cbn [deepDiff]. apply deepDiffBody_pure.
    + apply deepDiffUndefined_pure.
    + discriminate.
    + intros ks [= <-]. simpl in Hwf. apply andb_prop in Hwf. destruct Hwf as [Hd Hwf].
      rewrite forallb_forall in Hwf. rewrite Forall_forall in *.
      intros kid Hin. apply in_map_iff in Hin. destruct Hin as ([k' v] & <- & Hin).
      cbn [fst snd]. specialize (Hwf _ Hin). cbn [fst snd] in Hwf.
      apply andb_prop in Hwf. destruct Hwf as [Hk Hv].
      split; [apply (IH _ Hin); exact Hv|].
      simpl. replace (propKey k') with k' by (destruct k'; simpl in *; congruence).
      rewrite (lookupProp_distinct _ _ _ Hd Hin). now rewrite insertProp_same by (now apply lookupProp_distinct).
Qed.

End Purity.

(** C10 (inputs are not mutated): with [orderIndependent] unset or false,
    [observableDiff] and [diff] leave [lhs] and [rhs] as they were, whatever
    the prefilter and the observer.  (The in-place sort of lines 89-92 is the
    one write to the inputs in the walk.) *)
Theorem inputs_unchanged_without_orderIndependent :
  forall (dateToString : number -> string) (keepEmptyPath : bool)
         (lhs rhs : value),
    wellFormed lhs = true ->
    (forall (S : Type) (observer : option (change -> S -> S)) (state : S)
            (prefilter : option prefilterOption),
        lhsAfter (observableDiff dateToString keepEmptyPath lhs rhs
                    observer state prefilter false) = lhs
        /\ rhsAfter (observableDiff dateToString keepEmptyPath lhs rhs
                       observer state prefilter false) = rhs)
    /\ (forall opts : options,
           optionNamed "orderIndependent" opts = None
           \/ optionNamed "orderIndependent" opts = Some (OptFlag false) ->
           snd (fst (diff dateToString keepEmptyPath lhs rhs opts)) = lhs
           /\ snd (diff dateToString keepEmptyPath lhs rhs opts) = rhs).
Proof.
  intros dateToString keepEmptyPath lhs rhs Hwf.
  assert (Hobs : forall (S : Type) (observer : option (change -> S -> S)) (state : S)
                        (prefilter : option prefilterOption),
             lhsAfter (observableDiff dateToString keepEmptyPath lhs rhs
                         observer state prefilter false) = lhs
             /\ rhsAfter (observableDiff dateToString keepEmptyPath lhs rhs
                            observer state prefilter false) = rhs).
  { intros S observer state prefilter. unfold observableDiff.
    destruct (deepDiff_pure dateToString keepEmptyPath prefilter lhs Hwf rhs [] None [])
      as [H1 H2].
    destruct (deepDiff dateToString keepEmptyPath prefilter false lhs rhs [] None [])
      as [[cs l] r].
    cbn [fst snd] in H1, H2. subst l r. split; reflexivity. }
  split; [exact Hobs|].
  intros opts Hflag. unfold diff. cbn [fst snd].
  assert (E : match optionNamed "orderIndependent" opts with
              | Some (OptFlag b) => b
              | Some _ => true
              | None => false
              end = false).
  { destruct Hflag as [-> | ->]; reflexivity. }
  rewrite E. apply Hobs.
Qed.

Lemma inputs_unchanged_without_orderIndependent_witness :
  wellFormed (numbers [3; 1; 2]%Z) = true
  /\ snd (fst (diff (fun _ => "") false (numbers [3; 1; 2]%Z) (numbers [1; 2]%Z)
                 [("orderIndependent", OptFlag false)]))
     = numbers [3; 1; 2]%Z
  /\ snd (diff (fun _ => "") false (numbers [3; 1; 2]%Z) (numbers [1; 2]%Z)
            [("orderIndependent", OptFlag false)])
     = numbers [1; 2]%Z.
Proof.
  split; [reflexivity|].
  apply (proj2 (inputs_unchanged_without_orderIndependent
                  (fun _ => "") false (numbers [3; 1; 2]%Z) (numbers [1; 2]%Z)
                  eq_refl)).
  right. reflexivity.
Defined.

(** ** The records of a walk, loop by loop *)

Section WalkEquations.

Variable dateToString : number -> string.
Variable keepEmptyPath : bool.

Local Abbreviation changesOf := (changesOf dateToString keepEmptyPath).
Local Abbreviation changesOfUndefined := (changesOfUndefined dateToString keepEmptyPath).

Lemma arrayWalk_eq (unit_walk : walk) (W : value -> walk)
      (items rs : list (option value)) (cp : list key) (stack : list frame) :
  pureWalk VUndefined unit_walk ->
  Forall (fun o => forall v, o = Some v -> pureWalk v (W v)) items ->
  arrayWalk keepEmptyPath unit_walk (map (option_map (fun v => (v, W v))) items)
            (VArray items) (VArray rs) cp stack
  = (map (fun i => DiffArray keepEmptyPath (Some cp) i
                     (DiffNew keepEmptyPath None (nthSlot rs i)))
         (rev (seq (List.length items) (List.length rs - List.length items)))
     ++ map (fun j => DiffArray keepEmptyPath (Some cp) j
                        (DiffDeleted keepEmptyPath None (nthSlot items j)))
            (rev (seq (List.length rs) (List.length items - List.length rs)))
     ++ flat_map (fun i => fst (fst (slotWalk unit_walk W items i
                                       (nthSlot rs i) cp (Some (KNum i)) stack)))
                 (rev (seq 0 (Nat.min (List.length rs) (List.length items)))),
     VArray items, VArray rs).
Proof.
  intros Hunit Hkids. unfold arrayWalk. cbn [itemsOf]. rewrite length_map.
  rewrite app_assoc.
  generalize (rev (seq 0 (Nat.min (List.length rs) (List.length items)))).
  match goal with |- forall l, fold_left ?f l (?c, _, _) = _ =>
    generalize c; set (step := f) end.
  intros cs idxs. revert cs.
  induction idxs as [|i idxs IH]; intros cs.
  - cbn [fold_left flat_map]. now rewrite app_nil_r.
  - cbn [fold_left flat_map].
    assert (Hstep : step (cs, VArray items, VArray rs) i
                    = (cs ++ fst (fst (slotWalk unit_walk W items i
                                         (nthSlot rs i) cp (Some (KNum i)) stack)),
                       VArray items, VArray rs)).
    { unfold step, slotWalk. cbn [itemsOf]. rewrite nth_error_map.
      destruct (nth_error items i) as [[v|]|] eqn:Ei; cbn [option_map].
      - rewrite Forall_forall in Hkids.
        destruct (Hkids (Some v) (nth_error_In _ _ Ei) v eq_refl
                    (nthSlot rs i) cp (Some (KNum i)) stack) as [H1 H2].
        destruct (W v (nthSlot rs i) cp (Some (KNum i)) stack) as [[pushed l] r].
        cbn [fst snd] in *. subst l r.
        rewrite mutatedAt_own_item.
        simpl. rewrite Ei. now rewrite setSlot_same.
      - destruct (Hunit (nthSlot rs i) cp (Some (KNum i)) stack) as [H1 H2].
        destruct (unit_walk (nthSlot rs i) cp (Some (KNum i)) stack) as [[pushed l] r].
        cbn [fst snd] in *. subst l r.
        rewrite mutatedAt_own_item.
        rewrite mutatedAt_hole by (intros x; congruence). reflexivity.
      - destruct (Hunit (nthSlot rs i) cp (Some (KNum i)) stack) as [H1 H2].
        destruct (unit_walk (nthSlot rs i) cp (Some (KNum i)) stack) as [[pushed l] r].
        cbn [fst snd] in *. subst l r.
        rewrite mutatedAt_own_item.
        rewrite mutatedAt_hole by (intros x; congruence). reflexivity. }
    rewrite Hstep, IH. now rewrite <- app_assoc.
Qed.

Lemma memKey_In (k : key) (ks : list key) : memKey k ks = true <-> In k ks.
Proof.
  unfold memKey. rewrite existsb_exists. split.
  - intros (x & Hin & E). apply key_eqb_eq in E. now subst.
  - intros Hin. exists k. split; [exact Hin | apply key_eqb_refl].
Qed.

Lemma memKey_not_In (k : key) (ks : list key) : memKey k ks = false <-> ~ In k ks.
Proof.
  rewrite <- memKey_In. destruct (memKey k ks); split; congruence.
Qed.

Lemma maskKeys_nil (ks : list key) : maskKeys [] ks = map Some ks.
Proof. reflexivity. Qed.

Lemma maskKeys_absent (k : key) (done ks : list key) :
  ~ In k ks -> maskKeys (k :: done) ks = maskKeys done ks.
Proof.
  intros Hk. unfold maskKeys. apply map_ext_in. intros k' Hin.
  cbn [memKey existsb]. fold (memKey k' done).
  destruct (key_eqb_spec k' k) as [->|Hne]; [contradiction | reflexivity].
Qed.

Lemma indexOf_maskKeys (k : key) (done ks : list key) :
  NoDup ks -> ~ In k done ->
  match indexOf k (maskKeys done ks) with
  | Some n => In k ks /\ nullAt n (maskKeys done ks) = maskKeys (k :: done) ks
  | None => ~ In k ks
  end.
Proof.
  intros Hnd Hdone. induction ks as [|k' ks IH]; cbn [maskKeys map indexOf].
  - tauto.
  - inversion Hnd as [|? ? Hnotin Hnd']; subst. specialize (IH Hnd').
    fold (maskKeys done ks) in *.
    destruct (memKey k' done) eqn:Emem.
    + destruct (indexOf k (maskKeys done ks)) as [n|]; cbn [option_map].
      * destruct IH as [Hin Hnull]. split; [now right|].
        cbn [nullAt]. rewrite Hnull. cbn [maskKeys map memKey existsb].
        fold (memKey k' done). rewrite Emem. now rewrite orb_true_r.
      * intros [->|Hin]; [|tauto]. apply memKey_In in Emem. contradiction.
    + destruct (key_eqb_spec k k') as [->|Hne].
      * split; [now left|]. cbn [nullAt maskKeys map memKey existsb].
        rewrite key_eqb_refl. cbn [orb]. f_equal.
        symmetry. now apply maskKeys_absent.
      * destruct (indexOf k (maskKeys done ks)) as [n|]; cbn [option_map].
        -- destruct IH as [Hin Hnull]. split; [now right|].
           cbn [nullAt]. rewrite Hnull. cbn [maskKeys map memKey existsb].
           fold (memKey k' done). rewrite Emem.
           destruct (key_eqb_spec k' k); [congruence | reflexivity].
        -- intros [->|Hin]; [congruence | tauto].
Qed.

Lemma secondLoop_eq (unit_walk : walk) (lhs rhs : value) (cp : list key)
      (stack : list frame) (lkeys ks : list key) (cs : list change) :
  pureWalk VUndefined unit_walk ->
  Forall (fun k => isNumberKey k = false) ks ->
  fold_left
    (fun (acc : walked) (o : option key) =>
       let '(changes, lhs2, rhs2) := acc in
       if truthyKey o then
         match o with
         | Some k =>
             let '(pushed, _, r) := unit_walk (ownValue rhs2 k) cp (Some k) stack in
             (changes ++ pushed, lhs2, mutatedAt rhs2 k r)
         | None => acc
         end
       else acc)
    (maskKeys lkeys ks) (cs, lhs, rhs)
  = (cs ++ flat_map (fun k => fst (fst (unit_walk (ownValue rhs k) cp (Some k) stack)))
                    (filter (unpaired lkeys) ks),
     lhs, rhs).
Proof.
  intros Hunit Hplain. revert cs.
  induction ks as [|k ks IH]; intros cs.
  - cbn [maskKeys map fold_left filter flat_map]. now rewrite app_nil_r.
  - inversion Hplain as [|? ? Hk Hplain']; subst. specialize (IH Hplain').
    cbn [maskKeys map fold_left filter]. fold (maskKeys lkeys ks).
    unfold unpaired at 1.
    destruct (memKey k lkeys) eqn:Emem.
    + cbn [truthyKey negb]. rewrite andb_false_r. apply IH.
    + cbn [negb]. rewrite andb_true_r.
      destruct (truthyKey (Some k)).
      * destruct (Hunit (ownValue rhs k) cp (Some k) stack) as [H1 H2].
        cbn [flat_map].
        destruct (unit_walk (ownValue rhs k) cp (Some k) stack) as [[pushed l] r].
        cbn [fst snd] in *. subst r.
        rewrite mutatedAt_own_prop by exact Hk.
        rewrite IH. now rewrite <- app_assoc.
      * apply IH.
Qed.

Lemma mappingWalk_eq (unit_walk : walk) (W : value -> walk)
      (props : list (key * value)) (rhs : value) (cp : list key) (stack : list frame) :
  pureWalk VUndefined unit_walk ->
  Forall (fun kv => pureWalk (snd kv) (W (snd kv))) props ->
  NoDup (map fst props) ->
  NoDup (ownKeys rhs) ->
  mappingWalk unit_walk (map (fun kv => (fst kv, (snd kv, W (snd kv)))) props)
              (VObject props) rhs cp stack
  = (flat_map (fun kv => fst (fst (W (snd kv) (ownValue rhs (fst kv)) cp
                                     (Some (fst kv)) stack)))
              (enumerated props)
     ++ flat_map (fun k => fst (fst (unit_walk (ownValue rhs k) cp (Some k) stack)))
                 (filter (unpaired (map fst (enumerated props))) (ownKeys rhs)),
     VObject props, rhs).
Proof.
  intros Hunit HW Hnd Hrnd. unfold mappingWalk. fold (ownKeys rhs).
  set (kids := map (fun kv => (fst kv, (snd kv, W (snd kv)))) props).
  assert (Eenum : filter (fun kid => isStringKey (fst kid)) kids
                  ++ filter (fun kid => isSymbolKey (fst kid)) kids
                  = map (fun kv => (fst kv, (snd kv, W (snd kv)))) (enumerated props)).
  { unfold kids, enumerated. rewrite map_app.
    f_equal; clear; induction props as [|[k v] tl IH]; simpl; auto;
      destruct k; simpl; now rewrite IH. }
  rewrite Eenum. clear Eenum kids.
  assert (Henum : NoDup (map fst (enumerated props))
                  /\ Forall (fun kv => isNumberKey (fst kv) = false
                                       /\ pureWalk (snd kv) (W (snd kv))
                                       /\ lookupProp (fst kv) props = Some (snd kv))
                            (enumerated props)).
  { split.
    - unfold enumerated. rewrite map_app. apply NoDup_app.
      + clear -Hnd. induction props as [|[k v] tl IH]; simpl; [constructor|].
        inversion Hnd; subst. destruct (isStringKey k); simpl; auto.
        constructor; auto. intros Hin. apply in_map_iff in Hin.
        destruct Hin as (kv & E & Hin). apply filter_In in Hin.
        destruct Hin as [Hin _]. apply H1. apply in_map_iff. now exists kv.
      + clear -Hnd. induction props as [|[k v] tl IH]; simpl; [constructor|].
        inversion Hnd; subst. destruct (isSymbolKey k); simpl; auto.
        constructor; auto. intros Hin. apply in_map_iff in Hin.
        destruct Hin as (kv & E & Hin). apply filter_In in Hin.
        destruct Hin as [Hin _]. apply H1. apply in_map_iff. now exists kv.
      + intros k H1 H2. apply in_map_iff in H1, H2.
        destruct H1 as (kv1 & <- & H1), H2 as (kv2 & E & H2).
        apply filter_In in H1, H2. destruct H1 as [_ H1], H2 as [_ H2].
        rewrite E in H2. destruct (fst kv1); simpl in *; congruence.
    - rewrite Forall_forall in *. intros [k v] Hin. unfold enumerated in Hin.
      assert (Hin' : In (k, v) props
                     /\ (isStringKey k = true \/ isSymbolKey k = true)).
      { apply in_app_or in Hin. destruct Hin as [Hin|Hin];
          apply filter_In in Hin; simpl in Hin; tauto. }
      destruct Hin' as [Hin' Hk]. cbn [fst snd]. split; [|split].
      + destruct k; simpl in *; destruct Hk; congruence.
      + now apply (HW (k, v)).
      + clear -Hnd Hin'. induction props as [|[k' v'] tl IH]; simpl in *; [tauto|].
        inversion Hnd; subst. destruct Hin' as [[= -> ->]|Hin'].
        * now rewrite key_eqb_refl.
        * destruct (key_eqb_spec k k') as [->|Hne]; auto.
          exfalso. apply H1. apply in_map_iff. now exists (k', v). }
  destruct Henum as [Hnd' Hall].
  set (lkeys := map fst (enumerated props)) in *.
  rewrite <- (maskKeys_nil (ownKeys rhs)).
  match goal with
  | |- context [fold_left ?f (map _ (enumerated props)) _] => set (step1 := f)
  end.
  assert (Hloop1 : forall todo done cs,
             NoDup (done ++ map fst todo) ->
             Forall (fun kv => isNumberKey (fst kv) = false
                               /\ pureWalk (snd kv) (W (snd kv))
                               /\ lookupProp (fst kv) props = Some (snd kv)) todo ->
             fold_left step1
               (map (fun kv => (fst kv, (snd kv, W (snd kv)))) todo)
               ((cs, VObject props, rhs), maskKeys done (ownKeys rhs))
             = ((cs ++ flat_map (fun kv => fst (fst (W (snd kv) (ownValue rhs (fst kv)) cp
                                                       (Some (fst kv)) stack))) todo,
                 VObject props, rhs),
                maskKeys (rev (map fst todo) ++ done) (ownKeys rhs))).
  { induction todo as [|[k v] todo IH]; intros done cs Hnd2 Htodo.
    - cbn [map fold_left flat_map rev app]. now rewrite app_nil_r.
    - cbn [map fold_left flat_map]. unfold step1 at 2. cbn [fst snd].
      inversion Htodo as [|? ? (Hk & Hw & Hlook) Htodo']; subst. cbn [fst snd] in *.
      assert (Hkdone : ~ In k done).
      { intros Hin. apply NoDup_remove_2 in Hnd2. apply Hnd2.
        apply in_or_app. now left. }
      assert (Hmut : forall l, l = v -> mutatedAt (VObject props) k l = VObject props).
      { intros l ->. simpl.
        replace (propKey k) with k by (destruct k; simpl in *; congruence).
        rewrite Hlook. now rewrite insertProp_same. }
      pose proof (indexOf_maskKeys k done (ownKeys rhs) Hrnd Hkdone) as Hidx.
      assert (Hnd3 : NoDup ((k :: done) ++ map fst todo)).
      { cbn [app]. apply NoDup_cons.
        - apply NoDup_remove_2 in Hnd2. exact Hnd2.
        - apply NoDup_remove_1 in Hnd2. exact Hnd2. }
      destruct (indexOf k (maskKeys done (ownKeys rhs))) as [other|].
      + destruct Hidx as [Hin Hnull].
        destruct (Hw (ownValue rhs k) cp (Some k) stack) as [H1 H2].
        destruct (W v (ownValue rhs k) cp (Some k) stack) as [[pushed l] r].
        cbn [fst snd] in *. subst l r.
        rewrite Hmut by reflexivity. rewrite mutatedAt_own_prop by exact Hk.
        rewrite Hnull. rewrite (IH (k :: done) _ Hnd3 Htodo').
        rewrite <- app_assoc. cbn [rev]. now rewrite <- app_assoc.
      + assert (Eown : ownValue rhs k = VUndefined).
        { unfold ownKeys in Hidx. destruct rhs as [| | | | | | | |rps]; try reflexivity.
          simpl. destruct (lookupProp k rps) eqn:El; [|reflexivity].
          exfalso. apply Hidx. simpl.
          assert (In k (map fst rps)).
          { clear -El. induction rps as [|[k' v'] tl IH]; simpl in *; [discriminate|].
            destruct (key_eqb_spec k k'); [now left | right; auto]. }
          apply in_or_app.
          destruct k; simpl in Hk; try discriminate;
            [left | right]; apply filter_In; split; auto. }
        rewrite Eown.
        destruct (Hw VUndefined cp (Some k) stack) as [H1 H2].
        destruct (W v VUndefined cp (Some k) stack) as [[pushed l] r].
        cbn [fst snd] in *. subst l r.
        rewrite Hmut by reflexivity.
        rewrite <- (maskKeys_absent k done (ownKeys rhs) Hidx).
        rewrite (IH (k :: done) _ Hnd3 Htodo').
        rewrite <- app_assoc. cbn [rev]. now rewrite <- app_assoc. }
  rewrite (Hloop1 (enumerated props) [] []); [|now rewrite app_nil_l | exact Hall].
  cbn [app]. rewrite app_nil_r.
  assert (Emask : forall ks, maskKeys (rev lkeys) ks = maskKeys lkeys ks).
  { intros ks. unfold maskKeys. apply map_ext. intros k.
    replace (memKey k (rev lkeys)) with (memKey k lkeys); [reflexivity|].
    destruct (memKey k lkeys) eqn:E1; symmetry.
    - apply memKey_In. apply -> in_rev. now apply memKey_In.
    - apply memKey_not_In. intros Hin. apply in_rev in Hin.
      apply memKey_not_In in E1. contradiction. }
  fold lkeys. rewrite Emask.
  apply secondLoop_eq; [exact Hunit|].
  apply Forall_forall. intros k Hin. unfold ownKeys in Hin.
  destruct rhs; simpl in Hin; try tauto.
  apply in_app_or in Hin.
  destruct Hin as [Hin|Hin]; apply filter_In in Hin; destruct Hin as [_ Hk];
    destruct k; simpl in *; congruence.
Qed.

Lemma deepDiff_arrays (ls rs : list (option value)) (p : list key) (k : option key)
      (stack : list frame) :
  wellFormed (VArray ls) = true ->
  changesOf (VArray ls) (VArray rs) p k stack
  = map (fun i => DiffArray keepEmptyPath (Some (pathWith p k)) i
                    (DiffNew keepEmptyPath None (nthSlot rs i)))
        (rev (seq (List.length ls) (List.length rs - List.length ls)))
    ++ map (fun j => DiffArray keepEmptyPath (Some (pathWith p k)) j
                       (DiffDeleted keepEmptyPath None (nthSlot ls j)))
           (rev (seq (List.length rs) (List.length ls - List.length rs)))
    ++ flat_map (fun i => fst (fst (slotWalk
                                      (deepDiffUndefined dateToString keepEmptyPath None false)
                                      (deepDiff dateToString keepEmptyPath None false)
                                      ls i (nthSlot rs i) (pathWith p k) (Some (KNum i))
                                      ((VArray ls, VArray rs) :: stack))))
                (rev (seq 0 (Nat.min (List.length rs) (List.length ls)))).
Proof.
  intros Hwf. unfold changesOf. cbn [deepDiff]. unfold deepDiffBody.
  replace (filteredOut None p k) with false by (destruct k; reflexivity).
  cbn -[arrayWalk]. fold (pathWith p k).
  rewrite arrayWalk_eq.
  - reflexivity.
  - apply deepDiffUndefined_pure.
  - simpl in Hwf. rewrite forallb_forall in Hwf. apply Forall_forall.
    intros o Hin v ->. apply deepDiff_pure. now apply (Hwf _ Hin).
Qed.

Lemma keysDistinct_NoDup (ks : list key) : keysDistinct ks = true <-> NoDup ks.
Proof.
  induction ks as [|k ks IH]; simpl.
  - split; [constructor | reflexivity].
  - rewrite andb_true_iff, negb_true_iff, IH. fold (memKey k ks).
    rewrite memKey_not_In. split.
    + intros [H1 H2]. now constructor.
    + intros H. inversion H; subst. tauto.
Qed.

Lemma deepDiff_objects (lps rps : list (key * value)) (p : list key) (k : option key)
      (stack : list frame) :
  wellFormed (VObject lps) = true ->
  NoDup (ownKeys (VObject rps)) ->
  changesOf (VObject lps) (VObject rps) p k stack
  = flat_map (fun kv => changesOf (snd kv) (ownValue (VObject rps) (fst kv))
                          (pathWith p k) (Some (fst kv))
                          ((VObject lps, VObject rps) :: stack))
             (enumerated lps)
    ++ flat_map (fun k' => changesOfUndefined (ownValue (VObject rps) k')
                             (pathWith p k) (Some k')
                             ((VObject lps, VObject rps) :: stack))
                (filter (unpaired (map fst (enumerated lps))) (ownKeys (VObject rps))).
Proof.
  intros Hwf Hnd. unfold changesOf at 1. cbn [deepDiff]. unfold deepDiffBody.
  replace (filteredOut None p k) with false by (destruct k; reflexivity).
  cbn -[mappingWalk]. fold (pathWith p k).
  simpl in Hwf. apply andb_prop in Hwf. destruct Hwf as [Hd Hwf].
  rewrite forallb_forall in Hwf.
  rewrite mappingWalk_eq.
  - reflexivity.
  - apply deepDiffUndefined_pure.
  - apply Forall_forall. intros kv Hin. apply deepDiff_pure.
    specialize (Hwf _ Hin). apply andb_prop in Hwf. tauto.
  - now apply keysDistinct_NoDup.
  - exact Hnd.
Qed.

Lemma deepDiff_leaf (l r : value) (p : list key) (k : option key) (stack : list frame) :
  isRegExp l = false ->
  isArray l && isArray r = false ->
  isObject l && isObject r = false ->
  definedAt (typeof l) (option_map fst (hd_error stack)) k
  = definedAt (typeof r) (option_map snd (hd_error stack)) k ->
  changesOf l r p k stack
  = if edited l r then [DiffEdit keepEmptyPath (Some (pathWith p k)) l r] else [].
Proof.
  intros Hre Harr Hobj Hdef. unfold changesOf.
  assert (E : deepDiff dateToString keepEmptyPath None false l
              = deepDiffBody dateToString keepEmptyPath None false
                  (deepDiffUndefined dateToString keepEmptyPath None false)
                  (match l with
                   | VArray items =>
                       Items (map (option_map
                                     (fun v => (v, deepDiff dateToString keepEmptyPath
                                                     None false v))) items)
                   | VObject props =>
                       Props (map (fun kv => (fst kv, (snd kv, deepDiff dateToString keepEmptyPath None false (snd kv)))) props)
                   | _ => NoChildren
                   end) l) by (destruct l; reflexivity).
  rewrite E. clear E. unfold deepDiffBody.
  replace (filteredOut None p k) with false by (destruct k; reflexivity).
  fold (pathWith p k).
  replace (String.eqb (realTypeOf l) "regexp" && String.eqb (realTypeOf r) "regexp")
    with false by (destruct l; simpl in *; congruence).
  cbv zeta. rewrite Hdef.
  replace (negb (definedAt (typeof r) (option_map snd (hd_error stack)) k)
           && definedAt (typeof r) (option_map snd (hd_error stack)) k)
    with false by (now destruct (definedAt (typeof r) _ k)).
  unfold edited.
  destruct (negb (String.eqb (realTypeOf l) (realTypeOf r))) eqn:E1; [reflexivity|].
  destruct (String.eqb (realTypeOf l) "date" && timesDiffer l r) eqn:E2; [reflexivity|].
  cbn [orb].
  destruct (String.eqb (typeof l) "object" && negb (strictEq l VNull)
            && negb (strictEq r VNull)) eqn:E3.
  - cbn [negb andb].
    apply negb_false_iff, String.eqb_eq in E1.
    destruct l as [| | | | | | |ls|lps]; try discriminate;
      destruct r as [| | | | | | |rs|rps]; try discriminate.
    (* two dates with the same time: a mapping without keys *)
    reflexivity.
  - cbn [negb andb].
    destruct (negb (strictEq l r)); [|reflexivity].
    destruct (negb (String.eqb (typeof l) "number" && isNaN l && isNaN r)); reflexivity.
Qed.

Lemma deepDiff_deleted (l : value) (p : list key) (k : option key) (stack : list frame) :
  isRegExp l = false ->
  definedAt (typeof l) (option_map fst (hd_error stack)) k = true ->
  definedAt "undefined" (option_map snd (hd_error stack)) k = false ->
  changesOf l VUndefined p k stack
  = [DiffDeleted keepEmptyPath (Some (pathWith p k)) l].
Proof.
  intros Hre Hl Hr. unfold changesOf.
  destruct l; try discriminate; cbn [deepDiff]; unfold deepDiffBody;
    (replace (filteredOut None p k) with false by (destruct k; reflexivity));
    fold (pathWith p k); cbv zeta;
    cbn [realTypeOf typeof String.eqb Ascii.eqb Bool.eqb andb negb] in *;
    rewrite ?Hl, Hr; reflexivity.
Qed.

Lemma deepDiffUndefined_new (r : value) (p : list key) (k : option key)
      (stack : list frame) :
  definedAt "undefined" (option_map fst (hd_error stack)) k = false ->
  definedAt (typeof r) (option_map snd (hd_error stack)) k = true ->
  changesOfUndefined r p k stack
  = [DiffNew keepEmptyPath (Some (pathWith p k)) r].
Proof.
  intros Hl Hr. unfold changesOfUndefined, deepDiffUndefined, deepDiffBody.
  replace (filteredOut None p k) with false by (destruct k; reflexivity).
  fold (pathWith p k). cbv zeta.
  cbn [realTypeOf typeof String.eqb Ascii.eqb Bool.eqb andb negb] in *.
  rewrite Hl, Hr. reflexivity.
Qed.

End WalkEquations.

(** ** Values the walk cannot tell apart *)

Lemma agree_array (xs ys : list (option value)) :
  agree (VArray xs) (VArray ys)
  <-> Forall2 (fun o o' => exists a b, o = Some a /\ o' = Some b /\ agree a b) xs ys.
Proof.
  cbn [agree]. revert ys. induction xs as [|[a|] xs IH]; intros [|[b|] ys];
    try (split; [tauto | intros H; inversion H; subst;
                          repeat match goal with
                                 | H : exists _, _ |- _ => destruct H
                                 | H : _ /\ _ |- _ => destruct H
                                 end; discriminate]).
  - split; [constructor | tauto].
  - split.
    + intros [Hab Hrest]. constructor; [eauto | now apply IH].
    + intros H. inversion H as [|? ? ? ? (a' & b' & Ea & Eb & Hab) Hrest]; subst.
      injection Ea as <-. injection Eb as <-.
      split; [exact Hab | now apply IH].
Qed.

Lemma agree_object (xps yps : list (key * value)) :
  agree (VObject xps) (VObject yps)
  <-> NoDup (map fst xps)
      /\ Forall (fun kv => isNumberKey (fst kv) = false
                           /\ exists b, lookupProp (fst kv) yps = Some b
                                        /\ agree (snd kv) b) xps
      /\ (forall k, truthyKey (Some k) = true -> isNumberKey k = false ->
                    lookupProp k yps <> None -> lookupProp k xps <> None).
Proof.
  cbn [agree].
  assert (E : forall ps,
             (fix props (ps : list (key * value)) : Prop :=
                match ps with
                | [] => True
                | kv :: ps' =>
                    (isNumberKey (fst kv) = false
                     /\ exists b, lookupProp (fst kv) yps = Some b /\ agree (snd kv) b)
                    /\ props ps'
                end) ps
             <-> Forall (fun kv => isNumberKey (fst kv) = false
                                   /\ exists b, lookupProp (fst kv) yps = Some b
                                                /\ agree (snd kv) b) ps).
  { induction ps as [|kv ps IH].
    - split; [constructor | tauto].
    - split.
      + intros [H1 H2]. constructor; [exact H1 | now apply IH].
      + intros H. inversion H; subst. split; [assumption | now apply IH]. }
  rewrite E. tauto.
Qed.

Lemma plain_wellFormed (v : value) : plain v = true -> wellFormed v = true.
Proof.
  induction v as [| | | | | | |items IH|props IH] using value_nested_ind;
    try reflexivity.
  - simpl. rewrite !forallb_forall. intros H o Hin. specialize (H o Hin).
    destruct o as [x|]; [|discriminate].
    rewrite Forall_forall in IH. now apply (IH _ Hin x eq_refl).
  - simpl. rewrite !andb_true_iff, !forallb_forall. intros [Hd H]. split; [exact Hd|].
    intros kv Hin. specialize (H kv Hin). apply andb_prop in H. destruct H as [H1 H2].
    rewrite H1. simpl. rewrite Forall_forall in IH. now apply (IH _ Hin).
Qed.

Lemma plain_item (items : list (option value)) (i : nat) :
  plain (VArray items) = true -> i < List.length items ->
  exists v, nth_error items i = Some (Some v) /\ plain v = true.
Proof.
  simpl. rewrite forallb_forall. intros H Hi.
  destruct (nth_error items i) as [o|] eqn:E.
  - specialize (H o (nth_error_In _ _ E)). destruct o as [v|]; [eauto | discriminate].
  - apply nth_error_None in E. lia.
Qed.

Lemma plain_prop (props : list (key * value)) (k : key) (v : value) :
  plain (VObject props) = true -> lookupProp k props = Some v -> plain v = true.
Proof.
  simpl. rewrite andb_true_iff, forallb_forall. intros [_ H] Hlook.
  assert (Hin : In (k, v) props \/ exists k', In (k', v) props).
  { clear H. induction props as [|[k' v'] tl IH]; simpl in *; [discriminate|].
    destruct (key_eqb k k'); [injection Hlook as ->; right; exists k'; now left|].
    destruct (IH Hlook) as [Hin|[k'' Hin]]; [left; now right | right; exists k''; now right]. }
  destruct Hin as [Hin|[k' Hin]]; specialize (H _ Hin); apply andb_prop in H; tauto.
Qed.

Lemma lookupProp_In (k : key) (v : value) (ps : list (key * value)) :
  lookupProp k ps = Some v -> In (k, v) ps.
Proof.
  induction ps as [|[k' v'] tl IH]; simpl; [discriminate|].
  destruct (key_eqb_spec k k') as [->|Hne].
  - intros [= ->]. now left.
  - intros H. right. auto.
Qed.

Lemma lookupProp_None (k : key) (ps : list (key * value)) :
  lookupProp k ps = None <-> ~ In k (map fst ps).
Proof.
  induction ps as [|[k' v'] tl IH]; simpl; [tauto|].
  destruct (key_eqb_spec k k') as [->|Hne].
  - split; [discriminate | intros H; exfalso; apply H; now left].
  - rewrite IH. split; [intros H [E|Hin]; [congruence | tauto] | tauto].
Qed.

Lemma lookupProp_NoDup (k : key) (v : value) (ps : list (key * value)) :
  NoDup (map fst ps) -> In (k, v) ps -> lookupProp k ps = Some v.
Proof.
  intros Hnd. apply lookupProp_distinct. now apply keysDistinct_NoDup.
Qed.

Lemma agree_refl (v : value) : plain v = true -> agree v v.
Proof.
  induction v as [| | | | | |s|items IH|props IH] using value_nested_ind;
    try reflexivity.
  - destruct t; [discriminate | reflexivity].
  - discriminate.
  - intros Hp. apply agree_array. simpl in Hp. rewrite forallb_forall in Hp.
    rewrite Forall_forall in IH.
    induction items as [|o items IHl]; constructor.
    + destruct o as [a|]; [|now specialize (Hp None (or_introl eq_refl))].
      exists a, a. repeat split. apply (IH (Some a)); [now left | reflexivity|].
      apply (Hp (Some a)). now left.
    + apply IHl.
      * intros x Hx. apply IH. now right.
      * intros x Hx. apply Hp. now right.
  - intros Hp. apply agree_object. simpl in Hp. apply andb_prop in Hp.
    destruct Hp as [Hd Hp]. apply keysDistinct_NoDup in Hd.
    rewrite forallb_forall in Hp. rewrite Forall_forall in IH.
    split; [exact Hd | split].
    + apply Forall_forall. intros [k v] Hin. specialize (Hp _ Hin).
      apply andb_prop in Hp. destruct Hp as [Hk Hv]. cbn [fst snd] in *.
      split; [now apply negb_true_iff in Hk|].
      exists v. split; [now apply lookupProp_NoDup|].
      now apply (IH _ Hin).
    + tauto.
Qed.

Lemma flat_map_nil {A B : Type} (f : A -> list B) (l : list A) :
  (forall x, In x l -> f x = []) -> flat_map f l = [].
Proof.
  induction l as [|x l IH]; intros H; simpl; [reflexivity|].
  rewrite (H x (or_introl eq_refl)). apply IH. intros y Hy. apply H. now right.
Qed.

Lemma NoDup_strings_then_symbols (ks : list key) :
  NoDup ks -> NoDup (filter isStringKey ks ++ filter isSymbolKey ks).
Proof.
  intros Hnd. apply NoDup_app; try now apply NoDup_filter.
  intros k H1 H2. apply filter_In in H1, H2.
  destruct k; simpl in *; destruct H1, H2; congruence.
Qed.

Lemma plain_ownKeys (y : value) : plain y = true -> NoDup (ownKeys y).
Proof.
  destruct y; try (intros _; constructor).
  simpl. rewrite andb_true_iff. intros [Hd _]. unfold ownKeys. simpl.
  apply NoDup_strings_then_symbols. now apply keysDistinct_NoDup.
Qed.

Lemma agree_wellFormed (x : value) : forall y, agree x y -> wellFormed x = true.
Proof.
  induction x as [| | | | | |s|items IH|props IH] using value_nested_ind;
    intros y Hxy; try reflexivity.
  - destruct y as [| | | | | | |ys|]; try contradiction.
    apply agree_array in Hxy. simpl. apply forallb_forall. intros o Hin.
    rewrite Forall_forall in IH.
    destruct (In_nth_error _ _ Hin) as [i Ei].
    revert ys Hxy i Ei. induction items as [|o' items IHl]; intros ys Hxy i Ei.
    + destruct i; discriminate.
    + inversion Hxy as [|? ? ? ? (a & b & -> & -> & Hab) Hrest]; subst.
      destruct i as [|i]; simpl in Ei.
      * injection Ei as <-. apply (IH (Some a) (or_introl eq_refl) a eq_refl b Hab).
      * apply (IHl (fun x Hx => IH x (or_intror Hx))
                   (nth_error_In _ _ Ei) _ Hrest i Ei).
  - destruct y as [| | | | | | | |yps]; try contradiction.
    apply agree_object in Hxy. destruct Hxy as (Hnd & Hall & _).
    simpl. apply andb_true_iff. split; [now apply keysDistinct_NoDup|].
    apply forallb_forall. intros kv Hin. rewrite Forall_forall in *.
    destruct (Hall kv Hin) as (Hk & b & _ & Hab).
    rewrite Hk. simpl. apply (IH kv Hin b Hab).
Qed.

Section NoChanges.

Variable dateToString : number -> string.
Variable keepEmptyPath : bool.

Local Abbreviation changesOf := (changesOf dateToString keepEmptyPath).

Lemma definedAt_own (type : string) (parent : value) (k : key) :
  truthy parent = true -> hasOwnProperty parent k = true ->
  definedAt type (Some parent) (Some k) = true.
Proof.
  intros H1 H2. unfold definedAt. rewrite H1, H2. apply orb_true_r.
Qed.

(** Values that agree are reported equal. *)
Lemma agree_no_changes (x : value) :
  forall y, agree x y -> plain y = true ->
  forall p k stack,
    definedAt (typeof x) (option_map fst (hd_error stack)) k
    = definedAt (typeof y) (option_map snd (hd_error stack)) k ->
    changesOf x y p k stack = [].
Proof.
  induction x as [| | | |s| |s|xs IH|xps IH] using value_nested_ind;
    intros y Hxy Hy p k stack Hdef.
  1-5: (cbn [agree] in Hxy; subst y; rewrite deepDiff_leaf; auto;
        unfold edited; simpl;
        rewrite ?Bool.eqb_reflx, ?Z.eqb_refl, ?String.eqb_refl; try reflexivity).
  - destruct n as [|z]; simpl; rewrite ?Z.eqb_refl; reflexivity.
  - destruct t as [|z]; [contradiction|]. cbn [agree] in Hxy. subst y.
    rewrite deepDiff_leaf; auto. unfold edited. simpl.
    rewrite Z.sub_diag. reflexivity.
  - contradiction.
  - destruct y as [| | | | | | |ys|]; try contradiction.
    pose proof (agree_wellFormed _ _ Hxy) as Hwf.
    apply agree_array in Hxy.
    rewrite deepDiff_arrays by exact Hwf.
    rewrite (Forall2_length Hxy). rewrite Nat.sub_diag. cbn [seq rev map app].
    apply flat_map_nil. intros i Hi. apply in_rev, in_seq in Hi.
    rewrite Nat.min_id in Hi.
    assert (Hslot : exists a b, nth_error xs i = Some (Some a)
                                /\ nth_error ys i = Some (Some b) /\ agree a b).
    { clear -Hxy Hi. destruct Hi as [_ Hi]. cbn [plus] in Hi.
      revert i Hi. induction Hxy as [|o o' xs ys (a & b & -> & -> & Hab) _ IHl];
        intros i Hi; [simpl in Hi; lia|].
      destruct i as [|i]; simpl; [eauto|]. apply IHl. simpl in Hi. lia. }
    destruct Hslot as (a & b & Ea & Eb & Hab).
    unfold slotWalk, nthSlot. rewrite Ea, Eb.
    rewrite Forall_forall in IH.
    apply (IH (Some a) (nth_error_In _ _ Ea) a eq_refl b Hab).
    + destruct (plain_item ys i Hy) as (v & Ev & Hv); [|congruence].
      apply nth_error_Some. congruence.
    + cbn [hd_error option_map fst snd]. rewrite !definedAt_own; try reflexivity.
      * simpl. now rewrite Eb.
      * simpl. now rewrite Ea.
  - destruct y as [| | | | | | | |yps]; try contradiction.
    pose proof (agree_wellFormed _ _ Hxy) as Hwf.
    apply agree_object in Hxy. destruct Hxy as (Hnd & Hall & Hback).
    rewrite deepDiff_objects; [|exact Hwf | now apply plain_ownKeys].
    rewrite Forall_forall in IH, Hall.
    rewrite flat_map_nil, flat_map_nil; [reflexivity | |].
    + intros k' Hk'. exfalso. apply filter_In in Hk'. destruct Hk' as [Hin Hun].
      unfold unpaired in Hun. apply andb_prop in Hun. destruct Hun as [Ht Hmem].
      apply negb_true_iff, memKey_not_In in Hmem. apply Hmem.
      assert (Hk : isNumberKey k' = false /\ In k' (map fst yps)).
      { unfold ownKeys in Hin. simpl in Hin. apply in_app_or in Hin.
        destruct Hin as [Hin|Hin]; apply filter_In in Hin; destruct Hin as [Hin Hk];
          (split; [destruct k'; simpl in *; congruence | exact Hin]). }
      destruct Hk as [Hk Hin'].
      assert (Hx : lookupProp k' xps <> None).
      { apply Hback; auto. rewrite lookupProp_None. tauto. }
      destruct (lookupProp k' xps) as [v|] eqn:El; [|congruence].
      apply lookupProp_In in El.
      apply in_map_iff. exists (k', v). split; [reflexivity|].
      unfold enumerated. apply in_or_app.
      destruct k'; simpl in Hk; try discriminate;
        [left | right]; apply filter_In; auto.
    + intros [k' a] Hin. cbn [fst snd].
      assert (Hin' : In (k', a) xps).
      { unfold enumerated in Hin. apply in_app_or in Hin.
        destruct Hin as [Hin|Hin]; apply filter_In in Hin; tauto. }
      destruct (Hall _ Hin') as (Hk & b & Hb & Hab). cbn [fst snd] in *.
      unfold ownValue. rewrite Hb.
      apply (IH _ Hin' b Hab).
      * now apply (plain_prop yps k').
      * cbn [hd_error option_map fst snd]. rewrite !definedAt_own; try reflexivity.
        -- simpl. replace (propKey k') with k' by (destruct k'; simpl in *; congruence).
           now rewrite Hb.
        -- simpl. replace (propKey k') with k' by (destruct k'; simpl in *; congruence).
           now rewrite (lookupProp_NoDup _ _ _ Hnd Hin').
Qed.

End NoChanges.

(** ** Replaying records below a path *)

Lemma propKey_plain (k : key) : isNumberKey k = false -> propKey k = k.
Proof. destruct k; simpl; congruence. Qed.

Lemma replay_Err (op : value -> change -> result value) (cs : list change) (e : error) :
  fold_left (fun t c => t' <- t ;; op t' c) cs (Err e) = Err e.
Proof. induction cs as [|c cs IH]; simpl; auto. Qed.

Lemma replay_cons (op : value -> change -> result value) (it : value)
      (c : change) (cs : list change) :
  replay op it (c :: cs) = (t <- op it c ;; replay op t cs).
Proof.
  unfold replay. simpl. destruct (op it c) as [t|e]; simpl; [reflexivity|].
  apply replay_Err.
Qed.

Lemma replay_app (op : value -> change -> result value) (it : value)
      (cs cs' : list change) :
  replay op it (cs ++ cs') = (t <- replay op it cs ;; replay op t cs').
Proof.
  revert it. induction cs as [|c cs IH]; intros it; [reflexivity|].
  cbn [app]. rewrite !replay_cons. destruct (op it c) as [t|e]; simpl; auto.
Qed.

Lemma replay_ext (op op' : value -> change -> result value) (it : value)
      (cs : list change) :
  (forall t c, In c cs -> isContainer t = true -> op t c = op' t c) ->
  (forall t c t', In c cs -> isContainer t = true -> op t c = Ok t' ->
                  isContainer t' = true) ->
  isContainer it = true ->
  replay op it cs = replay op' it cs.
Proof.
  revert it. induction cs as [|c cs IH]; intros it Hext Hcont Hit; [reflexivity|].
  rewrite !replay_cons. rewrite <- (Hext it c (or_introl eq_refl) Hit).
  destruct (op it c) as [t|e] eqn:E; simpl; [|reflexivity].
  apply IH.
  - intros t0 c0 Hin. apply Hext. now right.
  - intros t0 c0 t' Hin. apply Hcont. now right.
  - apply (Hcont it c t (or_introl eq_refl) Hit E).
Qed.

(** *** Slots *)

Lemma holds_getProp (C : value) (k : key) (v : value) :
  holds C k v -> getProp C k = Ok v.
Proof.
  destruct C as [| | | | | | |items|ps]; simpl; try tauto.
  - destruct k as [s|i|s]; try tauto. unfold nthSlot. now intros ->.
  - intros [Hk H]. now rewrite (propKey_plain _ Hk), H.
Qed.

Lemma holds_hasOwnProperty (C : value) (k : key) (v : value) :
  holds C k v -> hasOwnProperty C k = true.
Proof.
  destruct C as [| | | | | | |items|ps]; simpl; try tauto.
  - destruct k as [s|i|s]; try tauto. now intros ->.
  - intros [Hk H]. rewrite (propKey_plain _ Hk). now rewrite H.
Qed.

Lemma holds_isContainer (C : value) (k : key) (v : value) :
  holds C k v -> isContainer C = true.
Proof. destruct C; simpl; tauto. Qed.

Lemma holds_mutatedAt_same (C : value) (k : key) (v : value) :
  holds C k v -> mutatedAt C k v = C.
Proof.
  destruct C as [| | | | | | |items|ps]; simpl; try tauto.
  - destruct k as [s|i|s]; try tauto. intros H. rewrite H. now rewrite setSlot_same.
  - intros [Hk H]. rewrite (propKey_plain _ Hk), H. now rewrite insertProp_same.
Qed.

Lemma holds_mutatedAt (C : value) (k : key) (v v' : value) :
  holds C k v -> holds (mutatedAt C k v') k v'.
Proof.
  destruct C as [| | | | | | |items|ps]; simpl; try tauto.
  - destruct k as [s|i|s]; try tauto. intros H. rewrite H. simpl.
    apply nth_error_setSlot_same.
  - intros [Hk H]. rewrite (propKey_plain _ Hk), H. simpl.
    split; [exact Hk | apply lookupProp_insertProp_same].
Qed.

Lemma nth_error_setSlot_other (n m : nat) (v : value) (items : list (option value)) :
  n <> m -> m < List.length items ->
  nth_error (setSlot n v items) m = nth_error items m.
Proof.
  revert m items. induction n as [|n IH]; intros [|m] [|x tl] Hne Hm;
    simpl in *; try lia; auto.
  apply IH; lia.
Qed.

Lemma length_setSlot (n : nat) (v : value) (items : list (option value)) :
  n < List.length items -> List.length (setSlot n v items) = List.length items.
Proof.
  revert items. induction n as [|n IH]; intros [|x tl] Hn; simpl in *; try lia.
  rewrite IH; lia.
Qed.

Lemma holds_mutatedAt_other (C : value) (k k' : key) (u v w : value) :
  k <> k' -> holds C k u -> holds C k' w -> holds (mutatedAt C k v) k' w.
Proof.
  intros Hne. destruct C as [| | | | | | |items|ps]; simpl; try tauto.
  - destruct k' as [s|j|s]; try tauto. destruct k as [s|i|s]; try tauto.
    intros Hi Hj. rewrite Hi. simpl.
    rewrite nth_error_setSlot_other; [exact Hj | congruence |].
    apply nth_error_Some. congruence.
  - intros [Hk Hu] [Hk' Hw]. rewrite (propKey_plain _ Hk), Hu. simpl.
    split; [exact Hk'|]. now rewrite lookupProp_insertProp_other.
Qed.

Lemma mutatedAt_twice (C : value) (k : key) (v a b : value) :
  holds C k v -> mutatedAt (mutatedAt C k a) k b = mutatedAt C k b.
Proof.
  destruct C as [| | | | | | |items|ps]; simpl; try tauto.
  - destruct k as [s|i|s]; try tauto. intros H. rewrite H. simpl.
    rewrite nth_error_setSlot_same. f_equal.
    clear H. revert items. induction i as [|i IH]; intros [|x tl]; simpl; auto.
    + f_equal. apply IH.
    + f_equal. apply IH.
  - intros [Hk H]. rewrite (propKey_plain _ Hk), H. simpl.
    rewrite (propKey_plain _ Hk), lookupProp_insertProp_same. f_equal.
    clear H. induction ps as [|[k' v'] tl IH]; simpl.
    + now rewrite key_eqb_refl.
    + destruct (key_eqb k k') eqn:E; simpl; rewrite E; auto. now rewrite IH.
Qed.

Lemma holds_setProp (C : value) (k : key) (v v' : value) :
  holds C k v -> setProp C k v' = Ok (mutatedAt C k v').
Proof.
  destruct C as [| | | | | | |items|ps]; simpl; try tauto.
  - destruct k as [s|i|s]; try tauto. now intros ->.
  - intros [Hk H]. now rewrite (propKey_plain _ Hk), H.
Qed.

Lemma isContainer_mutatedAt (C : value) (k : key) (v : value) :
  isContainer (mutatedAt C k v) = isContainer C.
Proof.
  destruct C as [| | | | | | |items|ps]; simpl; auto.
  - destruct k; auto. destruct (nth_error items n) as [[x|]|]; auto.
  - destruct (lookupProp (propKey k) ps); auto.
Qed.

Lemma isContainer_setProp (C : value) (k : key) (v C' : value) :
  setProp C k v = Ok C' -> isContainer C' = true.
Proof.
  destruct C; simpl; try discriminate.
  - destruct k; try discriminate. now intros [= <-].
  - now intros [= <-].
Qed.

Lemma isContainer_deleteProp (C : value) (k : key) (C' : value) :
  isContainer C = true -> deleteProp C k = Ok C' -> isContainer C' = true.
Proof.
  destruct C; simpl; try discriminate.
  - destruct k; try discriminate. now intros _ [= <-].
  - now intros _ [= <-].
Qed.

Lemma typeof_container (v : value) :
  isContainer v = true -> String.eqb (typeof v) "undefined" = false.
Proof. destruct v; simpl; congruence. Qed.

(** *** One step down a path *)

Lemma applyWalk_step (C child : value) (k k' : key) (q : list key)
      (terminal : value -> key -> result value) :
  holds C k child -> isContainer child = true ->
  applyWalk C (k :: k' :: q) terminal
  = (child' <- applyWalk child (k' :: q) terminal ;; Ok (mutatedAt C k child')).
Proof.
  intros Hh Hc. cbn [applyWalk]. rewrite (holds_getProp _ _ _ Hh). cbn [bind].
  rewrite (typeof_container _ Hc). cbn [bind].
  now rewrite (holds_getProp _ _ _ Hh).
Qed.

Lemma revertWalk_step (C child : value) (k k' : key) (q : list key)
      (terminal : value -> key -> result value) :
  holds C k child -> isContainer child = true ->
  revertWalk C (k :: k' :: q) terminal
  = (child' <- revertWalk child (k' :: q) terminal ;; Ok (mutatedAt C k child')).
Proof.
  intros Hh Hc. cbn [revertWalk]. rewrite (holds_getProp _ _ _ Hh). cbn [bind].
  rewrite (typeof_container _ Hc). cbn [bind].
  now rewrite (holds_getProp _ _ _ Hh).
Qed.

Lemma skipn_prefix {A : Type} (p rest : list A) :
  skipn (List.length p) (p ++ rest) = rest.
Proof. induction p; simpl; auto. Qed.

Lemma skipn_prefix_S {A : Type} (p rest : list A) (k : A) :
  skipn (S (List.length p)) (p ++ k :: rest) = rest.
Proof. induction p; simpl; auto. Qed.

Lemma applyBelow_step (C child : value) (p : list key) (k k' : key) (q : list key)
      (c : change) :
  path c = Some (p ++ k :: k' :: q) ->
  holds C k child -> isContainer child = true ->
  applyBelow (List.length p) C c
  = (child' <- applyBelow (S (List.length p)) child c ;; Ok (mutatedAt C k child')).
Proof.
  intros Hp Hh Hc. unfold applyBelow. rewrite Hp.
  rewrite skipn_prefix, skipn_prefix_S. now apply applyWalk_step.
Qed.

Lemma revertBelow_step (C child : value) (p : list key) (k k' : key) (q : list key)
      (c : change) :
  path c = Some (p ++ k :: k' :: q) ->
  holds C k child -> isContainer child = true ->
  revertBelow (List.length p) C c
  = (child' <- revertBelow (S (List.length p)) child c ;; Ok (mutatedAt C k child')).
Proof.
  intros Hp Hh Hc. unfold revertBelow. rewrite Hp.
  rewrite skipn_prefix, skipn_prefix_S. now apply revertWalk_step.
Qed.

(** *** A replay returns a container *)

Ltac bind_inv H :=
  repeat match type of H with
         | bind ?m _ = Ok _ =>
             let x := fresh "x" in
             let E := fresh "E" in
             destruct m as [x|] eqn:E; [cbn [bind] in H | discriminate H]
         end.

Lemma applyTerminal_container (c : change) (it : value) (k : key) (it' : value) :
  isContainer it = true -> applyTerminal c it k = Ok it' -> isContainer it' = true.
Proof.
  intros Hit H. unfold applyTerminal in H.
  destruct (kindIs c "A").
  - bind_inv H. injection H as <-. rewrite isContainer_mutatedAt.
    destruct (String.eqb (typeof x) "undefined").
    + now apply isContainer_setProp in E0.
    + now injection E0 as <-.
  - destruct (kindIs c "D"); [now apply isContainer_deleteProp in H|].
    destruct (kindIs c "E" || kindIs c "N"); [now apply isContainer_setProp in H|].
    now injection H as <-.
Qed.

Lemma revertTerminal_container (c : change) (it : value) (k : key) (it' : value) :
  isContainer it = true -> revertTerminal c it k = Ok it' -> isContainer it' = true.
Proof.
  intros Hit H. unfold revertTerminal in H.
  destruct (kindIs c "A").
  - bind_inv H. injection H as <-. now rewrite isContainer_mutatedAt.
  - destruct (kindIs c "D"); [now apply isContainer_setProp in H|].
    destruct (kindIs c "E"); [now apply isContainer_setProp in H|].
    destruct (kindIs c "N"); [now apply isContainer_deleteProp in H|].
    now injection H as <-.
Qed.

Lemma applyWalk_container (terminal : value -> key -> result value) :
  (forall it k it', isContainer it = true -> terminal it k = Ok it' ->
                    isContainer it' = true) ->
  forall p it it',
    isContainer it = true -> applyWalk it p terminal = Ok it' ->
    isContainer it' = true.
Proof.
  intros Hterm p. induction p as [|k rest IH]; intros it it' Hit H.
  - now apply Hterm in H.
  - destruct rest as [|k' q]; [now apply Hterm in H|].
    cbn [applyWalk] in H. bind_inv H. injection H as <-.
    rewrite isContainer_mutatedAt.
    destruct (String.eqb (typeof x) "undefined").
    + now apply isContainer_setProp in E0.
    + now injection E0 as <-.
Qed.

Lemma revertWalk_container (terminal : value -> key -> result value) :
  (forall it k it', isContainer it = true -> terminal it k = Ok it' ->
                    isContainer it' = true) ->
  forall p it it',
    isContainer it = true -> revertWalk it p terminal = Ok it' ->
    isContainer it' = true.
Proof.
  intros Hterm p. induction p as [|k rest IH]; intros it it' Hit H.
  - now apply Hterm in H.
  - destruct rest as [|k' q]; [now apply Hterm in H|].
    cbn [revertWalk] in H. bind_inv H. injection H as <-.
    rewrite isContainer_mutatedAt.
    destruct (String.eqb (typeof x) "undefined").
    + now apply isContainer_setProp in E0.
    + now injection E0 as <-.
Qed.

Lemma applyBelow_container (n : nat) (it : value) (c : change) (it' : value) :
  isContainer it = true -> applyBelow n it c = Ok it' -> isContainer it' = true.
Proof.
  unfold applyBelow. destruct (path c); [|discriminate].
  apply applyWalk_container. apply applyTerminal_container.
Qed.

Lemma revertBelow_container (n : nat) (it : value) (c : change) (it' : value) :
  isContainer it = true -> revertBelow n it c = Ok it' -> isContainer it' = true.
Proof.
  unfold revertBelow. destruct (path c); [|discriminate].
  apply revertWalk_container. apply revertTerminal_container.
Qed.

(** *** Lifting a replay from a slot to its container *)

Section Lifting.

Variable op : nat -> value -> change -> result value.
Hypothesis op_container :
  forall n it c it', isContainer it = true -> op n it c = Ok it' ->
                     isContainer it' = true.
Hypothesis op_step :
  forall C child p k k' q c,
    path c = Some (p ++ k :: k' :: q) ->
    holds C k child -> isContainer child = true ->
    op (List.length p) C c
    = (child' <- op (S (List.length p)) child c ;; Ok (mutatedAt C k child')).

Lemma replay_lift (p : list key) (k : key) (cs : list change) :
  below p k cs ->
  forall C child,
    holds C k child -> isContainer child = true ->
    replay (op (List.length p)) C cs
    = (child' <- replay (op (S (List.length p))) child cs ;;
       Ok (mutatedAt C k child')).
Proof.
  intros Hcs. induction Hcs as [|c cs (k' & q & Hp) _ IH]; intros C child Hh Hc.
  - unfold replay. simpl. now rewrite (holds_mutatedAt_same _ _ _ Hh).
  - rewrite !replay_cons. rewrite (op_step _ _ _ _ _ _ _ Hp Hh Hc).
    destruct (op (S (List.length p)) child c) as [child1|e] eqn:E; [|reflexivity].
    cbn [bind].
    rewrite (IH (mutatedAt C k child1) child1).
    + destruct (replay (op (S (List.length p))) child1 cs); [|reflexivity].
      cbn [bind]. now rewrite (mutatedAt_twice _ _ _ _ _ Hh).
    + now apply (holds_mutatedAt _ _ _ _ Hh).
    + now apply (op_container _ _ _ _ Hc E).
Qed.

(** A replay of segments that act on separate slots. *)
Lemma replay_segments {K : Type} (n : nat) (seg : K -> list change)
      (pre : K -> value -> Prop) (act : K -> value -> value) (keys : list K) :
  NoDup keys ->
  (forall x A, In x keys -> pre x A -> replay (op n) A (seg x) = Ok (act x A)) ->
  (forall x x' A, In x keys -> In x' keys -> x <> x' -> pre x A -> pre x (act x' A)) ->
  forall A, (forall x, In x keys -> pre x A) ->
            replay (op n) A (flat_map seg keys)
            = Ok (fold_left (fun A x => act x A) keys A).
Proof.
  intros Hnd Hseg Hpre. induction keys as [|x keys IH]; intros A HA.
  - reflexivity.
  - cbn [flat_map fold_left]. rewrite replay_app.
    rewrite (Hseg x A (or_introl eq_refl) (HA x (or_introl eq_refl))). cbn [bind].
    inversion Hnd as [|? ? Hnotin Hnd']; subst.
    apply IH; auto.
    + intros y B Hy. apply Hseg. now right.
    + intros y y' B Hy Hy'. apply Hpre; now right.
    + intros y Hy. apply Hpre; [now right | now left | | ].
      * intros ->. contradiction.
      * apply HA. now right.
Qed.

End Lifting.

Lemma finite_choice {A B : Type} (P : A -> B -> Prop) (d : B) (l : list A) :
  (forall x y : A, {x = y} + {x <> y}) ->
  (forall a, In a l -> exists b, P a b) ->
  exists f : A -> B, forall a, In a l -> P a (f a).
Proof.
  intros dec. induction l as [|a l IH]; intros H.
  - exists (fun _ => d). intros a [].
  - destruct (H a (or_introl eq_refl)) as [b Hb].
    destruct IH as [f Hf]; [intros x Hx; apply H; now right|].
    exists (fun x => if dec x a then b else f x).
    intros x [<-|Hx].
    + destruct (dec a a); [exact Hb | congruence].
    + destruct (dec x a) as [->|Hne]; [exact Hb | now apply Hf].
Qed.

(** *** Growing and shrinking an array from its end *)

Lemma setSlot_extend (ls : list (option value)) (e : nat) (v : value) :
  setSlot (List.length ls + e) v ls = ls ++ repeat None e ++ [Some v].
Proof.
  induction ls as [|x ls IH]; simpl.
  - induction e as [|e IHe]; simpl; [reflexivity|]. now rewrite IHe.
  - now rewrite IH.
Qed.

Lemma setSlot_fill (ls : list (option value)) (e : nat) (v : value)
      (o : option value) (suffix : list (option value)) :
  setSlot (List.length ls + e) v (ls ++ repeat None e ++ o :: suffix)
  = ls ++ repeat None e ++ Some v :: suffix.
Proof.
  induction ls as [|x ls IH]; simpl.
  - induction e as [|e IHe]; simpl; [reflexivity|]. now rewrite IHe.
  - now rewrite IH.
Qed.

Lemma repeat_snoc {A : Type} (x : A) (n : nat) : repeat x (S n) = repeat x n ++ [x].
Proof. induction n as [|n IH]; simpl; [reflexivity|]. now rewrite <- IH. Qed.

Lemma rev_seq_S (a d : nat) : rev (seq a (S d)) = (a + d) :: rev (seq a d).
Proof. rewrite seq_S, rev_app_distr. reflexivity. Qed.

Lemma fill_from_end (ls : list (option value)) (f : nat -> value) :
  forall e suffix,
    fold_left (fun items i => setSlot i (f i) items)
              (rev (seq (List.length ls) e)) (ls ++ repeat None e ++ suffix)
    = ls ++ map (fun i => Some (f i)) (seq (List.length ls) e) ++ suffix.
Proof.
  induction e as [|e IH]; intros suffix; [reflexivity|].
  rewrite rev_seq_S. cbn [fold_left].
  rewrite repeat_snoc, <- app_assoc. cbn [app].
  rewrite setSlot_fill, IH, seq_S, map_app, <- app_assoc. reflexivity.
Qed.

Lemma grow_from_end (ls : list (option value)) (f : nat -> value) (d : nat) :
  fold_left (fun items i => setSlot i (f i) items)
            (rev (seq (List.length ls) d)) ls
  = ls ++ map (fun i => Some (f i)) (seq (List.length ls) d).
Proof.
  destruct d as [|e]; [now rewrite app_nil_r|].
  rewrite rev_seq_S. cbn [fold_left].
  rewrite setSlot_extend.
  rewrite (fill_from_end ls f e [Some (f (List.length ls + e))]).
  now rewrite seq_S, map_app.
Qed.

Lemma shrink_from_end (items : list (option value)) (b d : nat) :
  List.length items = b + d ->
  fold_left (fun items j => firstn j items) (rev (seq b d)) items = firstn b items.
Proof.
  revert items. induction d as [|d IH]; intros items Hlen.
  - simpl. rewrite firstn_all2; [reflexivity | lia].
  - rewrite rev_seq_S. cbn [fold_left]. rewrite IH.
    + rewrite firstn_firstn. f_equal. lia.
    + rewrite length_firstn. lia.
Qed.

Lemma dense_skipn (rs : list (option value)) (a d : nat) :
  plain (VArray rs) = true -> List.length rs = a + d ->
  map (fun i => Some (nthSlot rs i)) (seq a d) = skipn a rs.
Proof.
  intros Hp. revert a rs Hp. induction d as [|d IH]; intros a rs Hp Hlen.
  - simpl. rewrite skipn_all2; [reflexivity | lia].
  - cbn [seq map].
    destruct (plain_item rs a Hp) as (v & Ev & _); [lia|].
    rewrite (IH (S a) rs Hp) by lia.
    unfold nthSlot. rewrite Ev.
    clear -Ev. revert rs Ev. induction a as [|a IHa]; intros [|x rs] Ev;
      simpl in *; try discriminate.
    + now injection Ev as ->.
    + now apply IHa.
Qed.

Lemma arrayRemove_last (items : list (option value)) (j : nat) :
  List.length items = S j ->
  arrayRemove (VArray items) (Some j) = Ok (VArray (firstn j items)).
Proof.
  intros Hlen. unfold arrayRemove, setLength.
  rewrite skipn_all2 by lia.
  replace (j - List.length items) with 0 by lia.
  simpl. now rewrite !app_nil_r.
Qed.

(** *** The records of the two tail loops *)

Section Tails.

Variable op : value -> change -> result value.
Variable k : key.

Lemma replay_grow (rec : nat -> change) (f : nat -> value) :
  (forall C items i, holds C k (VArray items) ->
                     op C (rec i) = Ok (mutatedAt C k (VArray (setSlot i (f i) items)))) ->
  forall ls d C,
    holds C k (VArray ls) ->
    replay op C (map rec (rev (seq (List.length ls) d)))
    = Ok (mutatedAt C k (VArray (ls ++ map (fun i => Some (f i))
                                           (seq (List.length ls) d)))).
Proof.
  intros Hrec ls d C Hh. rewrite <- grow_from_end.
  generalize (rev (seq (List.length ls) d)). intros idxs.
  assert (G : forall items C0,
             holds C0 k (VArray items) -> mutatedAt C0 k (VArray items) = C0 ->
             replay op C0 (map rec idxs)
             = Ok (mutatedAt C0 k
                     (VArray (fold_left (fun items i => setSlot i (f i) items)
                                        idxs items)))).
  { induction idxs as [|i idxs IH]; intros items C0 H0 Hsame.
    - simpl. unfold replay. simpl. now rewrite Hsame.
    - cbn [map fold_left]. rewrite replay_cons, (Hrec _ _ _ H0). cbn [bind].
      rewrite (IH (setSlot i (f i) items)).
      + now rewrite (mutatedAt_twice _ _ _ _ _ H0).
      + now apply (holds_mutatedAt _ _ _ _ H0).
      + rewrite (mutatedAt_twice _ _ _ _ _ H0). reflexivity. }
  apply G; [exact Hh | now apply holds_mutatedAt_same].
Qed.

Lemma replay_shrink (rec : nat -> change) :
  (forall C items j, holds C k (VArray items) ->
                     op C (rec j)
                     = (r <- arrayRemove (VArray items) (Some j) ;;
                        Ok (mutatedAt C k r))) ->
  forall d b items C,
    holds C k (VArray items) -> List.length items = b + d ->
    replay op C (map rec (rev (seq b d)))
    = Ok (mutatedAt C k (VArray (firstn b items))).
Proof.
  intros Hrec. induction d as [|d IH]; intros b items C Hh Hlen.
  - simpl. unfold replay. simpl. rewrite firstn_all2 by lia.
    now rewrite (holds_mutatedAt_same _ _ _ Hh).
  - rewrite rev_seq_S. cbn [map]. rewrite replay_cons, (Hrec _ _ _ Hh).
    rewrite arrayRemove_last by lia. cbn [bind].
    rewrite (IH b (firstn (b + d) items)).
    + rewrite (mutatedAt_twice _ _ _ _ _ Hh), firstn_firstn.
      repeat f_equal. lia.
    + now apply (holds_mutatedAt _ _ _ _ Hh).
    + rewrite length_firstn. lia.
Qed.

End Tails.

Section TailRecords.

Variable keepEmptyPath : bool.

Lemma storedPath_snoc (p : list key) (k : key) :
  storedPath keepEmptyPath (Some (p ++ [k])) = Some (p ++ [k]).
Proof. destruct p; reflexivity. Qed.

Lemma storedPath_cons (p : list key) (k : key) (q : list key) :
  storedPath keepEmptyPath (Some (p ++ k :: q)) = Some (p ++ k :: q).
Proof. destruct p; reflexivity. Qed.

Lemma skipn_snoc (p : list key) (k : key) : skipn (List.length p) (p ++ [k]) = [k].
Proof. apply skipn_prefix. Qed.

Lemma apply_array_new (C : value) (p : list key) (k : key)
      (items : list (option value)) (i : nat) (v : value) :
  holds C k (VArray items) ->
  applyBelow (List.length p) C
    (DiffArray keepEmptyPath (Some (p ++ [k])) i (DiffNew keepEmptyPath None v))
  = Ok (mutatedAt C k (VArray (setSlot i v items))).
Proof.
  intros Hh. unfold applyBelow, DiffArray. cbn [path].
  rewrite storedPath_snoc, skipn_snoc. cbn [applyWalk].
  unfold applyTerminal. cbn. rewrite (holds_getProp _ _ _ Hh). cbn.
  rewrite (holds_getProp _ _ _ Hh). reflexivity.
Qed.

Lemma apply_array_deleted (C : value) (p : list key) (k : key)
      (items : list (option value)) (j : nat) (v : value) :
  holds C k (VArray items) ->
  applyBelow (List.length p) C
    (DiffArray keepEmptyPath (Some (p ++ [k])) j (DiffDeleted keepEmptyPath None v))
  = (r <- arrayRemove (VArray items) (Some j) ;; Ok (mutatedAt C k r)).
Proof.
  intros Hh. unfold applyBelow, DiffArray. cbn [path].
  rewrite storedPath_snoc, skipn_snoc. cbn [applyWalk].
  unfold applyTerminal. cbn. rewrite (holds_getProp _ _ _ Hh). cbn.
  rewrite (holds_getProp _ _ _ Hh). reflexivity.
Qed.

Lemma revert_array_new (C : value) (p : list key) (k : key)
      (items : list (option value)) (i : nat) (v : value) :
  holds C k (VArray items) ->
  revertBelow (List.length p) C
    (DiffArray keepEmptyPath (Some (p ++ [k])) i (DiffNew keepEmptyPath None v))
  = (r <- arrayRemove (VArray items) (Some i) ;; Ok (mutatedAt C k r)).
Proof.
  intros Hh. unfold revertBelow, DiffArray. cbn [path].
  rewrite storedPath_snoc, skipn_snoc. cbn [revertWalk].
  unfold revertTerminal. cbn. rewrite (holds_getProp _ _ _ Hh). reflexivity.
Qed.

Lemma revert_array_deleted (C : value) (p : list key) (k : key)
      (items : list (option value)) (j : nat) (v : value) :
  holds C k (VArray items) ->
  revertBelow (List.length p) C
    (DiffArray keepEmptyPath (Some (p ++ [k])) j (DiffDeleted keepEmptyPath None v))
  = Ok (mutatedAt C k (VArray (setSlot j v items))).
Proof.
  intros Hh. unfold revertBelow, DiffArray. cbn [path].
  rewrite storedPath_snoc, skipn_snoc. cbn [revertWalk].
  unfold revertTerminal. cbn. rewrite (holds_getProp _ _ _ Hh). reflexivity.
Qed.

(** The other records: an edit, a deletion and an addition at a slot. *)

Lemma apply_edit (C : value) (p : list key) (k : key) (l r v : value) :
  holds C k v ->
  applyBelow (List.length p) C (DiffEdit keepEmptyPath (Some (p ++ [k])) l r)
  = Ok (mutatedAt C k r).
Proof.
  intros Hh. unfold applyBelow, DiffEdit. cbn [path].
  rewrite storedPath_snoc, skipn_snoc. cbn [applyWalk].
  unfold applyTerminal. cbn. now apply (holds_setProp _ _ v).
Qed.

Lemma revert_edit (C : value) (p : list key) (k : key) (l r v : value) :
  holds C k v ->
  revertBelow (List.length p) C (DiffEdit keepEmptyPath (Some (p ++ [k])) l r)
  = Ok (mutatedAt C k l).
Proof.
  intros Hh. unfold revertBelow, DiffEdit. cbn [path].
  rewrite storedPath_snoc, skipn_snoc. cbn [revertWalk].
  unfold revertTerminal. cbn. now apply (holds_setProp _ _ v).
Qed.

Lemma apply_deleted (C : value) (p : list key) (k : key) (l : value) :
  applyBelow (List.length p) C (DiffDeleted keepEmptyPath (Some (p ++ [k])) l)
  = deleteProp C k.
Proof.
  unfold applyBelow, DiffDeleted. cbn [path].
  rewrite storedPath_snoc, skipn_snoc. reflexivity.
Qed.

Lemma revert_deleted (C : value) (p : list key) (k : key) (l : value) :
  revertBelow (List.length p) C (DiffDeleted keepEmptyPath (Some (p ++ [k])) l)
  = setProp C k l.
Proof.
  unfold revertBelow, DiffDeleted. cbn [path].
  rewrite storedPath_snoc, skipn_snoc. reflexivity.
Qed.

Lemma apply_new (C : value) (p : list key) (k : key) (r : value) :
  applyBelow (List.length p) C (DiffNew keepEmptyPath (Some (p ++ [k])) r)
  = setProp C k r.
Proof.
  unfold applyBelow, DiffNew. cbn [path].
  rewrite storedPath_snoc, skipn_snoc. reflexivity.
Qed.

Lemma revert_new (C : value) (p : list key) (k : key) (r : value) :
  revertBelow (List.length p) C (DiffNew keepEmptyPath (Some (p ++ [k])) r)
  = deleteProp C k.
Proof.
  unfold revertBelow, DiffNew. cbn [path].
  rewrite storedPath_snoc, skipn_snoc. reflexivity.
Qed.

End TailRecords.

(** *** Slots of an array replaced from a table *)

Lemma Forall2_tabulate {A B : Type} (R : A -> B -> Prop) (f : nat -> A) :
  forall (m s : nat) (l : list B),
    m <= List.length l ->
    (forall i b, i < m -> nth_error l i = Some b -> R (f (s + i)) b) ->
    Forall2 R (map f (seq s m)) (firstn m l).
Proof.
  induction m as [|m IH]; intros s l Hm H; [constructor|].
  destruct l as [|b l]; [simpl in Hm; lia|].
  cbn [seq map firstn]. constructor.
  - rewrite <- (Nat.add_0_r s). apply H; [lia | reflexivity].
  - apply IH; [simpl in Hm; lia|].
    intros i b' Hi Hb. replace (S s + i) with (s + S i) by lia.
    apply H; [lia | exact Hb].
Qed.

Lemma holds_mutatedAt_other_slot (A : value) (i j : nat) (v w : value) :
  i <> j -> holds A (KNum i) w -> holds (mutatedAt A (KNum j) v) (KNum i) w.
Proof.
  intros Hne. destruct A as [| | | | | | |items|ps]; simpl; try tauto.
  - intros Hi. destruct (nth_error items j) as [[x|]|] eqn:E; simpl; auto.
    rewrite nth_error_setSlot_other; [exact Hi | congruence |].
    apply nth_error_Some. congruence.
  - intros [H _]. discriminate.
Qed.

Lemma setSlot_middle (pre post : list (option value)) (o : option value) (v : value) :
  setSlot (List.length pre) v (pre ++ o :: post) = pre ++ Some v :: post.
Proof. induction pre as [|x pre IH]; simpl; [reflexivity|]. now rewrite IH. Qed.

Lemma mutatedAt_middle (pre post : list (option value)) (x v : value) :
  mutatedAt (VArray (pre ++ Some x :: post)) (KNum (List.length pre)) v
  = VArray (pre ++ Some v :: post).
Proof.
  cbn [mutatedAt]. rewrite nth_error_app2, Nat.sub_diag by lia. cbn [nth_error].
  now rewrite setSlot_middle.
Qed.

Lemma mutate_prefix (f : nat -> value) :
  forall (m : nat) (pre post : list (option value)),
    List.length pre = m ->
    Forall (fun o => o <> None) pre ->
    fold_left (fun A i => mutatedAt A (KNum i) (f i)) (rev (seq 0 m))
              (VArray (pre ++ post))
    = VArray (map (fun i => Some (f i)) (seq 0 m) ++ post).
Proof.
  induction m as [|m IH]; intros pre post Hlen Hd.
  - destruct pre; [reflexivity | discriminate].
  - destruct (rev pre) as [|o rpre] eqn:Er.
    { apply (f_equal (@List.length _)) in Er. rewrite length_rev in Er.
      simpl in Er. lia. }
    assert (Epre : pre = rev rpre ++ [o]).
    { rewrite <- (rev_involutive pre), Er. reflexivity. }
    subst pre. rewrite length_app in Hlen. simpl in Hlen.
    apply Forall_app in Hd. destruct Hd as [Hd Ho].
    inversion Ho as [|? ? Hsome _]; subst.
    destruct o as [x|]; [|congruence].
    rewrite rev_seq_S. cbn [fold_left plus].
    rewrite <- app_assoc. cbn [app].
    assert (Hm : List.length (rev rpre) = m) by lia.
    replace (mutatedAt (VArray (rev rpre ++ Some x :: post)) (KNum m) (f m))
      with (VArray (rev rpre ++ Some (f m) :: post))
      by (pose proof (mutatedAt_middle (rev rpre) post x (f m)) as E;
          rewrite Hm in E; now rewrite E).
    rewrite (IH (rev rpre) (Some (f m) :: post) Hm Hd).
    rewrite seq_S, map_app, <- app_assoc. reflexivity.
Qed.

Lemma dense_items (items : list (option value)) :
  plain (VArray items) = true -> Forall (fun o => o <> None) items.
Proof.
  simpl. rewrite forallb_forall. intros H. apply Forall_forall.
  intros o Hin ->. now specialize (H None Hin).
Qed.

Lemma plain_firstn (items : list (option value)) (n : nat) :
  plain (VArray items) = true -> plain (VArray (firstn n items)) = true.
Proof.
  simpl. rewrite !forallb_forall. intros H o Hin. apply H.
  rewrite <- (firstn_skipn n items). apply in_or_app. now left.
Qed.

Lemma plain_skipn (items : list (option value)) (n : nat) :
  plain (VArray items) = true -> plain (VArray (skipn n items)) = true.
Proof.
  simpl. rewrite !forallb_forall. intros H o Hin. apply H.
  rewrite <- (firstn_skipn n items). apply in_or_app. now right.
Qed.

Lemma agree_items_refl (items : list (option value)) :
  plain (VArray items) = true ->
  Forall2 (fun o o' => exists a b, o = Some a /\ o' = Some b /\ agree a b) items items.
Proof.
  intros Hp. apply agree_array. now apply agree_refl.
Qed.

(** ** The round trip *)

(** *** One slot, there and back *)

Lemma edited_false (l r : value) :
  edited l r = false ->
  isArray l && isArray r = false -> isObject l && isObject r = false ->
  plain l = true -> l = r.
Proof.
  unfold edited. intros He Ha Ho Hp.
  apply orb_false_iff in He. destruct He as [He He3].
  apply orb_false_iff in He. destruct He as [He1 He2].
  apply negb_false_iff, String.eqb_eq in He1.
  destruct l as [| |b|[|x]|s|[|x]|s|ls|lps]; try discriminate;
    destruct r as [| |b'|[|y]|s'|[|y]|s'|rs|rps]; try discriminate;
    try reflexivity; simpl in *.
  - rewrite andb_true_r in He3. apply negb_false_iff in He3.
    destruct b, b'; simpl in *; congruence.
  - rewrite andb_true_r in He3. apply negb_false_iff in He3.
    apply Z.eqb_eq in He3. congruence.
  - rewrite andb_true_r in He3. apply negb_false_iff in He3.
    apply String.eqb_eq in He3. congruence.
  - apply negb_false_iff, Z.eqb_eq in He2. f_equal. f_equal. lia.
Qed.

Section RoundTrip.

Variable dateToString : number -> string.
Variable keepEmptyPath : bool.

Local Abbreviation changesOf := (changesOf dateToString keepEmptyPath).
Local Abbreviation changesOfUndefined := (changesOfUndefined dateToString keepEmptyPath).
Local Abbreviation slotRoundTrips := (slotRoundTrips dateToString keepEmptyPath).

Lemma isRegExp_plain (v : value) : plain v = true -> isRegExp v = false.
Proof. destruct v; simpl; congruence. Qed.

Lemma replays_leaf (l r : value) (p : list key) (k : key) (stack : list frame) :
  plain l = true -> plain r = true ->
  isArray l && isArray r = false -> isObject l && isObject r = false ->
  definedAt (typeof l) (option_map fst (hd_error stack)) (Some k)
  = definedAt (typeof r) (option_map snd (hd_error stack)) (Some k) ->
  exists t l', replays (changesOf l r p (Some k) stack) p k l r t l'.
Proof.
  intros Hl Hr Ha Ho Hdef.
  rewrite deepDiff_leaf; auto using isRegExp_plain.
  destruct (edited l r) eqn:He.
  - exists r, l. unfold replays, pathWith.
    split; [now apply agree_refl|]. split; [now apply agree_refl|].
    split; [|split].
    + constructor; [|constructor]. split; [reflexivity|].
      exists []. cbn [DiffEdit path]. apply storedPath_snoc.
    + intros C Hh. unfold replay. cbn [fold_left bind].
      now apply (apply_edit _ _ _ _ _ _ l).
    + intros C Hh. unfold replay. cbn [fold_left bind].
      now apply (revert_edit _ _ _ _ _ _ r).
  - assert (E : l = r) by now apply edited_false.
    subst r. exists l, l. unfold replays.
    split; [now apply agree_refl|]. split; [now apply agree_refl|].
    split; [constructor | split]; intros C Hh; unfold replay; cbn [fold_left];
      now rewrite (holds_mutatedAt_same _ _ _ Hh).
Qed.

Lemma emitted_app (p : list key) (k : key) (cs cs' : list change) :
  emitted p k cs -> emitted p k cs' -> emitted p k (cs ++ cs').
Proof. unfold emitted. intros H H'. apply Forall_app. now split. Qed.

Lemma emitted_flat_map {K : Type} (p : list key) (k : key) (seg : K -> list change)
      (keys : list K) :
  (forall x, In x keys -> emitted p k (seg x)) -> emitted p k (flat_map seg keys).
Proof.
  intros H. unfold emitted. apply Forall_flat_map. apply Forall_forall.
  intros x Hx. now apply H.
Qed.

Lemma emitted_deeper (p : list key) (k k' : key) (cs : list change) :
  emitted (p ++ [k]) k' cs -> emitted p k cs.
Proof.
  unfold emitted. apply Forall_impl. intros c [Hk (q & Hq)].
  split; [exact Hk|]. exists (k' :: q). now rewrite <- app_assoc in Hq.
Qed.

Lemma emitted_below (p : list key) (k k' : key) (cs : list change) :
  emitted (p ++ [k]) k' cs -> below p k cs.
Proof.
  unfold emitted, below. apply Forall_impl. intros c [Hk (q & Hq)].
  exists k', q. now rewrite <- app_assoc in Hq.
Qed.

Lemma below_flat_map {K : Type} (p : list key) (k : key) (seg : K -> list change)
      (keys : list K) :
  (forall x, In x keys -> below p k (seg x)) -> below p k (flat_map seg keys).
Proof.
  intros H. unfold below. apply Forall_flat_map. apply Forall_forall.
  intros x Hx. now apply H.
Qed.

Lemma length_snoc (p : list key) (k : key) : List.length (p ++ [k]) = S (List.length p).
Proof. rewrite length_app. simpl. lia. Qed.

(** The common indices of two arrays, walked from the highest down. *)
Lemma replay_common (op : nat -> value -> change -> result value)
      (p : list key) (k : key) (m : nat) (seg : nat -> list change)
      (x y : nat -> value) (pre post : list (option value)) :
  (forall n it c it', isContainer it = true -> op n it c = Ok it' ->
                      isContainer it' = true) ->
  (forall C child p k k' q c,
      path c = Some (p ++ k :: k' :: q) ->
      holds C k child -> isContainer child = true ->
      op (List.length p) C c
      = (child' <- op (S (List.length p)) child c ;; Ok (mutatedAt C k child'))) ->
  (forall i, i < m -> emitted (p ++ [k]) (KNum i) (seg i)) ->
  (forall i A, i < m -> holds A (KNum i) (x i) ->
               replay (op (S (List.length p))) A (seg i)
               = Ok (mutatedAt A (KNum i) (y i))) ->
  List.length pre = m ->
  (forall i, i < m -> nth_error pre i = Some (Some (x i))) ->
  forall C u,
    holds C k u ->
    replay (op (List.length p)) (mutatedAt C k (VArray (pre ++ post)))
           (flat_map seg (rev (seq 0 m)))
    = Ok (mutatedAt C k (VArray (map (fun i => Some (y i)) (seq 0 m) ++ post))).
Proof.
  intros Hcont Hstep Hem Hseg Hlen Hpre C u Hu.
  assert (Hidx : forall i, In i (rev (seq 0 m)) -> i < m).
  { intros i Hi. apply in_rev, in_seq in Hi. lia. }
  rewrite (replay_lift op Hcont Hstep p k _
             (below_flat_map p k seg _
                (fun i Hi => emitted_below p k (KNum i) _ (Hem i (Hidx i Hi))))
             (mutatedAt C k (VArray (pre ++ post))) (VArray (pre ++ post))
             (holds_mutatedAt _ _ _ _ Hu) eq_refl).
  rewrite (replay_segments op (S (List.length p)) seg
             (fun i A => holds A (KNum i) (x i))
             (fun i A => mutatedAt A (KNum i) (y i))).
  - cbn [bind]. rewrite (mutatedAt_twice _ _ _ _ _ Hu). do 2 f_equal.
    apply mutate_prefix; [exact Hlen|].
    apply Forall_forall. intros o Hin ->.
    destruct (In_nth_error _ _ Hin) as [i Hi].
    assert (i < m) by (rewrite <- Hlen; apply nth_error_Some; congruence).
    rewrite Hpre in Hi by assumption. discriminate.
  - apply NoDup_rev, seq_NoDup.
  - intros i A Hi. apply Hseg. now apply Hidx.
  - intros i j A _ _ Hne. now apply holds_mutatedAt_other_slot.
  - intros i Hi. cbn [holds]. rewrite nth_error_app1 by (rewrite Hlen; now apply Hidx).
    apply Hpre. now apply Hidx.
Qed.

Lemma flat_map_ext_in {A B : Type} (f g : A -> list B) (l : list A) :
  (forall x, In x l -> f x = g x) -> flat_map f l = flat_map g l.
Proof.
  induction l as [|a l IH]; intros H; [reflexivity|].
  cbn [flat_map]. rewrite (H a (or_introl eq_refl)). f_equal.
  apply IH. intros x' Hx'. apply H. now right.
Qed.

Lemma dense_nth (items : list (option value)) (i : nat) :
  plain (VArray items) = true -> i < List.length items ->
  nth_error items i = Some (Some (nthSlot items i)) /\ plain (nthSlot items i) = true.
Proof.
  intros Hp Hi. destruct (plain_item items i Hp Hi) as (v & Ev & Hv).
  unfold nthSlot. rewrite Ev. auto.
Qed.

Lemma replays_arrays (ls rs : list (option value)) (p : list key) (k : key)
      (stack : list frame) :
  plain (VArray ls) = true -> plain (VArray rs) = true ->
  (forall i x, nth_error ls i = Some (Some x) -> slotRoundTrips x) ->
  exists t l',
    replays (changesOf (VArray ls) (VArray rs) p (Some k) stack)
            p k (VArray ls) (VArray rs) t l'.
Proof.
  intros Hl Hr IH.
  set (cp := p ++ [k]).
  set (stack' := (VArray ls, VArray rs) :: stack).
  set (m := Nat.min (List.length rs) (List.length ls)).
  set (x := nthSlot ls). set (y := nthSlot rs).
  set (seg := fun i => changesOf (x i) (y i) cp (Some (KNum i)) stack').
  (* the slots, one by one *)
  assert (Hslots : exists F : nat -> value * value,
             forall i, In i (seq 0 m) ->
                       replays (seg i) cp (KNum i) (x i) (y i) (fst (F i)) (snd (F i))).
  { apply (finite_choice
             (fun i tl => replays (seg i) cp (KNum i) (x i) (y i) (fst tl) (snd tl))
             (VUndefined, VUndefined) (seq 0 m) Nat.eq_dec).
    intros i Hi. apply in_seq in Hi.
    destruct (dense_nth ls i Hl) as [Ex Hx]; [lia|].
    destruct (dense_nth rs i Hr) as [Ey Hy]; [lia|].
    destruct (IH i (x i) Ex (y i) cp (KNum i) stack' Hy) as (t & l' & H).
    - subst stack'. cbn [hd_error option_map fst snd].
      rewrite !definedAt_own; try reflexivity; simpl; [now rewrite Ey | now rewrite Ex].
    - now exists (t, l'). }
  destruct Hslots as [F HF].
  assert (HF' : forall i, i < m ->
                          replays (seg i) cp (KNum i) (x i) (y i) (fst (F i)) (snd (F i))).
  { intros i Hi. apply HF. apply in_seq. lia. }
  clear HF.
  (* the records *)
  assert (Ecs : changesOf (VArray ls) (VArray rs) p (Some k) stack
                = map (fun i => DiffArray keepEmptyPath (Some cp) i
                                  (DiffNew keepEmptyPath None (y i)))
                      (rev (seq (List.length ls) (List.length rs - List.length ls)))
                  ++ map (fun j => DiffArray keepEmptyPath (Some cp) j
                                     (DiffDeleted keepEmptyPath None (x j)))
                         (rev (seq (List.length rs) (List.length ls - List.length rs)))
                  ++ flat_map seg (rev (seq 0 m))).
  { rewrite deepDiff_arrays by now apply plain_wellFormed.
    cbn [pathWith]. fold cp stack' m. do 2 f_equal.
    apply flat_map_ext_in. intros i Hi. apply in_rev, in_seq in Hi.
    destruct (dense_nth ls i Hl) as [Ex _]; [lia|].
    unfold slotWalk. rewrite Ex. reflexivity. }
  rewrite Ecs. clear Ecs. subst cp.
  exists (VArray (map (fun i => Some (fst (F i))) (seq 0 m) ++ skipn m rs)),
         (VArray (map (fun i => Some (snd (F i))) (seq 0 m) ++ skipn m ls)).
  assert (Hm : m <= List.length rs /\ m <= List.length ls) by (subst m; lia).
  unfold replays. split; [|split; [|split; [|split]]].
  - (* the patched array agrees with rs *)
    apply agree_array. rewrite <- (firstn_skipn m rs) at 2.
    apply Forall2_app.
    + apply Forall2_tabulate; [lia|].
      intros i b Hi Hb. cbn [plus].
      destruct (dense_nth rs i Hr) as [Ey _]; [lia|].
      rewrite Ey in Hb. injection Hb as <-.
      exists (fst (F i)), (y i). repeat split. apply (HF' i Hi).
    + apply agree_items_refl. now apply plain_skipn.
  - apply agree_array. rewrite <- (firstn_skipn m ls) at 2.
    apply Forall2_app.
    + apply Forall2_tabulate; [lia|].
      intros i b Hi Hb. cbn [plus].
      destruct (dense_nth ls i Hl) as [Ex _]; [lia|].
      rewrite Ex in Hb. injection Hb as <-.
      exists (snd (F i)), (x i). repeat split. apply (HF' i Hi).
    + apply agree_items_refl. now apply plain_skipn.
  - (* where the records lie *)
    apply emitted_app; [|apply emitted_app].
    + apply Forall_forall. intros c Hc. apply in_map_iff in Hc.
      destruct Hc as (i & <- & _). split; [reflexivity|].
      exists []. cbn [DiffArray path]. apply storedPath_snoc.
    + apply Forall_forall. intros c Hc. apply in_map_iff in Hc.
      destruct Hc as (i & <- & _). split; [reflexivity|].
      exists []. cbn [DiffArray path]. apply storedPath_snoc.
    + apply emitted_flat_map. intros i Hi. apply in_rev, in_seq in Hi.
      apply (emitted_deeper p k (KNum i)). apply (HF' i). lia.
  - (* applying *)
    intros C HC. rewrite !replay_app.
    destruct (Nat.le_gt_cases (List.length ls) (List.length rs)) as [Hle|Hgt].
    + (* rhs at least as long: the new tail, then the common indices *)
      assert (Em : m = List.length ls) by (subst m; lia).
      rewrite (replay_grow (applyBelow (List.length p)) k _ y
                 (fun C items i Hh => apply_array_new keepEmptyPath C p k items i (y i) Hh)
                 ls _ C HC).
      cbn [bind].
      replace (List.length ls - List.length rs) with 0 by lia.
      cbn [seq rev map]. unfold replay at 1. cbn [fold_left bind].
      unfold y at 1.
      rewrite (dense_skipn rs (List.length ls) (List.length rs - List.length ls) Hr)
        by lia.
      rewrite <- Em.
      apply (replay_common applyBelow p k m seg x (fun i => fst (F i)) ls (skipn m rs)
               applyBelow_container applyBelow_step) with (u := VArray ls); auto.
      * intros i Hi. apply (HF' i Hi).
      * intros i A Hi HA. rewrite <- (length_snoc p k).
        now apply (HF' i Hi).
      * intros i Hi. apply (dense_nth ls i Hl). lia.
    + (* lhs longer: the deleted tail, then the common indices *)
      assert (Em : m = List.length rs) by (subst m; lia).
      replace (List.length rs - List.length ls) with 0 by lia.
      cbn [seq rev map]. unfold replay at 1. cbn [fold_left bind].
      rewrite replay_app.
      rewrite (replay_shrink (applyBelow (List.length p)) k _
                 (fun C items j Hh => apply_array_deleted keepEmptyPath C p k items j (x j) Hh)
                 (List.length ls - List.length rs) (List.length rs) ls C HC)
        by lia.
      cbn [bind]. rewrite <- Em.
      rewrite (skipn_all2 rs) by lia.
      rewrite <- (app_nil_r (firstn m ls)).
      apply (replay_common applyBelow p k m seg x (fun i => fst (F i))
               (firstn m ls) [] applyBelow_container applyBelow_step)
        with (u := VArray ls); auto.
      * intros i Hi. apply (HF' i Hi).
      * intros i A Hi HA. rewrite <- (length_snoc p k).
        now apply (HF' i Hi).
      * apply firstn_length_le. lia.
      * intros i Hi. rewrite nth_error_firstn.
        replace (Nat.ltb i m) with true by (symmetry; apply Nat.ltb_lt; lia).
        apply (dense_nth ls i Hl). lia.
  - (* reverting *)
    intros C HC. rewrite !replay_app.
    set (ts := map (fun i => Some (fst (F i))) (seq 0 m)) in *.
    assert (Hts : List.length ts = m) by (subst ts; now rewrite length_map, length_seq).
    assert (Hnth : forall i, i < m -> nth_error ts i = Some (Some (fst (F i)))).
    { intros i Hi. subst ts. rewrite nth_error_map, nth_error_seq.
      replace (Nat.ltb i m) with true by (symmetry; apply Nat.ltb_lt; lia). reflexivity. }
    destruct (Nat.le_gt_cases (List.length ls) (List.length rs)) as [Hle|Hgt].
    + assert (Em : m = List.length ls) by (subst m; lia).
      rewrite (replay_shrink (revertBelow (List.length p)) k _
                 (fun C items i Hh => revert_array_new keepEmptyPath C p k items i (y i) Hh)
                 (List.length rs - List.length ls) (List.length ls) _ C HC).
      2:{ rewrite length_app, Hts, length_skipn. lia. }
      cbn [bind].
      replace (List.length ls - List.length rs) with 0 by lia.
      cbn [seq rev map]. unfold replay at 1. cbn [fold_left bind].
      rewrite <- Em. rewrite firstn_app, Hts, Nat.sub_diag. cbn [firstn].
      rewrite (firstn_all2 ts) by lia.
      rewrite (skipn_all2 ls) by lia.
      apply (replay_common revertBelow p k m seg (fun i => fst (F i))
               (fun i => snd (F i)) ts [] revertBelow_container revertBelow_step)
        with (u := VArray (ts ++ skipn m rs)); auto.
      * intros i Hi. apply (HF' i Hi).
      * intros i A Hi HA. rewrite <- (length_snoc p k).
        now apply (HF' i Hi).
    + assert (Em : m = List.length rs) by (subst m; lia).
      replace (List.length rs - List.length ls) with 0 by lia.
      cbn [seq rev map]. unfold replay at 1. cbn [fold_left bind].
      rewrite replay_app.
      revert HC. rewrite (skipn_all2 rs) by lia. rewrite app_nil_r. intros HC.
      rewrite <- Em, <- Hts.
      rewrite (replay_grow (revertBelow (List.length p)) k _ x
                 (fun C items j Hh => revert_array_deleted keepEmptyPath C p k items j (x j) Hh)
                 ts _ C HC).
      cbn [bind]. rewrite Hts. unfold x at 1.
      rewrite (dense_skipn ls m (List.length ls - m) Hl) by lia.
      apply (replay_common revertBelow p k m seg (fun i => fst (F i))
               (fun i => snd (F i)) ts (skipn m ls)
               revertBelow_container revertBelow_step)
        with (u := VArray ts); auto.
      * intros i Hi. apply (HF' i Hi).
      * intros i A Hi HA. rewrite <- (length_snoc p k).
        now apply (HF' i Hi).
Qed.

End RoundTrip.

(** *** Properties written and deleted from a table *)

Lemma lookupProp_putProp_same (k : key) (o : option value) (ps : list (key * value)) :
  lookupProp k (putProp k o ps) = o.
Proof.
  destruct o; simpl;
    [apply lookupProp_insertProp_same | apply lookupProp_removeProp_same].
Qed.

Lemma lookupProp_putProp_other (k k' : key) (o : option value)
      (ps : list (key * value)) :
  k <> k' -> lookupProp k' (putProp k o ps) = lookupProp k' ps.
Proof.
  intros Hne. destruct o; simpl;
    [now apply lookupProp_insertProp_other | now apply lookupProp_removeProp_other].
Qed.

Lemma lookupProp_putProps (out : key -> option value) (keys : list key) :
  forall ps k,
    lookupProp k (putProps out keys ps)
    = if memKey k keys then out k else lookupProp k ps.
Proof.
  induction keys as [|k0 keys IH]; intros ps k; [reflexivity|].
  unfold putProps. cbn [fold_left]. fold (putProps out keys (putProp k0 (out k0) ps)).
  rewrite IH. unfold memKey. cbn [existsb]. fold (memKey k keys).
  destruct (memKey k keys); [now rewrite orb_true_r|].
  rewrite orb_false_r. destruct (key_eqb k k0) eqn:E.
  - apply key_eqb_eq in E. subst k0. apply lookupProp_putProp_same.
  - apply lookupProp_putProp_other. intros ->. now rewrite key_eqb_refl in E.
Qed.

Lemma NoDup_insertProp (k : key) (v : value) (ps : list (key * value)) :
  NoDup (map fst ps) -> NoDup (map fst (insertProp k v ps)).
Proof.
  induction ps as [|[k' v'] ps IH]; intros Hnd.
  - simpl. constructor; [intros [] | constructor].
  - inversion Hnd as [|? ? Hnotin Hnd']; subst. cbn [insertProp].
    destruct (key_eqb k k') eqn:E; [exact Hnd|].
    cbn [map fst]. constructor; [|now apply IH].
    apply lookupProp_None. rewrite lookupProp_insertProp_other.
    + now apply lookupProp_None.
    + intros ->. now rewrite key_eqb_refl in E.
Qed.

Lemma NoDup_removeProp (k : key) (ps : list (key * value)) :
  NoDup (map fst ps) -> NoDup (map fst (removeProp k ps)).
Proof.
  induction ps as [|[k' v'] ps IH]; intros Hnd; [exact Hnd|].
  inversion Hnd as [|? ? Hnotin Hnd']; subst. cbn [removeProp].
  destruct (key_eqb k k') eqn:E; [now apply IH|].
  cbn [map fst]. constructor; [|now apply IH].
  apply lookupProp_None. rewrite lookupProp_removeProp_other.
  - now apply lookupProp_None.
  - intros ->. now rewrite key_eqb_refl in E.
Qed.

Lemma NoDup_putProps (out : key -> option value) (keys : list key) :
  forall ps, NoDup (map fst ps) -> NoDup (map fst (putProps out keys ps)).
Proof.
  induction keys as [|k keys IH]; intros ps Hnd; [exact Hnd|].
  unfold putProps. cbn [fold_left]. apply IH.
  destruct (out k); simpl; [now apply NoDup_insertProp | now apply NoDup_removeProp].
Qed.

Lemma fold_putAt (out : key -> option value) (keys : list key) :
  forall ps, fold_left (fun A k => putAt out k A) keys (VObject ps)
             = VObject (putProps out keys ps).
Proof.
  induction keys as [|k keys IH]; intros ps; [reflexivity|].
  cbn [fold_left putAt]. now rewrite IH.
Qed.

(** *** The keys of a plain object *)

Lemma map_fst_enumerated (ps : list (key * value)) :
  map fst (enumerated ps) = ownKeys (VObject ps).
Proof.
  unfold enumerated, ownKeys, objectKeys, getOwnPropertySymbols.
  rewrite map_app, !filter_map_swap. reflexivity.
Qed.

Lemma ownKeys_not_number (v : value) (k : key) :
  In k (ownKeys v) -> isNumberKey k = false.
Proof.
  unfold ownKeys, objectKeys, getOwnPropertySymbols. intros Hin.
  apply in_app_or in Hin. destruct v; try (destruct Hin as [[]|[]]).
  destruct Hin as [Hin|Hin]; apply filter_In in Hin; destruct Hin as [_ Hk];
    destruct k; simpl in *; congruence.
Qed.

Lemma plain_keys (ps : list (key * value)) (k : key) :
  plain (VObject ps) = true -> In k (map fst ps) -> isNumberKey k = false.
Proof.
  simpl. intros H Hin. apply andb_prop in H. destruct H as [_ H].
  rewrite forallb_forall in H. apply in_map_iff in Hin.
  destruct Hin as ([k' v] & <- & Hin). specialize (H _ Hin). simpl in H.
  apply andb_prop in H. destruct H as [H _]. now apply negb_true_iff in H.
Qed.

Lemma In_ownKeys (ps : list (key * value)) (k : key) :
  plain (VObject ps) = true ->
  (In k (ownKeys (VObject ps)) <-> lookupProp k ps <> None).
Proof.
  intros Hp. rewrite lookupProp_None.
  unfold ownKeys, objectKeys, getOwnPropertySymbols. rewrite in_app_iff, !filter_In.
  split.
  - intros [[H _]|[H _]] Hn; contradiction.
  - intros H. destruct (in_dec (fun a b => match key_eqb_spec a b with
                                          | ReflectT _ e => left e
                                          | ReflectF _ n => right n
                                          end) k (map fst ps)) as [Hin|Hn];
      [|contradiction].
    pose proof (plain_keys ps k Hp Hin) as Hk.
    destruct k; simpl in *; try discriminate; auto.
Qed.

Lemma plain_NoDup (ps : list (key * value)) :
  plain (VObject ps) = true -> NoDup (map fst ps).
Proof.
  simpl. intros H. apply andb_prop in H. destruct H as [H _].
  now apply keysDistinct_NoDup.
Qed.

Lemma flat_map_map {A B C : Type} (f : B -> list C) (g : A -> B) (l : list A) :
  flat_map f (map g l) = flat_map (fun a => f (g a)) l.
Proof. induction l as [|a l IH]; simpl; [reflexivity | now rewrite IH]. Qed.

Lemma replay_one (op : value -> change -> result value) (it : value) (c : change) :
  replay op it [c] = op it c.
Proof. unfold replay. cbn [fold_left bind]. now destruct (op it c). Qed.

Section Objects.

Variable dateToString : number -> string.
Variable keepEmptyPath : bool.

Local Abbreviation changesOf := (changesOf dateToString keepEmptyPath).
Local Abbreviation changesOfUndefined := (changesOfUndefined dateToString keepEmptyPath).
Local Abbreviation slotRoundTrips := (slotRoundTrips dateToString keepEmptyPath).

Variables lps rps : list (key * value).
Variable cp : list key.
Variable stack : list frame.

Hypothesis Hl : plain (VObject lps) = true.
Hypothesis Hr : plain (VObject rps) = true.
Hypothesis IH : forall k v, lookupProp k lps = Some v -> slotRoundTrips v.

Let stack' : list frame := (VObject lps, VObject rps) :: stack.
Let keys1 : list key := ownKeys (VObject lps).
Let keys2 : list key := filter (unpaired keys1) (ownKeys (VObject rps)).

(** The records of one key. *)
Let seg (k : key) : list change :=
  if memKey k keys1
  then changesOf (ownValue (VObject lps) k) (ownValue (VObject rps) k) cp (Some k) stack'
  else changesOfUndefined (ownValue (VObject rps) k) cp (Some k) stack'.

Lemma props_records :
  flat_map (fun kv => changesOf (snd kv) (ownValue (VObject rps) (fst kv)) cp
                        (Some (fst kv)) stack')
           (enumerated lps)
  ++ flat_map (fun k' => changesOfUndefined (ownValue (VObject rps) k') cp (Some k')
                           stack')
              (filter (unpaired (map fst (enumerated lps))) (ownKeys (VObject rps)))
  = flat_map seg (keys1 ++ keys2).
Proof.
  rewrite flat_map_app. f_equal.
  - unfold keys1. rewrite <- map_fst_enumerated, flat_map_map.
    apply flat_map_ext_in. intros [k v] Hin. cbn [fst snd]. unfold seg.
    replace (memKey k keys1) with true.
    + replace (ownValue (VObject lps) k) with v; [reflexivity|].
      cbn [ownValue]. rewrite (lookupProp_NoDup k v lps); [reflexivity| |].
      * now apply plain_NoDup.
      * unfold enumerated in Hin. apply in_app_or in Hin.
        destruct Hin as [Hin|Hin]; apply filter_In in Hin; tauto.
    + symmetry. apply memKey_In. unfold keys1. rewrite <- map_fst_enumerated.
      apply in_map_iff. now exists (k, v).
  - rewrite map_fst_enumerated. fold keys1 keys2.
    apply flat_map_ext_in. intros k Hin. unfold seg, keys2 in *.
    apply filter_In in Hin. destruct Hin as [_ Hu]. unfold unpaired in Hu.
    apply andb_prop in Hu. destruct Hu as [_ Hu]. apply negb_true_iff in Hu.
    now rewrite Hu.
Qed.

Lemma keys1_own (k : key) :
  In k keys1 ->
  memKey k keys1 = true /\ isNumberKey k = false
  /\ exists v, lookupProp k lps = Some v /\ plain v = true.
Proof.
  intros Hin. split; [now apply memKey_In|].
  split; [now apply (ownKeys_not_number (VObject lps))|].
  apply (In_ownKeys lps k Hl) in Hin.
  destruct (lookupProp k lps) as [v|] eqn:E; [|congruence].
  exists v. split; [reflexivity|]. now apply (plain_prop lps k).
Qed.

Lemma keys2_own (k : key) :
  In k keys2 ->
  memKey k keys1 = false /\ memKey k keys2 = true /\ isNumberKey k = false
  /\ lookupProp k lps = None
  /\ exists b, lookupProp k rps = Some b /\ plain b = true.
Proof.
  intros Hin. pose proof Hin as Hin'. unfold keys2 in Hin'.
  apply filter_In in Hin'. destruct Hin' as [Hown Hu].
  unfold unpaired in Hu. apply andb_prop in Hu. destruct Hu as [_ Hu].
  apply negb_true_iff in Hu.
  split; [exact Hu|]. split; [now apply memKey_In|].
  split; [now apply (ownKeys_not_number (VObject rps))|].
  split.
  - apply memKey_not_In in Hu. unfold keys1 in Hu.
    destruct (lookupProp k lps) eqn:E; [|reflexivity].
    exfalso. apply Hu. apply (In_ownKeys lps k Hl). congruence.
  - apply (In_ownKeys rps k Hr) in Hown.
    destruct (lookupProp k rps) as [b|] eqn:E; [|congruence].
    exists b. split; [reflexivity|]. now apply (plain_prop rps k).
Qed.

Lemma seg_deleted (k : key) (v : value) :
  In k keys1 -> lookupProp k lps = Some v -> lookupProp k rps = None ->
  seg k = [DiffDeleted keepEmptyPath (Some (cp ++ [k])) v].
Proof.
  intros Hin Ev Er. destruct (keys1_own k Hin) as (Hm & Hk & v' & Ev' & Hv).
  rewrite Ev in Ev'. injection Ev' as <-.
  unfold seg. rewrite Hm. cbn [ownValue]. rewrite Ev, Er.
  rewrite deepDiff_deleted; [reflexivity | | |].
  - now apply isRegExp_plain.
  - unfold stack'. cbn [hd_error option_map fst].
    apply definedAt_own; [reflexivity|]. cbn [hasOwnProperty].
    now rewrite (propKey_plain _ Hk), Ev.
  - unfold stack'. cbn [hd_error option_map snd]. unfold definedAt.
    cbn [hasOwnProperty]. rewrite (propKey_plain _ Hk), Er. reflexivity.
Qed.

Lemma seg_new (k : key) (b : value) :
  In k keys2 -> lookupProp k rps = Some b ->
  seg k = [DiffNew keepEmptyPath (Some (cp ++ [k])) b].
Proof.
  intros Hin Eb. destruct (keys2_own k Hin) as (Hm & _ & Hk & El & _).
  unfold seg. rewrite Hm. cbn [ownValue]. rewrite Eb.
  rewrite deepDiffUndefined_new; [reflexivity | |].
  - unfold stack'. cbn [hd_error option_map fst]. unfold definedAt.
    cbn [hasOwnProperty]. rewrite (propKey_plain _ Hk), El. reflexivity.
  - unfold stack'. cbn [hd_error option_map snd].
    apply definedAt_own; [reflexivity|]. cbn [hasOwnProperty].
    now rewrite (propKey_plain _ Hk), Eb.
Qed.

Lemma seg_both :
  exists F : key -> value * value,
    forall k b, In k keys1 -> lookupProp k rps = Some b ->
                replays (seg k) cp k (ownValue (VObject lps) k) b
                        (fst (F k)) (snd (F k)).
Proof.
  destruct (finite_choice
              (fun k tl => forall b, lookupProp k rps = Some b ->
                                     replays (seg k) cp k (ownValue (VObject lps) k) b
                                             (fst tl) (snd tl))
              (VUndefined, VUndefined) keys1 key_eq_dec) as [F HF].
  - intros k Hin. destruct (keys1_own k Hin) as (Hm & Hk & v & Ev & Hv).
    destruct (lookupProp k rps) as [b|] eqn:Eb.
    + destruct (IH k v Ev b cp k stack') as (t & l' & H).
      * now apply (plain_prop rps k).
      * unfold stack'. cbn [hd_error option_map fst snd].
        rewrite !definedAt_own; try reflexivity; cbn [hasOwnProperty];
          rewrite (propKey_plain _ Hk); [now rewrite Eb | now rewrite Ev].
      * exists (t, l'). intros b' [= <-]. unfold seg. rewrite Hm.
        cbn [ownValue]. rewrite Ev, Eb. exact H.
    + exists (VUndefined, VUndefined). intros b'. discriminate.
  - exists F. intros k b Hin. now apply HF.
Qed.

Lemma lookupProp_applied (F : key -> value * value) (k : key) :
  lookupProp k (putProps (applied keys1 keys2 rps F) (keys1 ++ keys2) lps) = applied keys1 keys2 rps F k.
Proof.
  rewrite lookupProp_putProps.
  destruct (memKey k (keys1 ++ keys2)) eqn:E; [reflexivity|].
  apply memKey_not_In in E. unfold applied.
  replace (memKey k keys1) with false
    by (symmetry; apply memKey_not_In; intros H; apply E, in_or_app; now left).
  replace (memKey k keys2) with false
    by (symmetry; apply memKey_not_In; intros H; apply E, in_or_app; now right).
  destruct (lookupProp k lps) eqn:El; [|reflexivity].
  exfalso. apply E, in_or_app. left. apply (In_ownKeys lps k Hl). congruence.
Qed.

Lemma lookupProp_reverted (F : key -> value * value) (k : key) :
  lookupProp k (putProps (reverted keys1 lps rps F) (keys1 ++ keys2)
                         (putProps (applied keys1 keys2 rps F) (keys1 ++ keys2) lps))
  = reverted keys1 lps rps F k.
Proof.
  rewrite lookupProp_putProps.
  destruct (memKey k (keys1 ++ keys2)) eqn:E; [reflexivity|].
  rewrite lookupProp_applied.
  apply memKey_not_In in E. unfold applied, reverted.
  replace (memKey k keys1) with false
    by (symmetry; apply memKey_not_In; intros H; apply E, in_or_app; now left).
  replace (memKey k keys2) with false
    by (symmetry; apply memKey_not_In; intros H; apply E, in_or_app; now right).
  reflexivity.
Qed.

Lemma NoDup_keys : NoDup (keys1 ++ keys2).
Proof.
  apply NoDup_app.
  - now apply plain_ownKeys.
  - apply NoDup_filter. now apply plain_ownKeys.
  - intros k H1 H2. destruct (keys2_own k H2) as (Hm & _).
    apply memKey_not_In in Hm. contradiction.
Qed.

Section Table.

Variable F : key -> value * value.
Hypothesis HF :
  forall k b, In k keys1 -> lookupProp k rps = Some b ->
              replays (seg k) cp k (ownValue (VObject lps) k) b (fst (F k)) (snd (F k)).

Let tps : list (key * value) := putProps (applied keys1 keys2 rps F) (keys1 ++ keys2) lps.
Let lps' : list (key * value) := putProps (reverted keys1 lps rps F) (keys1 ++ keys2) tps.

Lemma props_agree_applied : agree (VObject tps) (VObject rps).
Proof.
  apply agree_object. split; [|split].
  - apply NoDup_putProps. now apply plain_NoDup.
  - apply Forall_forall. intros [k v] Hin. cbn [fst snd].
    apply lookupProp_NoDup in Hin;
      [|apply NoDup_putProps; now apply plain_NoDup].
    unfold tps in Hin. rewrite lookupProp_applied in Hin. unfold applied in Hin.
    destruct (memKey k keys1) eqn:E1.
    + apply memKey_In in E1. destruct (keys1_own k E1) as (_ & Hk & _).
      split; [exact Hk|].
      destruct (lookupProp k rps) as [b|] eqn:Eb; [|discriminate].
      injection Hin as <-. exists b. split; [reflexivity|].
      apply (HF k b E1 Eb).
    + destruct (memKey k keys2) eqn:E2; [|discriminate].
      apply memKey_In in E2. destruct (keys2_own k E2) as (_ & _ & Hk & _ & b & Eb & Hb).
      split; [exact Hk|]. rewrite Eb in Hin. injection Hin as <-.
      exists b. split; [exact Eb | now apply agree_refl].
  - intros k Ht Hk Hsome. unfold tps. rewrite lookupProp_applied. unfold applied.
    destruct (memKey k keys1) eqn:E1.
    + destruct (lookupProp k rps); [discriminate | contradiction].
    + replace (memKey k keys2) with true; [exact Hsome|].
      symmetry. apply memKey_In. unfold keys2. apply filter_In. split.
      * now apply (In_ownKeys rps k Hr).
      * unfold unpaired. now rewrite Ht, E1.
Qed.

Lemma props_agree_reverted : agree (VObject lps') (VObject lps).
Proof.
  apply agree_object. split; [|split].
  - do 2 apply NoDup_putProps. now apply plain_NoDup.
  - apply Forall_forall. intros [k v] Hin. cbn [fst snd].
    apply lookupProp_NoDup in Hin;
      [|do 2 apply NoDup_putProps; now apply plain_NoDup].
    unfold lps', tps in Hin. rewrite lookupProp_reverted in Hin.
    unfold reverted in Hin.
    destruct (memKey k keys1) eqn:E1; [|discriminate].
    apply memKey_In in E1. destruct (keys1_own k E1) as (_ & Hk & v0 & Ev0 & Hv0).
    split; [exact Hk|].
    destruct (lookupProp k rps) as [b|] eqn:Eb.
    + injection Hin as <-. exists v0. split; [exact Ev0|].
      pose proof (HF k b E1 Eb) as H. cbn [ownValue] in H. rewrite Ev0 in H.
      apply H.
    + rewrite Ev0 in Hin. injection Hin as <-.
      exists v0. split; [exact Ev0 | now apply agree_refl].
  - intros k Ht Hk Hsome. unfold lps', tps. rewrite lookupProp_reverted.
    unfold reverted.
    replace (memKey k keys1) with true
      by (symmetry; apply memKey_In; now apply (In_ownKeys lps k Hl)).
    destruct (lookupProp k rps); [discriminate | exact Hsome].
Qed.

Lemma props_emitted :
  Forall (fun c => validKind (kind c) = true
                   /\ exists k q, path c = Some (cp ++ k :: q))
         (flat_map seg (keys1 ++ keys2)).
Proof.
  apply Forall_flat_map, Forall_forall. intros k Hin. apply in_app_or in Hin.
  destruct Hin as [Hin|Hin].
  - destruct (keys1_own k Hin) as (_ & _ & v & Ev & _).
    destruct (lookupProp k rps) as [b|] eqn:Eb.
    + destruct (HF k b Hin Eb) as (_ & _ & He & _).
      revert He. apply Forall_impl. intros c [Hc (q & Hq)].
      split; [exact Hc|]. now exists k, q.
    + rewrite (seg_deleted k v Hin Ev Eb). constructor; [|constructor].
      split; [reflexivity|]. exists k, []. cbn [DiffDeleted path].
      apply storedPath_snoc.
  - destruct (keys2_own k Hin) as (_ & _ & _ & _ & b & Eb & _).
    rewrite (seg_new k b Hin Eb). constructor; [|constructor].
    split; [reflexivity|]. exists k, []. cbn [DiffNew path].
    apply storedPath_snoc.
Qed.

Lemma mutatedAt_prop (ps : list (key * value)) (k : key) (u v : value) :
  isNumberKey k = false -> lookupProp k ps = Some u ->
  mutatedAt (VObject ps) k v = VObject (insertProp k v ps).
Proof. intros Hk E. cbn [mutatedAt]. now rewrite (propKey_plain _ Hk), E. Qed.

Lemma props_apply :
  replay (applyBelow (List.length cp)) (VObject lps) (flat_map seg (keys1 ++ keys2))
  = Ok (VObject tps).
Proof.
  rewrite (replay_segments applyBelow
             (List.length cp) seg
             (fun k A => exists ps, A = VObject ps
                                    /\ lookupProp k ps = lookupProp k lps)
             (putAt (applied keys1 keys2 rps F)) (keys1 ++ keys2) NoDup_keys).
  - now rewrite fold_putAt.
  - intros k A Hin (ps & -> & Eps). cbn [putAt]. unfold applied.
    apply in_app_or in Hin. destruct Hin as [Hin|Hin].
    + destruct (keys1_own k Hin) as (Hm & Hk & v & Ev & _). rewrite Hm.
      destruct (lookupProp k rps) as [b|] eqn:Eb.
      * destruct (HF k b Hin Eb) as (_ & _ & _ & Ha & _).
        rewrite (Ha (VObject ps)).
        -- rewrite (mutatedAt_prop ps k v); [reflexivity | exact Hk | congruence].
        -- cbn [holds ownValue]. rewrite Ev. split; [exact Hk | congruence].
      * rewrite (seg_deleted k v Hin Ev Eb), replay_one, apply_deleted.
        cbn [deleteProp putProp]. now rewrite (propKey_plain _ Hk).
    + destruct (keys2_own k Hin) as (Hm & Hm2 & Hk & _ & b & Eb & _).
      rewrite Hm, Hm2, Eb.
      rewrite (seg_new k b Hin Eb), replay_one, apply_new.
      cbn [setProp putProp]. now rewrite (propKey_plain _ Hk).
  - intros k k' A _ _ Hne (ps & -> & Eps). cbn [putAt]. eexists. split; [reflexivity|].
    rewrite lookupProp_putProp_other; [exact Eps | congruence].
  - intros k _. now exists lps.
Qed.

Lemma props_revert :
  replay (revertBelow (List.length cp)) (VObject tps) (flat_map seg (keys1 ++ keys2))
  = Ok (VObject lps').
Proof.
  rewrite (replay_segments revertBelow
             (List.length cp) seg
             (fun k A => exists ps, A = VObject ps
                                    /\ lookupProp k ps = applied keys1 keys2 rps F k)
             (putAt (reverted keys1 lps rps F)) (keys1 ++ keys2) NoDup_keys).
  - now rewrite fold_putAt.
  - intros k A Hin (ps & -> & Eps). cbn [putAt]. unfold reverted.
    unfold applied in Eps.
    apply in_app_or in Hin. destruct Hin as [Hin|Hin].
    + destruct (keys1_own k Hin) as (Hm & Hk & v & Ev & _). rewrite Hm in *.
      destruct (lookupProp k rps) as [b|] eqn:Eb.
      * destruct (HF k b Hin Eb) as (_ & _ & _ & _ & Hb).
        rewrite (Hb (VObject ps)).
        -- rewrite (mutatedAt_prop ps k (fst (F k))); [reflexivity | exact Hk | exact Eps].
        -- cbn [holds]. split; [exact Hk | exact Eps].
      * rewrite (seg_deleted k v Hin Ev Eb), replay_one, revert_deleted.
        cbn [setProp putProp]. now rewrite (propKey_plain _ Hk), Ev.
    + destruct (keys2_own k Hin) as (Hm & Hm2 & Hk & _ & b & Eb & _).
      rewrite Hm.
      rewrite (seg_new k b Hin Eb), replay_one, revert_new.
      cbn [deleteProp putProp]. now rewrite (propKey_plain _ Hk).
  - intros k k' A _ _ Hne (ps & -> & Eps). cbn [putAt]. eexists. split; [reflexivity|].
    rewrite lookupProp_putProp_other; [exact Eps | congruence].
  - intros k _. exists tps. split; [reflexivity|]. apply lookupProp_applied.
Qed.

End Table.

(** The records of two plain objects, replayed on the left one. *)
Lemma replays_props :
  exists tps lps',
    roundTripsAt
      (flat_map (fun kv => changesOf (snd kv) (ownValue (VObject rps) (fst kv)) cp
                             (Some (fst kv)) stack')
                (enumerated lps)
       ++ flat_map (fun k' => changesOfUndefined (ownValue (VObject rps) k') cp
                                (Some k') stack')
                   (filter (unpaired (map fst (enumerated lps)))
                           (ownKeys (VObject rps))))
      cp (VObject lps) (VObject rps) (VObject tps) (VObject lps').
Proof.
  destruct seg_both as [F HF]. rewrite props_records.
  exists (putProps (applied keys1 keys2 rps F) (keys1 ++ keys2) lps),
         (putProps (reverted keys1 lps rps F) (keys1 ++ keys2)
                   (putProps (applied keys1 keys2 rps F) (keys1 ++ keys2) lps)).
  split; [exact (props_agree_applied F HF)|].
  split; [exact (props_agree_reverted F HF)|].
  split; [exact (props_emitted F HF)|].
  split; [exact (props_apply F HF) | exact (props_revert F HF)].
Qed.

End Objects.

Section Everywhere.

Variable dateToString : number -> string.
Variable keepEmptyPath : bool.

Local Abbreviation changesOf := (changesOf dateToString keepEmptyPath).
Local Abbreviation slotRoundTrips := (slotRoundTrips dateToString keepEmptyPath).

Lemma replays_objects (lps rps : list (key * value)) (p : list key) (k : key)
      (stack : list frame) :
  plain (VObject lps) = true -> plain (VObject rps) = true ->
  (forall k v, lookupProp k lps = Some v -> slotRoundTrips v) ->
  exists t l',
    replays (changesOf (VObject lps) (VObject rps) p (Some k) stack)
            p k (VObject lps) (VObject rps) t l'.
Proof.
  intros Hl Hr IH.
  rewrite deepDiff_objects by (now apply plain_wellFormed || now apply plain_ownKeys).
  cbn [pathWith].
  destruct (replays_props dateToString keepEmptyPath lps rps (p ++ [k]) stack Hl Hr IH)
    as (tps & lps' & Ht & Hl' & Hem & Ha & Hb).
  rewrite length_snoc in Ha, Hb.
  exists (VObject tps), (VObject lps'). unfold replays.
  split; [exact Ht|]. split; [exact Hl'|].
  assert (Hbelow : below p k
                     (flat_map
                        (fun kv => changesOf (snd kv) (ownValue (VObject rps) (fst kv))
                                     (p ++ [k]) (Some (fst kv))
                                     ((VObject lps, VObject rps) :: stack))
                        (enumerated lps)
                      ++ flat_map
                           (fun k' => changesOfUndefined dateToString keepEmptyPath
                                        (ownValue (VObject rps) k') (p ++ [k]) (Some k')
                                        ((VObject lps, VObject rps) :: stack))
                           (filter (unpaired (map fst (enumerated lps)))
                                   (ownKeys (VObject rps))))).
  { revert Hem. apply Forall_impl. intros c [_ (k' & q & Hq)].
    exists k', q. now rewrite <- app_assoc in Hq. }
  split; [|split].
  - revert Hem. apply Forall_impl. intros c [Hc (k' & q & Hq)].
    split; [exact Hc|]. exists (k' :: q). now rewrite <- app_assoc in Hq.
  - intros C HC.
    rewrite (replay_lift applyBelow applyBelow_container applyBelow_step p k _ Hbelow
               C (VObject lps) HC eq_refl).
    now rewrite Ha.
  - intros C HC.
    rewrite (replay_lift revertBelow revertBelow_container revertBelow_step p k _ Hbelow
               C (VObject tps) HC eq_refl).
    now rewrite Hb.
Qed.

(** Every slot that holds a plain value makes the round trip. *)
Lemma plain_slotRoundTrips (x : value) : plain x = true -> slotRoundTrips x.
Proof.
  induction x as [| |b|n|s|t|s|ls IHls|lps IHlps] using value_nested_ind;
    intros Hx r p k stack Hr Hdef;
    try (apply replays_leaf; auto; fail).
  - destruct r as [| | | | | | |rs|rps];
      try (apply replays_leaf; auto; fail).
    apply replays_arrays; auto.
    intros i x Hi. rewrite Forall_forall in IHls.
    apply (IHls (Some x)); [now apply (nth_error_In _ i) | reflexivity |].
    simpl in Hx. rewrite forallb_forall in Hx.
    apply (Hx (Some x)). now apply (nth_error_In _ i).
  - destruct r as [| | | | | | |rs|rps];
      try (apply replays_leaf; auto; fail).
    apply replays_objects; auto.
    intros k' v Hv. rewrite Forall_forall in IHlps.
    apply (IHlps (k', v)); [now apply lookupProp_In|].
    now apply (plain_prop lps k').
Qed.

End Everywhere.

(** *** The round trip at the root *)

Lemma isContainer_truthy (v : value) : isContainer v = true -> truthy v = true.
Proof. destruct v; simpl; congruence. Qed.

Lemma validKind_truthyKind (k : option string) :
  validKind k = true -> truthyKind k = true.
Proof.
  destruct k as [s|]; [|discriminate]. simpl. rewrite !orb_false_r.
  intros H. repeat (apply orb_prop in H; destruct H as [H|H]);
    apply String.eqb_eq in H; now subst.
Qed.

Lemma applyChanges_replay (source : argument) (it : value) (cs : list change) :
  rooted cs -> isContainer it = true ->
  applyChanges source it cs = replay (applyBelow 0) it cs.
Proof.
  intros Hcs Hit. unfold rooted in Hcs. rewrite Forall_forall in Hcs.
  assert (E : forall t c, In c cs -> isContainer t = true ->
                          applyChange t source (Some c) = applyBelow 0 t c).
  { intros t c Hc Ht. destruct (Hcs c Hc) as [Hk (k & q & Hp)].
    cbn [applyChange]. unfold applyRecord, applyBelow.
    rewrite (isContainer_truthy _ Ht), (validKind_truthyKind _ Hk), Hp.
    reflexivity. }
  apply (replay_ext (fun t c => applyChange t source (Some c)) (applyBelow 0)).
  - exact E.
  - intros t c t' Hc Ht. rewrite (E t c Hc Ht). now apply applyBelow_container.
  - exact Hit.
Qed.

Lemma revertChanges_replay (source : argument) (it : value) (cs : list change) :
  truthyArgument source = true ->
  rooted cs -> isContainer it = true ->
  revertChanges source it cs = replay (revertBelow 0) it cs.
Proof.
  intros Hs Hcs Hit. unfold rooted in Hcs. rewrite Forall_forall in Hcs.
  assert (E : forall t c, In c cs -> isContainer t = true ->
                          revertChange t source (Some c) = revertBelow 0 t c).
  { intros t c Hc Ht. destruct (Hcs c Hc) as [Hk (k & q & Hp)].
    cbn [revertChange]. unfold revertBelow.
    rewrite (isContainer_truthy _ Ht), Hs, (validKind_truthyKind _ Hk), Hp.
    reflexivity. }
  apply (replay_ext (fun t c => revertChange t source (Some c)) (revertBelow 0)).
  - exact E.
  - intros t c t' Hc Ht. rewrite (E t c Hc Ht). now apply revertBelow_container.
  - exact Hit.
Qed.

Section Root.

Variable dateToString : number -> string.
Variable keepEmptyPath : bool.

Lemma observableDiff_changes {S : Type} (l r : value) (state : S) :
  changes (observableDiff dateToString keepEmptyPath l r None state None false)
  = changesOf dateToString keepEmptyPath l r [] None [].
Proof.
  unfold observableDiff, changesOf.
  now destruct (deepDiff dateToString keepEmptyPath None false l r [] None [])
    as [[cs l1] r1].
Qed.

Lemma diff_no_changes (l r : value) :
  changesOf dateToString keepEmptyPath l r [] None [] = [] ->
  fst (fst (diff dateToString keepEmptyPath l r [])) = ReturnsUndefined.
Proof.
  unfold diff. cbn [optionNamed fst]. rewrite observableDiff_changes.
  now intros ->.
Qed.

(** The records of two plain mappings take the left one to a mapping the
    walk cannot tell from the right one, and back. *)
Lemma root_roundTrips (lps rps : list (key * value)) :
  plain (VObject lps) = true -> plain (VObject rps) = true ->
  exists tps lps',
    roundTripsAt (changesOf dateToString keepEmptyPath (VObject lps) (VObject rps)
                            [] None [])
                 [] (VObject lps) (VObject rps) (VObject tps) (VObject lps').
Proof.
  intros Hl Hr.
  rewrite deepDiff_objects by (now apply plain_wellFormed || now apply plain_ownKeys).
  cbn [pathWith].
  apply (replays_props dateToString keepEmptyPath lps rps [] [] Hl Hr).
  intros k v Hv. apply plain_slotRoundTrips. now apply (plain_prop lps k).
Qed.

End Root.

(** The slots of an array replayed one by one, from the highest down. *)
Lemma replay_slots (op : nat -> value -> change -> result value) (n m : nat)
      (seg : nat -> list change) (x y : nat -> value)
      (pre post : list (option value)) :
  (forall i A, i < m -> holds A (KNum i) (x i) ->
               replay (op n) A (seg i) = Ok (mutatedAt A (KNum i) (y i))) ->
  List.length pre = m ->
  (forall i, i < m -> nth_error pre i = Some (Some (x i))) ->
  replay (op n) (VArray (pre ++ post)) (flat_map seg (rev (seq 0 m)))
  = Ok (VArray (map (fun i => Some (y i)) (seq 0 m) ++ post)).
Proof.
  intros Hseg Hlen Hpre.
  assert (Hidx : forall i, In i (rev (seq 0 m)) -> i < m).
  { intros i Hi. apply in_rev, in_seq in Hi. lia. }
  rewrite (replay_segments op n seg
             (fun i A => holds A (KNum i) (x i))
             (fun i A => mutatedAt A (KNum i) (y i))).
  - f_equal. apply mutate_prefix; [exact Hlen|].
    apply Forall_forall. intros o Hin ->.
    destruct (In_nth_error _ _ Hin) as [i Hi].
    assert (i < m) by (rewrite <- Hlen; apply nth_error_Some; congruence).
    rewrite Hpre in Hi by assumption. discriminate.
  - apply NoDup_rev, seq_NoDup.
  - intros i A Hi. apply Hseg. now apply Hidx.
  - intros i j A _ _ Hne. now apply holds_mutatedAt_other_slot.
  - intros i Hi. cbn [holds]. rewrite nth_error_app1 by (rewrite Hlen; now apply Hidx).
    apply Hpre. now apply Hidx.
Qed.

Section RootArrays.

Variable dateToString : number -> string.
Variable keepEmptyPath : bool.

Local Abbreviation changesOf := (changesOf dateToString keepEmptyPath).

(** The records of two plain sequences of one length, replayed on the left
    one. *)
Lemma root_roundTrips_arrays (ls rs : list (option value)) :
  plain (VArray ls) = true -> plain (VArray rs) = true ->
  List.length ls = List.length rs ->
  exists ts ls',
    roundTripsAt (changesOf (VArray ls) (VArray rs) [] None [])
                 [] (VArray ls) (VArray rs) (VArray ts) (VArray ls').
Proof.
  intros Hl Hr Hlen.
  set (m := List.length ls).
  set (stack' := [(VArray ls, VArray rs)]).
  set (x := nthSlot ls). set (y := nthSlot rs).
  set (seg := fun i => changesOf (x i) (y i) [] (Some (KNum i)) stack').
  assert (Hslots : exists F : nat -> value * value,
             forall i, In i (seq 0 m) ->
                       replays (seg i) [] (KNum i) (x i) (y i) (fst (F i)) (snd (F i))).
  { apply (finite_choice
             (fun i tl => replays (seg i) [] (KNum i) (x i) (y i) (fst tl) (snd tl))
             (VUndefined, VUndefined) (seq 0 m) Nat.eq_dec).
    intros i Hi. apply in_seq in Hi.
    destruct (dense_nth ls i Hl) as [Ex Hx]; [lia|].
    destruct (dense_nth rs i Hr) as [Ey Hy]; [lia|].
    destruct (plain_slotRoundTrips dateToString keepEmptyPath (x i) Hx
                (y i) [] (KNum i) stack' Hy) as (t & l' & H).
    - subst stack'. cbn [hd_error option_map fst snd].
      rewrite !definedAt_own; try reflexivity; simpl; [now rewrite Ey | now rewrite Ex].
    - now exists (t, l'). }
  destruct Hslots as [F HF].
  assert (HF' : forall i, i < m ->
                          replays (seg i) [] (KNum i) (x i) (y i) (fst (F i)) (snd (F i))).
  { intros i Hi. apply HF. apply in_seq. lia. }
  clear HF.
  assert (Ecs : changesOf (VArray ls) (VArray rs) [] None []
                = flat_map seg (rev (seq 0 m))).
  { rewrite deepDiff_arrays by now apply plain_wellFormed.
    cbn [pathWith]. rewrite <- Hlen, Nat.sub_diag, Nat.min_id. cbn [seq rev map app].
    fold m stack'.
    apply flat_map_ext_in. intros i Hi. apply in_rev, in_seq in Hi.
    destruct (dense_nth ls i Hl) as [Ex _]; [lia|].
    unfold slotWalk. rewrite Ex. reflexivity. }
  rewrite Ecs. clear Ecs.
  set (ts := map (fun i => Some (fst (F i))) (seq 0 m)).
  exists ts, (map (fun i => Some (snd (F i))) (seq 0 m)).
  assert (Hts : List.length ts = m) by (subst ts; now rewrite length_map, length_seq).
  unfold roundTripsAt. split; [|split; [|split; [|split]]].
  - apply agree_array. rewrite <- (firstn_all rs), <- Hlen. fold m.
    apply Forall2_tabulate; [lia|].
    intros i b Hi Hb. cbn [plus].
    destruct (dense_nth rs i Hr) as [Ey _]; [lia|].
    rewrite Ey in Hb. injection Hb as <-.
    exists (fst (F i)), (y i). repeat split. apply (HF' i Hi).
  - apply agree_array. rewrite <- (firstn_all ls). fold m.
    apply Forall2_tabulate; [lia|].
    intros i b Hi Hb. cbn [plus].
    destruct (dense_nth ls i Hl) as [Ex _]; [lia|].
    rewrite Ex in Hb. injection Hb as <-.
    exists (snd (F i)), (x i). repeat split. apply (HF' i Hi).
  - apply Forall_flat_map, Forall_forall. intros i Hi. apply in_rev, in_seq in Hi.
    destruct (HF' i) as (_ & _ & He & _); [lia|].
    revert He. apply Forall_impl. intros c [Hc (q & Hq)].
    split; [exact Hc|]. now exists (KNum i), q.
  - cbn [List.length].
    rewrite <- (app_nil_r ls) at 1. unfold ts. rewrite <- (app_nil_r (map _ _)).
    apply (replay_slots applyBelow 0 m seg x (fun i => fst (F i)) ls []); auto.
    + intros i A Hi. now apply (HF' i Hi).
    + intros i Hi. apply (dense_nth ls i Hl). exact Hi.
  - cbn [List.length].
    rewrite <- (app_nil_r ts) at 1. rewrite <- (app_nil_r (map _ _)).
    apply (replay_slots revertBelow 0 m seg (fun i => fst (F i)) (fun i => snd (F i))
             ts []); auto.
    + intros i A Hi. now apply (HF' i Hi).
    + intros i Hi. unfold ts. rewrite nth_error_map, nth_error_seq.
      replace (Nat.ltb i m) with true by (symmetry; apply Nat.ltb_lt; lia).
      reflexivity.
Qed.

(** Two plain values of one shape: the records take the left one to a value
    the walk cannot tell from the right one, and back. *)
Lemma root_roundTrips_sameShape (l r : value) :
  plain l = true -> plain r = true -> sameShape l r = true ->
  exists t l',
    isContainer t = true /\ isContainer l' = true
    /\ roundTripsAt (changesOf l r [] None []) [] l r t l'.
Proof.
  intros Hl Hr Hs.
  destruct l as [| | | | | | |ls|lps]; try discriminate;
    destruct r as [| | | | | | |rs|rps]; try discriminate.
  - simpl in Hs. apply Nat.eqb_eq in Hs.
    destruct (root_roundTrips_arrays ls rs Hl Hr Hs) as (ts & ls' & H).
    exists (VArray ts), (VArray ls'). auto.
  - destruct (root_roundTrips dateToString keepEmptyPath lps rps Hl Hr)
      as (tps & lps' & H).
    exists (VObject tps), (VObject lps'). auto.
Qed.

Lemma agree_containers_diff (t r : value) :
  isContainer t = true -> isContainer r = true ->
  agree t r -> plain r = true ->
  fst (fst (diff dateToString keepEmptyPath t r [])) = ReturnsUndefined.
Proof.
  intros Ht Hr Hag Hp. apply diff_no_changes.
  apply agree_no_changes; auto.
  destruct t; try discriminate; destruct r; try discriminate; reflexivity.
Qed.

Lemma sameShape_container (l r : value) :
  sameShape l r = true -> isContainer l = true /\ isContainer r = true.
Proof. destruct l, r; simpl; try discriminate; auto. Qed.

End RootArrays.

(** *** Apply, and revert, after diff *)







(** A plain value compared with itself: [diff] finds no changes. *)
Theorem diff_plain_with_itself (dateToString : number -> string)
        (keepEmptyPath : bool) (x : value) :
  plain x = true ->
  fst (fst (diff dateToString keepEmptyPath x x [])) = ReturnsUndefined.
Proof.
  intros Hx. apply diff_no_changes.
  apply agree_no_changes; [now apply agree_refl | exact Hx | reflexivity].
Qed.

Lemma diff_plain_with_itself_witness :
  plain (VObject [(KStr "a", VArray [Some (VDate (Num 0)); Some (VNumber NaN)])]) = true
  /\ fst (fst (diff (fun _ => "") false
                    (VObject [(KStr "a", VArray [Some (VDate (Num 0));
                                                 Some (VNumber NaN)])])
                    (VObject [(KStr "a", VArray [Some (VDate (Num 0));
                                                 Some (VNumber NaN)])]) []))
     = ReturnsUndefined.
Proof.
  split; [reflexivity | apply diff_plain_with_itself; reflexivity].
Defined.

(** * More of the code *)

(** ** applyDiff *)

Section ApplyDiff.

Variable dateToString : number -> string.
Variable keepEmptyPath : bool.

Lemma observableDiff_observed {S : Type} (l r : value)
      (f : change -> S -> S) (state : S)
      (prefilter : option prefilterOption) (orderIndependent : bool) :
  observerState (observableDiff dateToString keepEmptyPath l r (Some f) state
                                prefilter orderIndependent)
  = fold_left (fun st c => f c st)
              (changes (observableDiff dateToString keepEmptyPath l r None tt
                                       prefilter orderIndependent))
              state.
Proof.
  unfold observableDiff.
  now destruct (deepDiff dateToString keepEmptyPath prefilter orderIndependent
                         l r [] None []) as [[cs l1] r1].
Qed.

Lemma applyDiff_unfiltered (target source : value) :
  truthy target = true -> truthy source = true ->
  applyDiff dateToString keepEmptyPath target source None
  = applyChanges (ArgValue source) target
      (changes (observableDiff dateToString keepEmptyPath target source
                               None tt None false)).
Proof.
  intros Ht Hs. unfold applyDiff. rewrite Ht, Hs. cbn [andb].
  rewrite observableDiff_observed. reflexivity.
Qed.

End ApplyDiff.



(** [applyDiff] leaves the target alone when the target or the source is
    falsy, and when the filter turns every record down, whatever the two
    values are. *)
Theorem applyDiff_noop (dateToString : number -> string) (keepEmptyPath : bool)
        (target source : value) (filter : option (value -> value -> change -> bool)) :
  truthy target = false \/ truthy source = false
  \/ (exists f, filter = Some f /\ forall t c, f t source c = false) ->
  applyDiff dateToString keepEmptyPath target source filter = Ok target.
Proof.
  intros H. unfold applyDiff.
  destruct (truthy target) eqn:Ht; [|reflexivity].
  destruct (truthy source) eqn:Hs; [|reflexivity].
  destruct H as [H|[H|(f & -> & Hf)]]; try discriminate.
  cbn [andb]. rewrite observableDiff_observed.
  induction (changes (observableDiff dateToString keepEmptyPath target source
                                     None tt None false)) as [|c cs IH];
    [reflexivity|].
  cbn [fold_left bind]. now rewrite Hf.
Qed.

Lemma applyDiff_noop_witness :
  (truthy (VNumber (Num 1)) = false \/ truthy (VNumber (Num 2)) = false
   \/ (exists f, Some (fun (_ _ : value) (_ : change) => false) = Some f
                 /\ forall t c, f t (VNumber (Num 2)) c = false))
  /\ applyDiff (fun _ => "") false (VNumber (Num 1)) (VNumber (Num 2))
               (Some (fun _ _ _ => false))
     = Ok (VNumber (Num 1)).
Proof.
  assert (H : truthy (VNumber (Num 1)) = false \/ truthy (VNumber (Num 2)) = false
              \/ (exists f, Some (fun (_ _ : value) (_ : change) => false) = Some f
                            /\ forall t c, f t (VNumber (Num 2)) c = false)).
  { right. right. eexists. split; [reflexivity|]. reflexivity. }
  split; [exact H | now apply applyDiff_noop].
Defined.

(** ** Values of different types, and leaves *)

(** Two values of different real types are never compared piece by piece:
    the walk reports one record for the root, New when the left one is
    undefined, Deleted when the right one is, Edit otherwise, whatever the
    prefilter and the ordering option are. *)
Theorem diff_different_types (dateToString : number -> string) (keepEmptyPath : bool)
        (prefilter : option prefilterOption) (orderIndependent : bool)
        (l r : value) :
  String.eqb (realTypeOf l) (realTypeOf r) = false ->
  changes (observableDiff dateToString keepEmptyPath l r
             (@None (change -> unit -> unit)) tt prefilter orderIndependent)
  = [typeRecord keepEmptyPath l r].
Proof.
  intros Hne. unfold observableDiff.
  destruct l as [| |b|n|s|t|s|ls|lps], r as [| |b'|n'|s'|t'|s'|rs|rps];
    try discriminate; reflexivity.
Qed.

Lemma diff_different_types_witness :
  String.eqb (realTypeOf (VArray [Some VNull])) (realTypeOf (VObject [(KStr "0", VNull)]))
  = false
  /\ changes (observableDiff (fun _ => "") false
                (VArray [Some VNull]) (VObject [(KStr "0", VNull)])
                (@None (change -> unit -> unit)) tt None true)
     = [DiffEdit false (Some []) (VArray [Some VNull]) (VObject [(KStr "0", VNull)])].
Proof.
  split; [reflexivity|].
  exact (diff_different_types (fun _ => "") false None true
           (VArray [Some VNull]) (VObject [(KStr "0", VNull)]) eq_refl).
Defined.

(** On leaves [diff] finds no change exactly when the two are the same
    value; NaN counts as the same as itself. *)
Theorem diff_leaves (dateToString : number -> string) (keepEmptyPath : bool)
        (l r : value) :
  isLeaf l = true -> isLeaf r = true ->
  (fst (fst (diff dateToString keepEmptyPath l r [])) = ReturnsUndefined <-> l = r).
Proof.
  intros Hl Hr. unfold diff, observableDiff. cbn [optionNamed].
  destruct l as [| |b|[|x]|s|[|x]|s|ls|lps]; try discriminate;
    destruct r as [| |b'|[|y]|s'|[|y]|s'|rs|rps]; try discriminate;
    cbn; try (split; [discriminate | congruence]); try tauto.
  - destruct b, b'; cbn; split; congruence.
  - destruct (Z.eqb_spec x y); cbn; split; congruence.
  - destruct (String.eqb_spec s s'); cbn; split; congruence.
  - destruct (Z.eqb_spec (x - y) 0); cbn; split; intros H; try congruence.
    + f_equal. f_equal. lia.
    + injection H as H. lia.
Qed.

Lemma diff_leaves_witness :
  isLeaf (VNumber NaN) = true /\ isLeaf (VNumber NaN) = true
  /\ (fst (fst (diff (fun _ => "") false (VNumber NaN) (VNumber NaN) []))
      = ReturnsUndefined <-> VNumber NaN = VNumber NaN).
Proof.
  split; [reflexivity|]. split; [reflexivity|].
  exact (diff_leaves (fun _ => "") false (VNumber NaN) (VNumber NaN) eq_refl eq_refl).
Defined.

(** ** applyDiff between primitives *)

Lemma applyRecord_root_edit (keepEmptyPath : bool) (target l r : value) :
  isPrimitive target = true -> truthy target = true ->
  applyRecord target (DiffEdit keepEmptyPath (Some []) l r) = Err TypeError.
Proof.
  intros Hp Ht. unfold applyRecord. rewrite Ht.
  destruct keepEmptyPath; cbn;
    destruct target; try discriminate; reflexivity.
Qed.

(** [applyDiff] cannot turn one primitive into another: between two
    different truthy primitives the one record has no key to assign to, and
    applying it throws a TypeError. *)
Theorem applyDiff_primitives_throws (dateToString : number -> string)
        (keepEmptyPath : bool) (target source : value) :
  isPrimitive target = true -> isPrimitive source = true ->
  truthy target = true -> truthy source = true ->
  strictEq target source = false ->
  applyDiff dateToString keepEmptyPath target source None = Err TypeError.
Proof.
  intros Hpl Hpr Hl Hr Hne. unfold applyDiff. rewrite Hl, Hr. cbn [andb].
  rewrite observableDiff_observed.
  assert (E : changes (observableDiff dateToString keepEmptyPath target source
                                      (@None (change -> unit -> unit)) tt None false)
              = [DiffEdit keepEmptyPath (Some []) target source]).
  { unfold observableDiff.
    destruct target as [| |b|[|x]|s|t|s|ls|lps]; try discriminate;
      destruct source as [| |b'|[|y]|s'|t'|s'|rs|rps]; try discriminate;
      cbn in Hne |- *; try rewrite Hne; reflexivity. }
  rewrite E. cbn [fold_left bind applyChange].
  now apply applyRecord_root_edit.
Qed.

Lemma applyDiff_primitives_throws_witness :
  isPrimitive (VNumber (Num 1)) = true /\ isPrimitive (VString "a") = true
  /\ truthy (VNumber (Num 1)) = true /\ truthy (VString "a") = true
  /\ strictEq (VNumber (Num 1)) (VString "a") = false
  /\ applyDiff (fun _ => "") true (VNumber (Num 1)) (VString "a") None = Err TypeError.
Proof.
  repeat (split; [reflexivity|]).
  apply applyDiff_primitives_throws; reflexivity.
Defined.

(** ** The tails of two sequences *)

Section Tails2.

Variable dateToString : number -> string.
Variable keepEmptyPath : bool.

Local Abbreviation changesOf := (changesOf dateToString keepEmptyPath).

Lemma nthSlot_app1 (ls extra : list (option value)) (i : nat) :
  i < List.length ls -> nthSlot (ls ++ extra) i = nthSlot ls i.
Proof. intros Hi. unfold nthSlot. now rewrite nth_error_app1. Qed.

Lemma nthSlot_app2 (ls extra : list (option value)) (j : nat) :
  nthSlot (ls ++ extra) (List.length ls + j) = nthSlot extra j.
Proof.
  unfold nthSlot. rewrite nth_error_app2 by lia.
  now replace (List.length ls + j - List.length ls) with j by lia.
Qed.

(** The common slots of a plain sequence and an extension of it. *)
Lemma common_slots_silent (ls extra extra' : list (option value)) (p : list key)
      (stack : list frame) (i : nat) :
  plain (VArray ls) = true -> i < List.length ls ->
  fst (fst (slotWalk (deepDiffUndefined dateToString keepEmptyPath None false)
                     (deepDiff dateToString keepEmptyPath None false)
                     (ls ++ extra) i (nthSlot (ls ++ extra') i) p (Some (KNum i))
                     ((VArray (ls ++ extra), VArray (ls ++ extra')) :: stack)))
  = [].
Proof.
  intros Hl Hi. destruct (dense_nth ls i Hl Hi) as [Ex Hx].
  unfold slotWalk. rewrite nth_error_app1, Ex by exact Hi.
  rewrite nthSlot_app1 by exact Hi.
  apply (agree_no_changes dateToString keepEmptyPath (nthSlot ls i) (nthSlot ls i)
           (agree_refl _ Hx) Hx).
  cbn [hd_error option_map fst snd].
  rewrite !definedAt_own; try reflexivity; cbn [hasOwnProperty];
    now rewrite nth_error_app1, Ex by exact Hi.
Qed.

Lemma rev_seq_shift (a n : nat) :
  rev (seq a n) = map (fun j => a + j) (rev (seq 0 n)).
Proof.
  rewrite map_rev. f_equal. revert a. induction n as [|n IH]; intros a; [reflexivity|].
  cbn [seq map]. rewrite Nat.add_0_r. f_equal.
  rewrite (IH (S a)), <- seq_shift, map_map. apply map_ext. intros j. lia.
Qed.

Lemma appended_records (ls extra : list (option value)) :
  plain (VArray ls) = true ->
  changesOf (VArray ls) (VArray (ls ++ extra)) [] None []
  = map (fun j => DiffArray keepEmptyPath (Some []) (List.length ls + j)
                    (DiffNew keepEmptyPath None (nthSlot extra j)))
        (rev (seq 0 (List.length extra))).
Proof.
  intros Hl. rewrite deepDiff_arrays by now apply plain_wellFormed.
  cbn [pathWith]. rewrite length_app.
  replace (List.length ls + List.length extra - List.length ls)
    with (List.length extra) by lia.
  replace (List.length ls - (List.length ls + List.length extra)) with 0 by lia.
  replace (Nat.min (List.length ls + List.length extra) (List.length ls))
    with (List.length ls) by lia.
  cbn [seq rev map app].
  rewrite flat_map_nil.
  - rewrite app_nil_r, rev_seq_shift, map_map. apply map_ext. intros j.
    now rewrite nthSlot_app2.
  - intros i Hi. apply in_rev, in_seq in Hi.
    pose proof (common_slots_silent ls [] extra [] [] i Hl) as H.
    rewrite app_nil_r in H. apply H. lia.
Qed.

Lemma truncated_records (ls extra : list (option value)) :
  plain (VArray ls) = true -> wellFormed (VArray extra) = true ->
  changesOf (VArray (ls ++ extra)) (VArray ls) [] None []
  = map (fun j => DiffArray keepEmptyPath (Some []) (List.length ls + j)
                    (DiffDeleted keepEmptyPath None (nthSlot extra j)))
        (rev (seq 0 (List.length extra))).
Proof.
  intros Hl He. rewrite deepDiff_arrays.
  2:{ apply plain_wellFormed in Hl. cbn [wellFormed] in *.
      rewrite forallb_app. now rewrite Hl, He. }
  cbn [pathWith]. rewrite length_app.
  replace (List.length ls + List.length extra - List.length ls)
    with (List.length extra) by lia.
  replace (List.length ls - (List.length ls + List.length extra)) with 0 by lia.
  replace (Nat.min (List.length ls) (List.length ls + List.length extra))
    with (List.length ls) by lia.
  cbn [seq rev map app].
  rewrite flat_map_nil.
  - rewrite app_nil_r, rev_seq_shift, map_map. apply map_ext. intros j.
    now rewrite nthSlot_app2.
  - intros i Hi. apply in_rev, in_seq in Hi.
    pose proof (common_slots_silent ls extra [] [] [] i Hl) as H.
    rewrite app_nil_r in H. apply H. lia.
Qed.

End Tails2.

(** The tail policy of sequences: between a plain sequence and the same
    sequence with more elements behind it the walk reports the new
    elements only, one array record each, from the highest index down; the
    other way round it reports them as deleted, in the same order. *)
Theorem diff_sequence_tails (dateToString : number -> string) (keepEmptyPath : bool)
        (ls extra : list (option value)) :
  plain (VArray ls) = true -> wellFormed (VArray extra) = true ->
  changes (observableDiff dateToString keepEmptyPath
             (VArray ls) (VArray (ls ++ extra))
             (@None (change -> unit -> unit)) tt None false)
  = map (fun j => DiffArray keepEmptyPath (Some []) (List.length ls + j)
                    (DiffNew keepEmptyPath None (nthSlot extra j)))
        (rev (seq 0 (List.length extra)))
  /\ changes (observableDiff dateToString keepEmptyPath
                (VArray (ls ++ extra)) (VArray ls)
                (@None (change -> unit -> unit)) tt None false)
     = map (fun j => DiffArray keepEmptyPath (Some []) (List.length ls + j)
                       (DiffDeleted keepEmptyPath None (nthSlot extra j)))
           (rev (seq 0 (List.length extra))).
Proof.
  intros Hl He. rewrite !observableDiff_changes. split.
  - now apply appended_records.
  - now apply truncated_records.
Qed.

Lemma diff_sequence_tails_witness :
  plain (VArray [Some (VString "a"); Some (VObject [(KStr "k", VNull)])]) = true
  /\ wellFormed (VArray [None; Some (VNumber (Num 7))]) = true
  /\ changes (observableDiff (fun _ => "") false
                (VArray [Some (VString "a"); Some (VObject [(KStr "k", VNull)])])
                (VArray ([Some (VString "a"); Some (VObject [(KStr "k", VNull)])]
                         ++ [None; Some (VNumber (Num 7))]))
                (@None (change -> unit -> unit)) tt None false)
     = [DiffArray false (Some []) 3 (DiffNew false None (VNumber (Num 7)));
        DiffArray false (Some []) 2 (DiffNew false None VUndefined)]
  /\ changes (observableDiff (fun _ => "") false
                (VArray ([Some (VString "a"); Some (VObject [(KStr "k", VNull)])]
                         ++ [None; Some (VNumber (Num 7))]))
                (VArray [Some (VString "a"); Some (VObject [(KStr "k", VNull)])])
                (@None (change -> unit -> unit)) tt None false)
     = [DiffArray false (Some []) 3 (DiffDeleted false None (VNumber (Num 7)));
        DiffArray false (Some []) 2 (DiffDeleted false None VUndefined)].
Proof.
  split; [reflexivity|]. split; [reflexivity|].
  exact (diff_sequence_tails (fun _ => "") false
           [Some (VString "a"); Some (VObject [(KStr "k", VNull)])]
           [None; Some (VNumber (Num 7))] eq_refl eq_refl).
Defined.

(** ** A property added or removed *)

Lemma lookupProp_app (k : key) (a b : list (key * value)) :
  lookupProp k (a ++ b)
  = match lookupProp k a with
    | Some v => Some v
    | None => lookupProp k b
    end.
Proof.
  induction a as [|[k' v'] a IH]; [reflexivity|].
  cbn [app lookupProp]. now destruct (key_eqb k k').
Qed.

Lemma keysDistinct_snoc (ks : list key) (k : key) :
  keysDistinct ks = true -> ~ In k ks -> keysDistinct (ks ++ [k]) = true.
Proof.
  intros Hd Hn. apply keysDistinct_NoDup. apply keysDistinct_NoDup in Hd.
  apply NoDup_app; [exact Hd | constructor; [intros [] | constructor] |].
  intros a Ha [<-|[]]. contradiction.
Qed.

Lemma plain_snoc (lps : list (key * value)) (k : key) (v : value) :
  plain (VObject lps) = true -> isNumberKey k = false ->
  lookupProp k lps = None -> plain v = true ->
  plain (VObject (lps ++ [(k, v)])) = true.
Proof.
  intros Hl Hk Hn Hv. cbn [plain] in *. apply andb_prop in Hl. destruct Hl as [Hd Hf].
  rewrite map_app, forallb_app, Hf. cbn [map fst forallb snd].
  rewrite Hk, Hv. cbn [negb andb]. rewrite andb_true_r.
  apply keysDistinct_snoc; [exact Hd | now apply lookupProp_None].
Qed.

Lemma filter_none {A : Type} (f : A -> bool) (l : list A) :
  (forall x, In x l -> f x = false) -> filter f l = [].
Proof.
  induction l as [|a l IH]; intros H; [reflexivity|].
  cbn [filter]. rewrite (H a (or_introl eq_refl)). apply IH.
  intros x Hx. apply H. now right.
Qed.

Section AddedProperty.

Variable dateToString : number -> string.
Variable keepEmptyPath : bool.

Local Abbreviation changesOf := (changesOf dateToString keepEmptyPath).
Local Abbreviation changesOfUndefined := (changesOfUndefined dateToString keepEmptyPath).

Variable lps : list (key * value).
Variable k : key.
Variable v : value.

Hypothesis Hl : plain (VObject lps) = true.
Hypothesis Hk : isNumberKey k = false.
Hypothesis Hn : lookupProp k lps = None.
Hypothesis Hv : plain v = true.

Let rps : list (key * value) := lps ++ [(k, v)].

Lemma added_plain : plain (VObject rps) = true.
Proof. now apply plain_snoc. Qed.

Lemma added_lookup (k' : key) (v' : value) :
  lookupProp k' lps = Some v' -> lookupProp k' rps = Some v'.
Proof. intros H. unfold rps. now rewrite lookupProp_app, H. Qed.

Lemma added_lookup_new : lookupProp k rps = Some v.
Proof. unfold rps. rewrite lookupProp_app, Hn. cbn. now rewrite key_eqb_refl. Qed.

(** A property both sides hold with the same plain value is passed over,
    whichever side is the longer one. *)
Lemma kept_silent (l r : list (key * value)) (kv : key * value) (stack : list frame) :
  plain (VObject lps) = true -> In kv lps ->
  lookupProp (fst kv) l = Some (snd kv) -> lookupProp (fst kv) r = Some (snd kv) ->
  changesOf (snd kv) (ownValue (VObject r) (fst kv)) [] (Some (fst kv))
            ((VObject l, VObject r) :: stack)
  = [].
Proof.
  intros _ Hin El Er. destruct kv as [k' v']. cbn [fst snd] in *.
  assert (Hk' : isNumberKey k' = false).
  { apply (plain_keys lps k' Hl). apply in_map_iff. now exists (k', v'). }
  assert (Hv' : plain v' = true).
  { apply (plain_prop lps k' v' Hl). apply lookupProp_NoDup; [|exact Hin].
    now apply plain_NoDup. }
  cbn [ownValue]. rewrite Er.
  apply (agree_no_changes dateToString keepEmptyPath v' v' (agree_refl _ Hv') Hv').
  cbn [hd_error option_map fst snd].
  rewrite !definedAt_own; try reflexivity; cbn [hasOwnProperty];
    rewrite (propKey_plain _ Hk'); [now rewrite Er | now rewrite El].
Qed.

Lemma In_lps_lookup (kv : key * value) :
  In kv lps -> lookupProp (fst kv) lps = Some (snd kv).
Proof.
  intros Hin. destruct kv as [k' v']. apply lookupProp_NoDup; [|exact Hin].
  now apply plain_NoDup.
Qed.

Lemma In_enumerated {X : Type} (kids : list (key * X)) (kid : key * X) :
  In kid (enumerated kids) -> In kid kids.
Proof.
  unfold enumerated. intros Hin. apply in_app_or in Hin.
  destruct Hin as [Hin|Hin]; apply filter_In in Hin; tauto.
Qed.

Lemma ownKeys_snoc :
  ownKeys (VObject rps)
  = (objectKeys (VObject lps) ++ filter isStringKey [k])
    ++ (getOwnPropertySymbols (VObject lps) ++ filter isSymbolKey [k]).
Proof.
  unfold ownKeys, objectKeys, getOwnPropertySymbols, rps.
  now rewrite map_app, !filter_app.
Qed.

Lemma own_paired (k' : key) :
  In k' (ownKeys (VObject lps)) ->
  unpaired (map fst (enumerated lps)) k' = false.
Proof.
  intros Hin. unfold unpaired. rewrite map_fst_enumerated.
  replace (memKey k' (ownKeys (VObject lps))) with true
    by (symmetry; now apply memKey_In).
  now rewrite andb_false_r.
Qed.

Lemma new_unpaired :
  unpaired (map fst (enumerated lps)) k = truthyKey (Some k).
Proof.
  unfold unpaired. rewrite map_fst_enumerated.
  replace (memKey k (ownKeys (VObject lps))) with false.
  - now rewrite andb_true_r.
  - symmetry. apply memKey_not_In. intros Hin.
    apply (In_ownKeys lps k Hl) in Hin. congruence.
Qed.

Lemma one_key : filter isStringKey [k] ++ filter isSymbolKey [k] = [k].
Proof. destruct k; try discriminate; reflexivity. Qed.

Lemma added_unpaired :
  filter (unpaired (map fst (enumerated lps))) (ownKeys (VObject rps))
  = if truthyKey (Some k) then [k] else [].
Proof.
  rewrite ownKeys_snoc, !filter_app.
  rewrite (filter_none _ (objectKeys (VObject lps))),
          (filter_none _ (getOwnPropertySymbols (VObject lps))).
  - cbn [app]. rewrite <- filter_app, one_key. cbn [filter].
    now rewrite new_unpaired.
  - intros k' Hin. apply own_paired. unfold ownKeys. apply in_or_app. now right.
  - intros k' Hin. apply own_paired. unfold ownKeys. apply in_or_app. now left.
Qed.

Lemma added_records :
  changesOf (VObject lps) (VObject rps) [] None []
  = if truthyKey (Some k) then [DiffNew keepEmptyPath (Some [k]) v] else [].
Proof.
  rewrite deepDiff_objects;
    [|now apply plain_wellFormed | apply plain_ownKeys, added_plain].
  cbn [pathWith]. rewrite flat_map_nil.
  - cbn [app]. rewrite added_unpaired.
    destruct (truthyKey (Some k)); [|reflexivity].
    cbn [flat_map ownValue]. rewrite added_lookup_new, app_nil_r.
    rewrite deepDiffUndefined_new; [reflexivity | |].
    + cbn [hd_error option_map fst]. unfold definedAt. cbn [hasOwnProperty].
      rewrite (propKey_plain _ Hk), Hn. reflexivity.
    + cbn [hd_error option_map snd]. apply definedAt_own; [reflexivity|].
      cbn [hasOwnProperty]. now rewrite (propKey_plain _ Hk), added_lookup_new.
  - intros kv Hin. apply In_enumerated in Hin.
    apply kept_silent; auto using In_lps_lookup, added_lookup.
Qed.

Lemma enumerated_snoc :
  enumerated rps
  = (filter (fun kid => isStringKey (fst kid)) lps
     ++ filter (fun kid => isStringKey (fst kid)) [(k, v)])
    ++ (filter (fun kid => isSymbolKey (fst kid)) lps
        ++ filter (fun kid => isSymbolKey (fst kid)) [(k, v)]).
Proof. unfold enumerated, rps. now rewrite !filter_app. Qed.

Lemma one_prop :
  filter (fun kid : key * value => isStringKey (fst kid)) [(k, v)]
  ++ filter (fun kid : key * value => isSymbolKey (fst kid)) [(k, v)]
  = [(k, v)].
Proof. cbn. destruct k; try discriminate; reflexivity. Qed.

Lemma removed_records :
  changesOf (VObject rps) (VObject lps) [] None []
  = [DiffDeleted keepEmptyPath (Some [k]) v].
Proof.
  rewrite deepDiff_objects;
    [|apply plain_wellFormed, added_plain | now apply plain_ownKeys].
  cbn [pathWith]. rewrite (filter_none _ (ownKeys (VObject lps))).
  2:{ intros k' Hin. unfold unpaired. rewrite map_fst_enumerated.
      replace (memKey k' (ownKeys (VObject rps))) with true;
        [now rewrite andb_false_r|].
      symmetry. apply memKey_In. apply (In_ownKeys rps k' added_plain).
      apply (In_ownKeys lps k' Hl) in Hin.
      destruct (lookupProp k' lps) as [v'|] eqn:E; [|congruence].
      now rewrite (added_lookup k' v' E). }
  cbn [flat_map]. rewrite app_nil_r.
  rewrite enumerated_snoc, !flat_map_app.
  rewrite (flat_map_nil _ (filter (fun kid => isStringKey (fst kid)) lps)),
          (flat_map_nil _ (filter (fun kid => isSymbolKey (fst kid)) lps)).
  - cbn [app]. rewrite <- flat_map_app, one_prop. cbn [flat_map fst snd ownValue].
    rewrite Hn, app_nil_r.
    rewrite deepDiff_deleted; [reflexivity | now apply isRegExp_plain | |].
    + cbn [hd_error option_map fst]. apply definedAt_own; [reflexivity|].
      cbn [hasOwnProperty]. now rewrite (propKey_plain _ Hk), added_lookup_new.
    + cbn [hd_error option_map snd]. unfold definedAt. cbn [hasOwnProperty].
      rewrite (propKey_plain _ Hk), Hn. reflexivity.
  - intros kv Hin. apply filter_In in Hin. destruct Hin as [Hin _].
    apply kept_silent; auto using In_lps_lookup, added_lookup.
  - intros kv Hin. apply filter_In in Hin. destruct Hin as [Hin _].
    apply kept_silent; auto using In_lps_lookup, added_lookup.
Qed.

End AddedProperty.

(** One property more or less: between a plain mapping and the same mapping
    with one more property behind the others the walk reports a New record
    at that key, unless the key is the empty string: line 129 tests the key
    for truth and passes such a property over.  The other way round the
    property is reported as Deleted, whatever its key. *)
Theorem diff_added_or_removed_property (dateToString : number -> string)
        (keepEmptyPath : bool) (lps : list (key * value)) (k : key) (v : value) :
  plain (VObject lps) = true -> isNumberKey k = false ->
  lookupProp k lps = None -> plain v = true ->
  changes (observableDiff dateToString keepEmptyPath
             (VObject lps) (VObject (lps ++ [(k, v)]))
             (@None (change -> unit -> unit)) tt None false)
  = (if truthyKey (Some k) then [DiffNew keepEmptyPath (Some [k]) v] else [])
  /\ changes (observableDiff dateToString keepEmptyPath
                (VObject (lps ++ [(k, v)])) (VObject lps)
                (@None (change -> unit -> unit)) tt None false)
     = [DiffDeleted keepEmptyPath (Some [k]) v].
Proof.
  intros Hl Hk Hn Hv. rewrite !observableDiff_changes. split.
  - now apply added_records.
  - now apply removed_records.
Qed.

Lemma diff_added_or_removed_property_witness :
  plain (VObject [(KStr "a", VNumber (Num 1))]) = true
  /\ isNumberKey (KStr "") = false
  /\ lookupProp (KStr "") [(KStr "a", VNumber (Num 1))] = None
  /\ plain (VNumber (Num 2)) = true
  /\ changes (observableDiff (fun _ => "") false
                (VObject [(KStr "a", VNumber (Num 1))])
                (VObject ([(KStr "a", VNumber (Num 1))] ++ [(KStr "", VNumber (Num 2))]))
                (@None (change -> unit -> unit)) tt None false)
     = []
  /\ changes (observableDiff (fun _ => "") false
                (VObject ([(KStr "a", VNumber (Num 1))] ++ [(KStr "", VNumber (Num 2))]))
                (VObject [(KStr "a", VNumber (Num 1))])
                (@None (change -> unit -> unit)) tt None false)
     = [DiffDeleted false (Some [KStr ""]) (VNumber (Num 2))].
Proof.
  do 4 (split; [reflexivity|]).
  exact (diff_added_or_removed_property (fun _ => "") false
           [(KStr "a", VNumber (Num 1))] (KStr "") (VNumber (Num 2))
           eq_refl eq_refl eq_refl eq_refl).
Defined.

(** ** The order of the properties *)

Lemma plain_permuted (lps lps' : list (key * value)) :
  Permutation lps lps' -> plain (VObject lps) = true -> plain (VObject lps') = true.
Proof.
  intros HP Hl. cbn [plain] in *. apply andb_prop in Hl. destruct Hl as [Hd Hf].
  apply andb_true_intro. split.
  - apply keysDistinct_NoDup. apply keysDistinct_NoDup in Hd.
    apply (Permutation_NoDup (Permutation_map fst HP) Hd).
  - rewrite forallb_forall in *. intros kv Hin. apply Hf.
    now apply (Permutation_in _ (Permutation_sym HP)).
Qed.

Lemma lookupProp_permuted (lps lps' : list (key * value)) (k : key) :
  Permutation lps lps' -> NoDup (map fst lps) ->
  lookupProp k lps' = lookupProp k lps.
Proof.
  intros HP Hnd.
  assert (Hnd' : NoDup (map fst lps'))
    by exact (Permutation_NoDup (Permutation_map fst HP) Hnd).
  destruct (lookupProp k lps) as [v|] eqn:E.
  - apply lookupProp_NoDup; [exact Hnd'|].
    apply (Permutation_in _ HP). now apply lookupProp_In.
  - apply lookupProp_None. apply lookupProp_None in E. intros Hin. apply E.
    now apply (Permutation_in _ (Permutation_sym (Permutation_map fst HP))).
Qed.

(** The order of the properties of a mapping makes no difference to
    [diff]: a plain mapping and the same properties in another order do not
    differ. *)
Theorem diff_ignores_property_order (dateToString : number -> string)
        (keepEmptyPath : bool) (lps lps' : list (key * value)) :
  plain (VObject lps) = true -> Permutation lps lps' ->
  fst (fst (diff dateToString keepEmptyPath (VObject lps) (VObject lps') []))
  = ReturnsUndefined.
Proof.
  intros Hl HP. apply agree_containers_diff; try reflexivity.
  - apply agree_object. pose proof (plain_NoDup lps Hl) as Hnd.
    split; [exact Hnd|]. split.
    + apply Forall_forall. intros [k v] Hin. cbn [fst snd].
      split; [apply (plain_keys lps k Hl); apply in_map_iff; now exists (k, v)|].
      exists v. split.
      * rewrite (lookupProp_permuted lps lps' k HP Hnd). now apply lookupProp_NoDup.
      * apply agree_refl. apply (plain_prop lps k v Hl). now apply lookupProp_NoDup.
    + intros k _ _. now rewrite (lookupProp_permuted lps lps' k HP Hnd).
  - now apply (plain_permuted lps lps').
Qed.

Lemma diff_ignores_property_order_witness :
  plain (VObject [(KStr "a", VNumber (Num 1)); (KStr "b", VArray [Some VNull])]) = true
  /\ Permutation [(KStr "a", VNumber (Num 1)); (KStr "b", VArray [Some VNull])]
                 [(KStr "b", VArray [Some VNull]); (KStr "a", VNumber (Num 1))]
  /\ fst (fst (diff (fun _ => "") false
                    (VObject [(KStr "a", VNumber (Num 1));
                              (KStr "b", VArray [Some VNull])])
                    (VObject [(KStr "b", VArray [Some VNull]);
                              (KStr "a", VNumber (Num 1))]) []))
     = ReturnsUndefined.
Proof.
  split; [reflexivity|]. split; [apply perm_swap|].
  exact (diff_ignores_property_order (fun _ => "") false
           [(KStr "a", VNumber (Num 1)); (KStr "b", VArray [Some VNull])]
           [(KStr "b", VArray [Some VNull]); (KStr "a", VNumber (Num 1))]
           eq_refl (perm_swap _ _ _)).
Defined.

(** ** What every emitted record satisfies *)

Lemma insertByHash_In {X : Type} (dateToString : number -> string) (val : X -> value)
      (x y : X) (l : list X) :
  In y (insertByHash dateToString val x l) -> y = x \/ In y l.
Proof.
  induction l as [|z l IH]; cbn [insertByHash].
  - intros [<-|[]]. now left.
  - destruct (_ <=? _)%Z.
    + intros [<-|H]; [now left | now right].
    + intros [<-|H]; [right; now left|].
      destruct (IH H) as [->|H']; [now left | right; now right].
Qed.

Lemma sortByHash_In {X : Type} (dateToString : number -> string) (val : X -> value)
      (items : list (option X)) (o : option X) :
  In o (sortByHash dateToString val items) -> In o items.
Proof.
  unfold sortByHash. intros Hin. apply in_app_or in Hin. destruct Hin as [Hin|Hin].
  - apply in_map_iff in Hin. destruct Hin as (x & <- & Hin).
    assert (H : forall (l : list X) y,
               In y (fold_right (insertByHash dateToString val) [] l) -> In y l).
    { induction l as [|z l IH]; cbn [fold_right]; [tauto|].
      intros y Hy. apply insertByHash_In in Hy. destruct Hy as [->|Hy];
        [now left | right; now apply IH]. }
    apply H in Hin. apply in_flat_map in Hin. destruct Hin as (o & Ho & Hx).
    destruct o as [x'|]; [|destruct Hx].
    destruct (isUndefined (val x')); [destruct Hx|].
    destruct Hx as [<-|[]]. exact Ho.
  - apply in_app_or in Hin. destruct Hin as [Hin|Hin]; apply filter_In in Hin; tauto.
Qed.

Section RecordInvariant.

Variable dateToString : number -> string.
Variable keepEmptyPath : bool.
Variable prefilter : option prefilterOption.
Variable orderIndependent : bool.

Local Abbreviation DiffEdit := (DiffEdit keepEmptyPath).
Local Abbreviation DiffNew := (DiffNew keepEmptyPath).
Local Abbreviation DiffDeleted := (DiffDeleted keepEmptyPath).
Local Abbreviation DiffArray := (DiffArray keepEmptyPath).
Local Abbreviation filteredOut := (filteredOut prefilter).

(** [Q p c]: the record [c] may come out of a call of the walk whose
    [path] is [p]. *)
Variable Q : list key -> change -> Prop.

Hypothesis Q_here :
  forall p key, filteredOut p key = false ->
    (forall l r, Q p (DiffEdit (Some (pathWith p key)) l r))
    /\ (forall r, Q p (DiffNew (Some (pathWith p key)) r))
    /\ (forall l, Q p (DiffDeleted (Some (pathWith p key)) l))
    /\ (forall i v, Q p (DiffArray (Some (pathWith p key)) i (DiffNew None v)))
    /\ (forall j v, Q p (DiffArray (Some (pathWith p key)) j (DiffDeleted None v))).

Hypothesis Q_down :
  forall p key c, filteredOut p key = false -> Q (pathWith p key) c -> Q p c.

Local Abbreviation sound := (sound Q).

Lemma arrayWalk_Forall (R : change -> Prop) (unit_walk : walk)
      (kids : list (option (value * walk)))
      (lhs1 rhs1 : value) (cp : list key) (stack : list frame) :
  (forall i v, R (DiffArray (Some cp) i (DiffNew None v))) ->
  (forall j v, R (DiffArray (Some cp) j (DiffDeleted None v))) ->
  soundAt R cp unit_walk ->
  Forall (fun o => forall v w, o = Some (v, w) -> soundAt R cp w) kids ->
  Forall R (recordsOf (arrayWalk keepEmptyPath unit_walk kids lhs1 rhs1 cp stack)).
Proof.
  intros Hnew Hdel Hunit Hkids. unfold arrayWalk.
  match goal with
  | |- Forall _ (recordsOf (fold_left ?f ?l (?c, _, _))) =>
      assert (Hc : Forall R c); [|generalize dependent c; generalize l; set (step := f)]
  end.
  { apply Forall_app. split; apply Forall_forall; intros c Hin;
      apply in_map_iff in Hin; destruct Hin as (i & <- & _); auto. }
  intros idxs. generalize lhs1 rhs1.
  induction idxs as [|i idxs IH]; intros l r cs Hcs; [exact Hcs|].
  cbn [fold_left]. unfold step at 2.
  set (descend := match nth_error kids i with Some (Some (_, w)) => w | _ => unit_walk end).
  assert (Hd : soundAt R cp descend).
  { unfold descend. destruct (nth_error kids i) as [[[v w]|]|] eqn:E; auto.
    rewrite Forall_forall in Hkids.
    apply (Hkids _ (nth_error_In _ _ E) v w eq_refl). }
  specialize (Hd (nthSlot (itemsOf r) i) (Some (KNum i)) stack).
  destruct (descend (nthSlot (itemsOf r) i) cp (Some (KNum i)) stack)
    as [[pushed l'] r'].
  apply IH. apply Forall_app. split; [exact Hcs | exact Hd].
Qed.

Lemma mappingWalk_Forall (R : change -> Prop) (unit_walk : walk)
      (kids : list (key * (value * walk)))
      (lhs rhs : value) (cp : list key) (stack : list frame) :
  soundAt R cp unit_walk ->
  Forall (fun kid => soundAt R cp (snd (snd kid))) kids ->
  Forall R (recordsOf (mappingWalk unit_walk kids lhs rhs cp stack)).
Proof.
  intros Hunit Hkids. unfold mappingWalk.
  set (akeys := filter _ kids ++ filter _ kids).
  assert (Hakeys : Forall (fun kid => soundAt R cp (snd (snd kid))) akeys).
  { rewrite Forall_forall in *. intros kid Hin. apply Hkids.
    unfold akeys in Hin. apply in_app_or in Hin.
    destruct Hin as [Hin|Hin]; apply filter_In in Hin; tauto. }
  clearbody akeys.
  match goal with
  | |- context [fold_left ?f akeys ?init] => set (step1 := f); set (st0 := init)
  end.
  assert (H1 : Forall R (recordsOf (fst (fold_left step1 akeys st0)))).
  { assert (H0 : Forall R (recordsOf (fst st0))) by constructor.
    clearbody st0. revert st0 H0.
    induction akeys as [|kid akeys IH]; intros st H0; [exact H0|].
    cbn [fold_left]. inversion Hakeys as [|? ? Hkid Hrest]; subst.
    apply IH; [exact Hrest|].
    destruct st as [[[cs l] r] pkeys]. unfold step1. cbn [fst snd] in *.
    destruct (indexOf (fst kid) pkeys).
    - pose proof (Hkid (ownValue r (fst kid)) (Some (fst kid)) stack) as Hw.
      destruct (snd (snd kid) (ownValue r (fst kid)) cp (Some (fst kid)) stack)
        as [[pushed l'] r'].
      cbn [fst]. apply Forall_app. split; assumption.
    - pose proof (Hkid VUndefined (Some (fst kid)) stack) as Hw.
      destruct (snd (snd kid) VUndefined cp (Some (fst kid)) stack)
        as [[pushed l'] r'].
      cbn [fst]. apply Forall_app. split; assumption. }
  destruct (fold_left step1 akeys st0) as [acc pkeys1]. cbn [fst] in H1.
  revert acc H1. induction pkeys1 as [|o pkeys1 IH]; intros acc H1; [exact H1|].
  cbn [fold_left]. apply IH.
  destruct acc as [[cs l] r].
  destruct (truthyKey o); [|exact H1].
  destruct o as [k|]; [|exact H1].
  pose proof (Hunit (ownValue r k) (Some k) stack) as Hw.
  destruct (unit_walk (ownValue r k) cp (Some k) stack) as [[pushed l'] r'].
  apply Forall_app. split; assumption.
Qed.

Lemma sound_down (p : list key) (key : option key) (w : walk) :
  filteredOut p key = false -> sound w -> soundAt (Q p) (pathWith p key) w.
Proof.
  intros Hf Hw rhs key' stack. specialize (Hw rhs (pathWith p key) key' stack).
  revert Hw. apply Forall_impl. intros c. now apply Q_down.
Qed.

Lemma deepDiffBody_Forall (unit_walk : walk) (kids : children) (lhs : value) :
  sound unit_walk ->
  (forall ks, kids = Items ks ->
              Forall (fun o => forall v w, o = Some (v, w) -> sound w) ks) ->
  (forall ks, kids = Props ks -> Forall (fun kid => sound (snd (snd kid))) ks) ->
  sound (deepDiffBody dateToString keepEmptyPath prefilter orderIndependent
                      unit_walk kids lhs).
Proof.
  intros Hunit Hitems Hprops rhs p key stack. unfold deepDiffBody.
  destruct (filteredOut p key) eqn:Hf; [constructor|].
  destruct (Q_here p key Hf) as (He & Hn & Hd & Han & Had).
  fold (pathWith p key). cbv zeta.
  repeat match goal with
         | |- Forall _ (recordsOf (if ?c then ([_], _, _) else _)) =>
             destruct c; [constructor; [auto | constructor]|]
         end.
  match goal with
  | |- Forall _ (recordsOf (if ?c then _ else _)) => destruct c
  end.
  - match goal with
    | |- Forall _ (recordsOf (if ?c then _ else _)) => destruct c
    end.
    + apply arrayWalk_Forall; auto using sound_down.
      assert (H : Forall (fun o => forall v w, o = Some (v, w) ->
                                               soundAt (Q p) (pathWith p key) w)
                         match kids with
                         | Items ks => ks
                         | _ => []
                         end).
      { destruct kids as [|ks|ks]; try constructor.
        specialize (Hitems ks eq_refl).
        revert Hitems. apply Forall_impl. intros o H v w E.
        apply sound_down; [exact Hf | now apply (H v w)]. }
      destruct orderIndependent; [|exact H].
      rewrite Forall_forall in *. intros o Hin. apply H.
      now apply (sortByHash_In dateToString fst).
    + apply mappingWalk_Forall; auto using sound_down.
      destruct kids as [|ks|ks]; try constructor.
      specialize (Hprops ks eq_refl). revert Hprops. apply Forall_impl.
      intros kid H. now apply sound_down.
  - repeat match goal with
           | |- Forall _ (recordsOf (if ?c then _ else _)) => destruct c
           end; try constructor; auto; constructor.
Qed.

Lemma deepDiffUndefined_Forall :
  sound (deepDiffUndefined dateToString keepEmptyPath prefilter orderIndependent).
Proof.
  unfold deepDiffUndefined. apply deepDiffBody_Forall; try discriminate.
  intros rhs p key stack. constructor.
Qed.

Lemma deepDiff_Forall (lhs : value) :
  sound (deepDiff dateToString keepEmptyPath prefilter orderIndependent lhs).
Proof.
  induction lhs as [| | | | | | |items IH|props IH] using value_nested_ind;
    cbn [deepDiff];
    apply deepDiffBody_Forall; try discriminate; try apply deepDiffUndefined_Forall.
  - intros ks [= <-]. apply Forall_forall. intros o Hin v w E.
    apply in_map_iff in Hin. destruct Hin as ([x|] & <- & Hin); [|discriminate].
    cbn [option_map] in E. injection E as <- <-.
    rewrite Forall_forall in IH. now apply (IH (Some x)).
  - intros ks [= <-]. apply Forall_forall. intros kid Hin.
    apply in_map_iff in Hin. destruct Hin as ([k v] & <- & Hin). cbn [fst snd].
    rewrite Forall_forall in IH. now apply (IH (k, v)).
Qed.

End RecordInvariant.

Section Invariants.

Variable dateToString : number -> string.
Variable keepEmptyPath : bool.
Variable prefilter : option prefilterOption.
Variable orderIndependent : bool.

Lemma records_wellShaped (lhs rhs : value) (p : list key) (key : option key)
      (stack : list frame) :
  Forall (fun c => wellShaped c = true)
         (recordsOf (deepDiff dateToString keepEmptyPath prefilter orderIndependent
                              lhs rhs p key stack)).
Proof.
  apply (deepDiff_Forall dateToString keepEmptyPath prefilter orderIndependent
           (fun _ c => wellShaped c = true)).
  - intros p' key' _. repeat split; intros; reflexivity.
  - auto.
Qed.

Local Abbreviation below_path := (below_path keepEmptyPath prefilter).

Lemma below_path_here (p : list key) (key : option key) (c : change) :
  filteredOut prefilter p key = false ->
  path c = storedPath keepEmptyPath (Some (pathWith p key)) ->
  below_path p c.
Proof.
  intros Hf Hc. destruct key as [k|]; cbn [pathWith] in Hc.
  - exists [k]. split; [exact Hc|]. intros a k' b E.
    destruct a as [|x a]; [|destruct a; discriminate].
    injection E as <- <-. now rewrite app_nil_r.
  - exists []. rewrite app_nil_r. split; [exact Hc|]. intros a k' b E.
    destruct a; discriminate.
Qed.

Lemma records_below_path (lhs rhs : value) (p : list key) (key : option key)
      (stack : list frame) :
  Forall (below_path p)
         (recordsOf (deepDiff dateToString keepEmptyPath prefilter orderIndependent
                              lhs rhs p key stack)).
Proof.
  apply (deepDiff_Forall dateToString keepEmptyPath prefilter orderIndependent
           below_path).
  - intros p' key' Hf.
    repeat split; intros; apply (below_path_here p' key'); auto.
  - intros p' key' c Hf (rest & Hc & Hrest). destruct key' as [k|]; cbn [pathWith] in *.
    + exists (k :: rest). rewrite <- app_assoc in Hc. split; [exact Hc|].
      intros a k' b E. destruct a as [|x a].
      * injection E as <- <-. now rewrite app_nil_r.
      * injection E as <- E. specialize (Hrest a k' b E).
        now rewrite <- app_assoc in Hrest.
    + now exists rest.
Qed.

End Invariants.

(** Every record the walk emits has the shape the replay engine relies on,
    whatever the two values, the prefilter and the ordering option are: its
    kind is N, E, D or A; an array record carries an index and a New or
    Deleted item that has no path of its own, and no other record carries
    an index or an item. *)
Theorem emitted_records_wellShaped (dateToString : number -> string)
        (keepEmptyPath : bool) (prefilter : option prefilterOption)
        (orderIndependent : bool) (lhs rhs : value) :
  Forall (fun c => wellShaped c = true /\ validKind (kind c) = true)
         (changes (observableDiff dateToString keepEmptyPath lhs rhs
                     (@None (change -> unit -> unit)) tt prefilter orderIndependent)).
Proof.
  unfold observableDiff.
  pose proof (records_wellShaped dateToString keepEmptyPath prefilter orderIndependent
                lhs rhs [] None []) as H.
  destruct (deepDiff dateToString keepEmptyPath prefilter orderIndependent
                     lhs rhs [] None []) as [[cs l] r].
  cbn [changes]. unfold recordsOf in H. cbn [fst] in H.
  revert H. apply Forall_impl. intros c Hc. split; [exact Hc|].
  unfold wellShaped, kindIs, validKind in *.
  destruct (index c), (item c), (kind c) as [s|]; try discriminate; cbn [existsb].
  - apply andb_prop in Hc. destruct Hc as [Hc _]. rewrite Hc.
    now rewrite !orb_true_r.
  - repeat (apply orb_prop in Hc; destruct Hc as [Hc|Hc]); rewrite Hc;
      now rewrite ?orb_true_r.
Qed.


(** ** Sorting by hash *)

Section Sorting.

Variable dateToString : number -> string.

Local Abbreviation hash := (getOrderIndependentHash dateToString).

Lemma insertByHash_map {X : Type} (g : value -> X) (val : X -> value) (x : value)
      (l : list value) :
  (forall v, val (g v) = v) ->
  insertByHash dateToString val (g x) (map g l)
  = map g (insertByHash dateToString (fun v => v) x l).
Proof.
  intros Hg. induction l as [|y l IH]; [reflexivity|].
  cbn [map insertByHash]. rewrite !Hg.
  destruct (hash x <=? hash y)%Z; [reflexivity|].
  cbn [map]. now rewrite IH.
Qed.

Lemma sortByHash_map {X : Type} (g : value -> X) (val : X -> value)
      (items : list (option value)) :
  (forall v, val (g v) = v) ->
  sortByHash dateToString val (map (option_map g) items)
  = map (option_map g) (sortByHash dateToString (fun v => v) items).
Proof.
  intros Hg. unfold sortByHash. rewrite !map_app. f_equal; [|f_equal].
  - rewrite !map_map.
    assert (E : forall l : list value,
               fold_right (insertByHash dateToString val) [] (map g l)
               = map g (fold_right (insertByHash dateToString (fun v => v)) [] l)).
    { induction l as [|x l IH]; [reflexivity|].
      cbn [map fold_right]. rewrite IH. now apply insertByHash_map. }
    replace (flat_map (fun o : option X => match o with
                                           | Some x => if isUndefined (val x) then [] else [x]
                                           | None => []
                                           end) (map (option_map g) items))
      with (map g (flat_map (fun o : option value =>
                               match o with
                               | Some x => if isUndefined x then [] else [x]
                               | None => []
                               end) items)).
    + rewrite E, map_map. reflexivity.
    + induction items as [|[x|] items IH]; cbn [map flat_map option_map]; auto.
      rewrite map_app, IH, Hg. now destruct (isUndefined x).
  - induction items as [|[x|] items IH]; cbn [map filter option_map]; auto.
    rewrite Hg. destruct (isUndefined x); cbn [map option_map]; now rewrite IH.
  - induction items as [|[x|] items IH]; cbn [map filter option_map]; auto.
    now rewrite IH.
Qed.

(** Two insertions commute when equal hashes mean equal values. *)
Lemma insertByHash_comm (x y : value) (l : list value) :
  (hash x = hash y -> x = y) ->
  insertByHash dateToString (fun v => v) x (insertByHash dateToString (fun v => v) y l)
  = insertByHash dateToString (fun v => v) y (insertByHash dateToString (fun v => v) x l).
Proof.
  intros Hxy. induction l as [|z l IH].
  - cbn [insertByHash].
    destruct (Z.leb_spec (hash x) (hash y)), (Z.leb_spec (hash y) (hash x));
      try reflexivity; try lia.
    assert (E : x = y) by (apply Hxy; lia). now subst.
  - cbn [insertByHash].
    destruct (Z.leb_spec (hash y) (hash z)) as [Hyz|Hyz],
             (Z.leb_spec (hash x) (hash z)) as [Hxz|Hxz];
      cbn [insertByHash];
      repeat match goal with
             | |- context [(hash ?a <=? hash ?b)%Z] =>
                 destruct (Z.leb_spec (hash a) (hash b))
             end;
      try lia; try reflexivity;
      try (assert (E : x = y) by (apply Hxy; lia); now subst);
      try (now rewrite IH).
Qed.

Local Abbreviation collisionFree := (collisionFree dateToString).

Lemma sorted_permutation (l1 l2 : list value) :
  Permutation l1 l2 -> collisionFree l1 ->
  fold_right (insertByHash dateToString (fun v => v)) [] l1
  = fold_right (insertByHash dateToString (fun v => v)) [] l2.
Proof.
  intros HP. induction HP as [|x l1 l2 HP IH|x y l|l1 l2 l3 HP1 IH1 HP2 IH2];
    intros Hc.
  - reflexivity.
  - cbn [fold_right]. rewrite IH; [reflexivity|].
    intros a b Ha Hb. apply Hc; now right.
  - cbn [fold_right]. apply insertByHash_comm.
    apply Hc; [now left | right; now left].
  - rewrite IH1 by exact Hc. apply IH2.
    intros a b Ha Hb. apply Hc; apply (Permutation_in _ (Permutation_sym HP1)); assumption.
Qed.

End Sorting.

Lemma constant_permutation {A : Type} (c : A) (l1 l2 : list A) :
  Permutation l1 l2 -> Forall (eq c) l1 -> l1 = l2.
Proof.
  intros HP H1.
  assert (H2 : Forall (eq c) l2).
  { rewrite Forall_forall in *. intros x Hx. apply H1.
    now apply (Permutation_in _ (Permutation_sym HP)). }
  rewrite (Forall_eq_repeat H1), (Forall_eq_repeat H2).
  now rewrite (Permutation_length HP).
Qed.

Lemma Permutation_filter {A : Type} (f : A -> bool) (l1 l2 : list A) :
  Permutation l1 l2 -> Permutation (filter f l1) (filter f l2).
Proof.
  intros HP. induction HP as [|x l1 l2 HP IH|x y l|l1 l2 l3 HP1 IH1 HP2 IH2].
  - constructor.
  - cbn [filter]. destruct (f x); [now constructor | exact IH].
  - cbn [filter]. destruct (f x), (f y); try apply Permutation_refl. apply perm_swap.
  - now apply (perm_trans IH1).
Qed.

Section OrderIndependent.

Variable dateToString : number -> string.
Variable keepEmptyPath : bool.
Variable prefilter : option prefilterOption.

Local Abbreviation hash := (getOrderIndependentHash dateToString).
Local Abbreviation sorted := (sortByHash dateToString (fun v : value => v)).

Local Abbreviation distinctHashes := (distinctHashes dateToString).

Lemma sorted_permuted (ls rs : list (option value)) :
  Permutation ls rs -> distinctHashes ls -> sorted ls = sorted rs.
Proof.
  intros HP Hd. unfold sortByHash. f_equal; [f_equal|f_equal].
  - apply sorted_permutation.
    + now apply Permutation_flat_map.
    + intros x y Hx Hy. apply Hd.
      * apply in_flat_map in Hx. destruct Hx as ([x'|] & Hin & Hx); [|destruct Hx].
        destruct (isUndefined x'); [destruct Hx|]. destruct Hx as [<-|[]]. exact Hin.
      * apply in_flat_map in Hy. destruct Hy as ([y'|] & Hin & Hy); [|destruct Hy].
        destruct (isUndefined y'); [destruct Hy|]. destruct Hy as [<-|[]]. exact Hin.
  - apply (constant_permutation (Some VUndefined)).
    + now apply Permutation_filter.
    + apply Forall_forall. intros o Hin. apply filter_In in Hin.
      destruct Hin as [_ Ho]. destruct o as [[]|]; try discriminate. reflexivity.
  - apply (constant_permutation None).
    + now apply Permutation_filter.
    + apply Forall_forall. intros o Hin. apply filter_In in Hin.
      destruct Hin as [_ Ho]. destruct o; [discriminate | reflexivity].
Qed.

(** The ordering option makes no difference to a walk from a value that is
    no array and has no children. *)
Lemma deepDiff_childless (v rhs : value) (p : list key) (k : option key)
      (stack : list frame) :
  isContainer v = false ->
  deepDiff dateToString keepEmptyPath prefilter true v rhs p k stack
  = deepDiff dateToString keepEmptyPath prefilter false v rhs p k stack.
Proof.
  intros Hv. destruct v; try discriminate; cbn [deepDiff]; unfold deepDiffBody;
    destruct (filteredOut prefilter p k); try reflexivity;
    destruct rhs; cbn;
    repeat match goal with
           | |- context [if ?c then _ else _] => destruct c
           end; reflexivity.
Qed.

Lemma deepDiffUndefined_either (rhs : value) (p : list key) (k : option key)
      (stack : list frame) :
  deepDiffUndefined dateToString keepEmptyPath prefilter true rhs p k stack
  = deepDiffUndefined dateToString keepEmptyPath prefilter false rhs p k stack.
Proof.
  unfold deepDiffUndefined, deepDiffBody.
  destruct (filteredOut prefilter p k); try reflexivity;
    destruct rhs; cbn;
    repeat match goal with
           | |- context [if ?c then _ else _] => destruct c
           end; reflexivity.
Qed.

Lemma childless_pure (v : value) :
  isContainer v = false ->
  pureWalk v (deepDiff dateToString keepEmptyPath prefilter true v).
Proof.
  intros Hv rhs p k s. rewrite deepDiff_childless by exact Hv.
  apply deepDiff_pure. now destruct v.
Qed.

Lemma deepDiffUndefined_pure_sorting :
  pureWalk VUndefined (deepDiffUndefined dateToString keepEmptyPath prefilter true).
Proof.
  intros rhs p k s. rewrite deepDiffUndefined_either.
  apply deepDiffUndefined_pure.
Qed.

Lemma childless_sorted (items : list (option value)) :
  childless items -> childless (sorted items).
Proof.
  unfold childless. rewrite !Forall_forall. intros H o Hin. apply H.
  now apply (sortByHash_In dateToString (fun v => v)).
Qed.

(** The walk of two arrays at the root, when it is asked to be order
    independent and the left one holds no array and no mapping. *)
Lemma deepDiff_sorting (ls rs : list (option value)) :
  childless ls ->
  deepDiff dateToString keepEmptyPath prefilter true (VArray ls) (VArray rs) [] None []
  = arrayWalk keepEmptyPath
      (deepDiffUndefined dateToString keepEmptyPath prefilter true)
      (map (option_map (fun v => (v, deepDiff dateToString keepEmptyPath prefilter true v)))
           (sorted ls))
      (VArray (sorted ls)) (VArray (sorted rs)) []
      [(VArray (sorted ls), VArray (sorted rs))].
Proof.
  intros Hl. cbn [deepDiff]. unfold deepDiffBody.
  cbn -[arrayWalk sortByHash].
  set (W := deepDiff dateToString keepEmptyPath prefilter true).
  rewrite (sortByHash_map dateToString (fun v => (v, W v)) fst ls) by reflexivity.
  rewrite map_map.
  replace (map (fun x => option_map fst (option_map (fun v => (v, W v)) x)) (sorted ls))
    with (sorted ls).
  - reflexivity.
  - rewrite <- (map_id (sorted ls)) at 1. apply map_ext. now intros [x|].
Qed.

End OrderIndependent.

Lemma isLeaf_plain (v : value) : isLeaf v = true -> plain v = true.
Proof. destruct v as [| | | | |[|]| | |]; try discriminate; reflexivity. Qed.

Lemma isLeaf_childless (v : value) : isLeaf v = true -> isContainer v = false.
Proof. destruct v as [| | | | |[|]| | |]; try discriminate; reflexivity. Qed.

Lemma leaves_childless (items : list (option value)) :
  leaves items = true -> childless items.
Proof.
  unfold leaves, childless. rewrite forallb_forall, Forall_forall.
  intros H o Hin v ->. apply isLeaf_childless. exact (H _ Hin).
Qed.

Lemma leaves_plain (items : list (option value)) :
  leaves items = true -> plain (VArray items) = true.
Proof.
  unfold leaves. cbn [plain]. rewrite !forallb_forall. intros H o Hin.
  specialize (H o Hin). destruct o; [now apply isLeaf_plain | discriminate].
Qed.

Lemma leaves_sorted (dateToString : number -> string) (items : list (option value)) :
  leaves items = true ->
  leaves (sortByHash dateToString (fun v => v) items) = true.
Proof.
  unfold leaves. rewrite !forallb_forall. intros H o Hin. apply H.
  now apply (sortByHash_In dateToString (fun v => v)).
Qed.





(** ** arrayRemove *)

Ltac decide_Z :=
  repeat match goal with
         | |- context [(?a <? ?b)%Z] => destruct (Z.ltb_spec a b); try lia
         | |- context [(?a <=? ?b)%Z] => destruct (Z.leb_spec a b); try lia
         | |- context [(?a =? ?b)%Z] => destruct (Z.eqb_spec a b); try lia
         end.

Lemma setLength_within (n : nat) (items : list (option value)) :
  n <= List.length items -> setLength n items = firstn n items.
Proof.
  intros H. unfold setLength. replace (n - List.length items) with 0 by lia.
  apply app_nil_r.
Qed.

Lemma setLength_beyond (n : nat) (items : list (option value)) :
  List.length items <= n ->
  setLength n items = items ++ repeat None (n - List.length items).
Proof. intros H. unfold setLength. now rewrite firstn_all2. Qed.

Lemma sliceFrom_nat (n : nat) (items : list (option value)) :
  sliceFrom (Z.of_nat n) items = skipn n items.
Proof.
  unfold sliceFrom. decide_Z.
  destruct (Nat.le_gt_cases n (List.length items)).
  - rewrite Z.min_l by lia. now rewrite Nat2Z.id.
  - rewrite Z.min_r by lia. rewrite Nat2Z.id.
    now rewrite !skipn_all2 by lia.
Qed.

(** [arrayRemove] on an array that leaves room for what it appends. *)
Lemma arrayRemoveRange_fits (items : list (option value)) (from : Z) (to : option Z)
      (upto start newLength : Z) :
  upto = match to with
         | Some t => if (t =? 0)%Z then from else t
         | None => from
         end ->
  start = (if (upto + 1 =? 0)%Z then Z.of_nat (List.length items)
           else (upto + 1)%Z) ->
  newLength = (if (from <? 0)%Z then (Z.of_nat (List.length items) + from)%Z
               else from) ->
  (0 <= newLength)%Z ->
  (newLength + Z.of_nat (List.length (sliceFrom start items)) < 2 ^ 32)%Z ->
  arrayRemoveRange (VArray items) from to
  = Ok (VArray (setLength (Z.to_nat newLength) items
                ++ spread (sliceFrom start items))).
Proof.
  intros -> -> -> H0 H1. unfold arrayRemoveRange.
  match goal with
  | |- context [(?a <? 0)%Z || _] =>
      destruct (Z.ltb_spec a 0) as [?|_]; [lia|]
  end.
  match goal with
  | |- context [false || (2 ^ 32 <=? ?a)%Z] =>
      destruct (Z.leb_spec (2 ^ 32) a) as [?|_]; [lia|]
  end.
  cbn [orb].
  match goal with
  | |- context [(2 ^ 32 <=? ?a)%Z] =>
      destruct (Z.leb_spec (2 ^ 32) a) as [?|_]; [lia|]
  end.
  reflexivity.
Qed.

(** The calls of the engine, with an index and no [to]. *)
Lemma arrayRemoveRange_index (items : list (option value)) (n : nat) :
  (Z.of_nat n < 2 ^ 32)%Z ->
  (Z.of_nat (List.length items) < 2 ^ 32)%Z ->
  arrayRemoveRange (VArray items) (Z.of_nat n) None
  = arrayRemove (VArray items) (Some n).
Proof.
  intros Hn Hlen.
  assert (E : (if (Z.of_nat n + 1 =? 0)%Z then Z.of_nat (List.length items)
               else (Z.of_nat n + 1)%Z) = Z.of_nat (n + 1)).
  { destruct (Z.eqb_spec (Z.of_nat n + 1) 0); lia. }
  assert (F : (if (Z.of_nat n <? 0)%Z
               then (Z.of_nat (List.length items) + Z.of_nat n)%Z
               else Z.of_nat n) = Z.of_nat n).
  { destruct (Z.ltb_spec (Z.of_nat n) 0); lia. }
  rewrite (arrayRemoveRange_fits items (Z.of_nat n) None (Z.of_nat n)
             (Z.of_nat (n + 1)) (Z.of_nat n)
             eq_refl (eq_sym E) (eq_sym F)).
  - rewrite Nat2Z.id, sliceFrom_nat. reflexivity.
  - lia.
  - rewrite sliceFrom_nat, length_skipn. lia.
Qed.

(** A range within the array: the elements from [from] to [to] are taken
    out and the rest closes up, its holes read as [undefined]. *)
Theorem arrayRemove_range (items : list (option value)) (from to : nat) :
  from <= to -> to < List.length items ->
  (Z.of_nat (List.length items) < 2 ^ 32)%Z ->
  arrayRemoveRange (VArray items) (Z.of_nat from) (Some (Z.of_nat to))
  = Ok (VArray (firstn from items ++ spread (skipn (S to) items)))
  /\ arrayRemove (VArray items) (Some to)
     = Ok (VArray (firstn to items ++ spread (skipn (S to) items))).
Proof.
  intros Hft Ht Hlen. split.
  - assert (U : (if (Z.of_nat to =? 0)%Z then Z.of_nat from else Z.of_nat to)
                = Z.of_nat to).
    { destruct (Z.eqb_spec (Z.of_nat to) 0); [lia | reflexivity]. }
    assert (E : (if (Z.of_nat to + 1 =? 0)%Z then Z.of_nat (List.length items)
                 else (Z.of_nat to + 1)%Z) = Z.of_nat (S to)).
    { destruct (Z.eqb_spec (Z.of_nat to + 1) 0); lia. }
    assert (F : (if (Z.of_nat from <? 0)%Z
                 then (Z.of_nat (List.length items) + Z.of_nat from)%Z
                 else Z.of_nat from) = Z.of_nat from).
    { destruct (Z.ltb_spec (Z.of_nat from) 0); lia. }
    rewrite (arrayRemoveRange_fits items (Z.of_nat from) (Some (Z.of_nat to))
               (Z.of_nat to) (Z.of_nat (S to)) (Z.of_nat from)
               (eq_sym U) (eq_sym E) (eq_sym F)).
    + rewrite Nat2Z.id, sliceFrom_nat, setLength_within by lia. reflexivity.
    + lia.
    + rewrite sliceFrom_nat, length_skipn. lia.
  - unfold arrayRemove. rewrite setLength_within by lia.
    now replace (to + 1) with (S to) by lia.
Qed.

Lemma arrayRemove_range_witness :
  1 <= 2 /\ 2 < List.length [Some VNull; Some (VBool true); None; None; Some VNull]
  /\ (Z.of_nat (List.length [Some VNull; Some (VBool true); None; None; Some VNull])
      < 2 ^ 32)%Z
  /\ arrayRemoveRange (VArray [Some VNull; Some (VBool true); None; None; Some VNull])
                      (Z.of_nat 1) (Some (Z.of_nat 2))
     = Ok (VArray [Some VNull; Some VUndefined; Some VNull]).
Proof.
  split; [lia|]. split; [simpl; lia|]. split; [simpl; lia|].
  apply (proj1 (arrayRemove_range [Some VNull; Some (VBool true); None; None; Some VNull]
                  1 2 ltac:(lia) ltac:(simpl; lia) ltac:(simpl; lia))).
Defined.

(** A negative [from] counts from the end: with [n] between 1 and the
    length, [arrayRemove(arr, -n)] takes out the element [n] places before
    the end. *)
Theorem arrayRemove_from_end (items : list (option value)) (n : nat) :
  1 <= n -> n <= List.length items ->
  (Z.of_nat (List.length items) < 2 ^ 32)%Z ->
  arrayRemoveRange (VArray items) (- Z.of_nat n) None
  = Ok (VArray (firstn (List.length items - n) items
                ++ spread (skipn (S (List.length items - n)) items))).
Proof.
  intros H1 Hn Hlen.
  assert (F : (if (- Z.of_nat n <? 0)%Z
               then (Z.of_nat (List.length items) + - Z.of_nat n)%Z
               else (- Z.of_nat n)%Z) = Z.of_nat (List.length items - n)).
  { destruct (Z.ltb_spec (- Z.of_nat n) 0); lia. }
  assert (S : sliceFrom (if (- Z.of_nat n + 1 =? 0)%Z
                         then Z.of_nat (List.length items)
                         else (- Z.of_nat n + 1)%Z) items
              = skipn (S (List.length items - n)) items).
  { destruct (Z.eqb_spec (- Z.of_nat n + 1) 0) as [E|E].
    - rewrite sliceFrom_nat. rewrite !skipn_all2 by lia. reflexivity.
    - unfold sliceFrom.
      destruct (Z.ltb_spec (- Z.of_nat n + 1) 0); [|lia].
      rewrite Z.max_l by lia.
      now replace (Z.to_nat (Z.of_nat (List.length items) + (- Z.of_nat n + 1)))
        with (S (List.length items - n)) by lia. }
  rewrite (arrayRemoveRange_fits items (- Z.of_nat n) None (- Z.of_nat n) _
             (Z.of_nat (List.length items - n)) eq_refl eq_refl (eq_sym F)).
  - rewrite S, Nat2Z.id, setLength_within by lia. reflexivity.
  - lia.
  - rewrite S, length_skipn. lia.
Qed.

Lemma arrayRemove_from_end_witness :
  1 <= 2 /\ 2 <= List.length [Some VNull; Some (VBool true); Some (VBool false)]
  /\ (Z.of_nat (List.length [Some VNull; Some (VBool true); Some (VBool false)])
      < 2 ^ 32)%Z
  /\ arrayRemoveRange (VArray [Some VNull; Some (VBool true); Some (VBool false)])
                      (- Z.of_nat 2) None
     = Ok (VArray [Some VNull; Some (VBool false)]).
Proof.
  split; [lia|]. split; [simpl; lia|]. split; [simpl; lia|].
  apply (arrayRemove_from_end [Some VNull; Some (VBool true); Some (VBool false)] 2);
    simpl; lia.
Defined.

(** Outside the array nothing is removed: an index at or past the end pads
    the array with holes up to that index, and a negative index that
    reaches before the start throws a RangeError. *)
Theorem arrayRemove_outside (items : list (option value)) (n : nat) :
  List.length items <= n ->
  (Z.of_nat n < 2 ^ 32)%Z ->
  arrayRemoveRange (VArray items) (Z.of_nat n) None
  = Ok (VArray (items ++ repeat None (n - List.length items)))
  /\ arrayRemove (VArray items) (Some n)
     = Ok (VArray (items ++ repeat None (n - List.length items)))
  /\ arrayRemoveRange (VArray items) (- Z.of_nat (S n)) None = Err RangeError.
Proof.
  intros Hn Hlt.
  assert (E : arrayRemove (VArray items) (Some n)
              = Ok (VArray (items ++ repeat None (n - List.length items)))).
  { unfold arrayRemove. rewrite setLength_beyond by exact Hn.
    rewrite skipn_all2 by lia. cbn [spread map]. now rewrite app_nil_r. }
  split; [|split; [exact E|]].
  - rewrite arrayRemoveRange_index by lia. exact E.
  - unfold arrayRemoveRange.
    destruct (Z.ltb_spec (- Z.of_nat (S n)) 0); [|lia].
    destruct (Z.ltb_spec (Z.of_nat (List.length items) + - Z.of_nat (S n)) 0); [|lia].
    reflexivity.
Qed.

Lemma arrayRemove_outside_witness :
  List.length [Some VNull] <= 3
  /\ (Z.of_nat 3 < 2 ^ 32)%Z
  /\ arrayRemoveRange (VArray [Some VNull]) (Z.of_nat 3) None
     = Ok (VArray [Some VNull; None; None])
  /\ arrayRemoveRange (VArray [Some VNull]) (- Z.of_nat 4) None = Err RangeError.
Proof.
  split; [simpl; lia|]. split; [simpl; lia|].
  pose proof (arrayRemove_outside [Some VNull] 3 ltac:(simpl; lia) ltac:(simpl; lia))
    as [A [_ B]].
  split; [exact A | exact B].
Defined.

(** ** The string hash *)

Lemma toInt32_range (z : Z) : (- 2 ^ 31 <= toInt32 z < 2 ^ 31)%Z.
Proof.
  unfold toInt32.
  pose proof (Z.mod_pos_bound (z + 2 ^ 31) (2 ^ 32) ltac:(lia)). lia.
Qed.

(** The string hash is a signed 32-bit integer, whatever the string. *)
Theorem hashThisString_int32 (s : string) :
  (- 2 ^ 31 <= hashThisString s < 2 ^ 31)%Z.
Proof.
  unfold hashThisString.
  assert (H : forall s h, (- 2 ^ 31 <= h < 2 ^ 31)%Z ->
                          (- 2 ^ 31 <= hashLoop h s < 2 ^ 31)%Z).
  { clear s. induction s as [|c s IH]; intros h Hh; [exact Hh|].
    cbn [hashLoop]. apply IH. apply toInt32_range. }
  apply H. lia.
Qed.

(** ** What the order-independent hash does not see *)

Section HashBlind.

Variable dateToString : number -> string.

Local Abbreviation hash := (getOrderIndependentHash dateToString).

(** Holes of an array and symbol-keyed properties of a mapping contribute
    nothing to the order-independent hash: [forEach] skips the holes and
    [for ... in] the symbols, so the hash is that of the value without
    them. *)
Theorem hash_skips_holes_and_symbols (items : list (option value))
        (props : list (key * value)) :
  hash (VArray items) = hash (VArray (filter presentItem items))
  /\ hash (VObject props)
     = hash (VObject (filter (fun kv => isStringKey (fst kv)) props)).
Proof.
  split.
  - cbn [getOrderIndependentHash].
    match goal with
    | |- context [fold_left ?f items 0%Z] => set (step := f)
    end.
    assert (E : forall l a, fold_left step l a
                            = fold_left step (filter presentItem l) a).
    { induction l as [|[x|] l IH]; intros a; cbn [filter presentItem fold_left];
        auto. }
    now rewrite <- (E items 0%Z).
  - cbn [getOrderIndependentHash].
    match goal with
    | |- fold_left ?f props 0%Z = _ => set (step := f)
    end.
    assert (E : forall l a, fold_left step l a
                            = fold_left step
                                (filter (fun kv => isStringKey (fst kv)) l) a).
    { induction l as [|[k v] l IH]; intros a; [reflexivity|].
      cbn [filter fst fold_left]. destruct k; cbn [isStringKey fold_left];
        unfold step at 1 3; cbn [fst]; apply IH. }
    apply E.
Qed.

End HashBlind.

(** ** Containers created along a path *)

Lemma insertProp_absent (k : key) (v : value) (ps : list (key * value)) :
  lookupProp k ps = None -> insertProp k v ps = ps ++ [(k, v)].
Proof.
  induction ps as [|[k' v'] ps IH]; [reflexivity|].
  cbn [lookupProp insertProp app]. destruct (key_eqb k k'); [discriminate|].
  intros H. now rewrite IH.
Qed.

Lemma setSlot_empty (i : nat) (v : value) :
  setSlot i v [] = repeat None i ++ [Some v].
Proof. exact (setSlot_extend [] i v). Qed.

Section Missing.

Variable ps : list (key * value).
Variable k : key.
Hypothesis Hk : isNumberKey k = false.
Hypothesis Hn : lookupProp k ps = None.

Lemma getProp_absent : getProp (VObject ps) k = Ok VUndefined.
Proof. cbn [getProp]. now rewrite (propKey_plain _ Hk), Hn. Qed.

Lemma setProp_absent (v : value) :
  setProp (VObject ps) k v = Ok (VObject (ps ++ [(k, v)])).
Proof.
  cbn [setProp]. now rewrite (propKey_plain _ Hk), (insertProp_absent _ _ _ Hn).
Qed.

Lemma lookupProp_last (v : value) : lookupProp k (ps ++ [(k, v)]) = Some v.
Proof. rewrite <- (insertProp_absent _ _ _ Hn). apply lookupProp_insertProp_same. Qed.

Lemma getProp_last (v : value) : getProp (VObject (ps ++ [(k, v)])) k = Ok v.
Proof. cbn [getProp]. now rewrite (propKey_plain _ Hk), lookupProp_last. Qed.

Lemma insertProp_last (v v' : value) :
  insertProp k v' (ps ++ [(k, v)]) = ps ++ [(k, v')].
Proof.
  revert Hn. clear Hk. induction ps as [|[k0 v0] l IH]; intros H.
  - cbn. now rewrite key_eqb_refl.
  - cbn [lookupProp] in H. cbn [app insertProp].
    destruct (key_eqb k k0); [discriminate|]. now rewrite IH.
Qed.

Lemma mutatedAt_last (v v' : value) :
  mutatedAt (VObject (ps ++ [(k, v)])) k v' = VObject (ps ++ [(k, v')]).
Proof.
  cbn [mutatedAt]. now rewrite (propKey_plain _ Hk), lookupProp_last, insertProp_last.
Qed.

Lemma applyWalk_creates (next : key) (terminal : value -> key -> result value) :
  applyWalk (VObject ps) [k; next] terminal
  = (child <- terminal (if isNumberKey next then VArray [] else VObject []) next ;;
     Ok (VObject (ps ++ [(k, child)]))).
Proof.
  cbn [applyWalk]. rewrite getProp_absent. cbn [bind typeof String.eqb Ascii.eqb Bool.eqb].
  rewrite setProp_absent. cbn [bind]. rewrite getProp_last. cbn [bind].
  destruct (terminal _ next); [|reflexivity]. cbn [bind]. now rewrite mutatedAt_last.
Qed.

Lemma revertWalk_creates (next : key) (terminal : value -> key -> result value) :
  revertWalk (VObject ps) [k; next] terminal
  = (child <- terminal (VObject []) next ;; Ok (VObject (ps ++ [(k, child)]))).
Proof.
  cbn [revertWalk]. rewrite getProp_absent. cbn [bind typeof String.eqb Ascii.eqb Bool.eqb].
  rewrite setProp_absent. cbn [bind]. rewrite getProp_last. cbn [bind].
  destruct (terminal _ next); [|reflexivity]. cbn [bind]. now rewrite mutatedAt_last.
Qed.

End Missing.



